(** * ray-optics: part tree, grouping engine, sync engine and field spec

    A shallow embedding of [rayoptics/elem/parttree.py] and of
    [FieldSpec.max_field] from [optical/opticalspec.py], with the
    properties of the natural-language specification stated and proved
    over it.

    Layout:
    - [py]       : the Python primitives the code relies on (exceptions,
                   [str.format] of an index, [int()], slicing,
                   [list.index], [str.lower], [str.split], [in]);
    - [optical]  : [FieldSpec.max_field] over IEEE binary64 floats;
    - [anytree]  : the part of the anytree library the code calls
                   ([Node], [PreOrderIter], [leaves], [find_by_attr],
                   the [parent] setter, [DictExporter]/[DictImporter]);
    - [elements] : the element classes the part tree consumes;
    - [parttree] : the functions of [parttree.py]. *)

From Stdlib Require Import ZArith List String Ascii Bool Lia.
From Stdlib Require Import Decimal DecimalString DecimalNat.
From Stdlib Require Import Floats.
From stdpp Require Import base option list strings.

Import ListNotations.
Local Open Scope string_scope.
Local Open Scope list_scope.

(** ** Python primitives *)

Module py.

(** The exceptions that the modelled code can raise. *)
Inductive exn : Set :=
| KeyError | IndexError | ValueError | AttributeError | TypeError
| CountError | LoopError.

(** A computation either returns a value or raises. *)
Inductive result (A : Type) : Type :=
| Ok (a : A)
| Raise (e : exn).
Arguments Ok {A} a.
Arguments Raise {A} e.

Definition bind {A B} (m : result A) (k : A -> result B) : result B :=
  match m with
  | Ok a => k a
  | Raise e => Raise e
  end.

Definition of_option {A} (e : exn) (o : option A) : result A :=
  match o with
  | Some a => Ok a
  | None => Raise e
  end.

Definition is_ok {A} (m : result A) : bool :=
  match m with Ok _ => true | Raise _ => false end.

(** [for x in l: st = body st x], stopping at the first exception. *)
Fixpoint foldM {A S} (body : S -> A -> result S) (l : list A) (st : S)
  : result S :=
  match l with
  | [] => Ok st
  | a :: l' => bind (body st a) (foldM body l')
  end.

(** Map a fallible function over a list, left to right. *)
Definition mapM {A B} (f : A -> result B) : list A -> result (list B) :=
  fix go (l : list A) : result (list B) :=
    match l with
    | [] => Ok []
    | a :: l' => bind (f a) (fun b => bind (go l') (fun bs => Ok (b :: bs)))
    end.

End py.

Export py.

#[global] Instance result_bind : MBind py.result :=
  fun A B k m => py.bind m k.
#[global] Instance result_ret : MRet py.result := @py.Ok.

Module pystr.

(** [f'{n}'] for a non-negative index: its decimal digits. *)
Definition str (n : nat) : string :=
  NilEmpty.string_of_uint (Nat.to_uint n).

Definition is_digit (c : ascii) : bool :=
  let n := nat_of_ascii c in (48 <=? n)%nat && (n <=? 57)%nat.

Definition digit_of (c : ascii) : option Z :=
  if is_digit c then Some (Z.of_nat (nat_of_ascii c) - 48)%Z else None.

(** ASCII white space as [str.isspace] sees it. *)
Definition is_space (c : ascii) : bool :=
  let n := nat_of_ascii c in
  ((9 <=? n)%nat && (n <=? 13)%nat) || ((28 <=? n)%nat && (n <=? 32)%nat).

Fixpoint lstrip (s : string) : string :=
  match s with
  | String c s' => if is_space c then lstrip s' else s
  | EmptyString => EmptyString
  end.

Fixpoint rstrip (s : string) : string :=
  match s with
  | String c s' =>
      match rstrip s' with
      | EmptyString => if is_space c then EmptyString else String c EmptyString
      | r => String c r
      end
  | EmptyString => EmptyString
  end.

Definition strip (s : string) : string := rstrip (lstrip s).

(** The digits of an integer literal; a single underscore may separate
    two digits. *)
Fixpoint int_digits (acc : Z) (s : string) : option Z :=
  match s with
  | EmptyString => Some acc
  | String c s' =>
      if Ascii.eqb c "_" then
        match s' with
        | String c' _ => if is_digit c' then int_digits acc s' else None
        | EmptyString => None
        end
      else
        match digit_of c with
        | Some d => int_digits (10 * acc + d)%Z s'
        | None => None
        end
  end.

Definition int_unsigned (s : string) : option Z :=
  match s with
  | String c _ => if is_digit c then int_digits 0 s else None
  | EmptyString => None
  end.

(** [int(s)] in base 10 on an ASCII string: surrounding white space, an
    optional sign, then digits.  Anything else raises [ValueError]. *)
Definition int (s : string) : result Z :=
  of_option ValueError
    match strip s with
    | String "-" s' => option_map Z.opp (int_unsigned s')
    | String "+" s' => int_unsigned s'
    | s' => int_unsigned s'
    end.

(** [s[0]]: raises [IndexError] on the empty string. *)
Definition first (s : string) : result ascii :=
  match s with
  | String c _ => Ok c
  | EmptyString => Raise IndexError
  end.

(** [s[1:]], [s[:1]] and [s[:2]]: slices never raise. *)
Definition from1 (s : string) : string :=
  match s with
  | String _ s' => s'
  | EmptyString => EmptyString
  end.

Definition upto1 (s : string) : string :=
  match s with
  | String c _ => String c EmptyString
  | EmptyString => EmptyString
  end.

Definition upto2 (s : string) : string :=
  match s with
  | String c (String d _) => String c (String d EmptyString)
  | _ => s
  end.

Definition lower_ascii (c : ascii) : ascii :=
  let n := nat_of_ascii c in
  if (65 <=? n)%nat && (n <=? 90)%nat then ascii_of_nat (n + 32) else c.

(** [s.lower()] on ASCII text. *)
Fixpoint lower (s : string) : string :=
  match s with
  | String c s' => String (lower_ascii c) (lower s')
  | EmptyString => EmptyString
  end.

(** [t in s] for strings: [t] occurs as a contiguous substring. *)
Fixpoint contains (t s : string) : bool :=
  String.prefix t s ||
  match s with
  | String _ s' => contains t s'
  | EmptyString => false
  end.

(** [s.split(sep)] for a one character separator. *)
Fixpoint split (sep : ascii) (s : string) : list string :=
  match s with
  | EmptyString => [EmptyString]
  | String c s' =>
      if Ascii.eqb c sep then EmptyString :: split sep s'
      else
        match split sep s' with
        | w :: ws => String c w :: ws
        | [] => [String c EmptyString]
        end
  end.

End pystr.

Module pylist.

(** [l[i]] with Python's negative indices; [IndexError] out of range. *)
Definition index {A} (l : list A) (i : Z) : result A :=
  let n := Z.of_nat (length l) in
  let j := if (i <? 0)%Z then (i + n)%Z else i in
  if (j <? 0)%Z then Raise IndexError
  else of_option IndexError (nth_error l (Z.to_nat j)).

(** [l.index(x)]: position of the first element equal to [x];
    [ValueError] when there is none. *)
Fixpoint find_index {A B} (eqb : A -> B -> bool) (x : B) (l : list A)
  : option nat :=
  match l with
  | [] => None
  | a :: l' => if eqb a x then Some O else option_map S (find_index eqb x l')
  end.

Definition index_of {A B} (eqb : A -> B -> bool) (l : list A) (x : B)
  : result nat :=
  of_option ValueError (find_index eqb x l).

(** [l[1:-1]]. *)
Definition inner {A} (l : list A) : list A :=
  removelast (tl l).

(** [l[:n]] for [n >= 0]. *)
Definition upto {A} (n : nat) (l : list A) : list A := firstn n l.

(** [enumerate(l, start)]. *)
Fixpoint enumerate {A} (start : nat) (l : list A) : list (nat * A) :=
  match l with
  | [] => []
  | a :: l' => (start, a) :: enumerate (S start) l'
  end.

End pylist.

(** ** [optical/opticalspec.py]: the field specification *)

Module optical.

Local Open Scope float_scope.

(** [Field]: only [x] and [y] are read by [max_field]. *)
Record Field : Set := mkField { x : float; y : float }.

(** One iteration of the loop of [max_field]; the state is
    [(max_fld_sqrd, max_fld)]. *)
Definition max_field_body (st : float * option nat) (e : nat * Field)
  : float * option nat :=
  let '(max_fld_sqrd, max_fld) := st in
  let '(i, f) := e in
  let fld_sqrd := x f * x f + y f * y f in
  if max_fld_sqrd <? fld_sqrd then (fld_sqrd, Some i) else st.

Definition max_field_loop (fields : list Field) : float * option nat :=
  fold_left max_field_body (pylist.enumerate 0 fields) (0, None).

(** [FieldSpec.max_field]. *)
Definition max_field (fields : list Field) : float * option nat :=
  let '(max_fld_sqrd, max_fld) := max_field_loop fields in
  (sqrt max_fld_sqrd, max_fld).

Definition fld_sqrd (f : Field) : float := x f * x f + y f * y f.

End optical.

(** ** The objects the part tree refers to *)

Module model.

(** An interface (surface) of the sequence model.  The record carries the
    attributes the part tree code reads: [interact_mode], whether the
    object is a [thinlens.ThinLens], and its [profile] object.  Objects
    are compared by identity in Python; here identity is the object id
    [ifc_oid] carried by the record, and [==] is equality of records. *)
Record Interface : Set := mkInterface {
  ifc_oid : nat;
  interact_mode : string;
  is_thinlens : bool;
  profile : nat
}.

(** A gap; [medium_name] is what [g.medium.name()] returns. *)
Record Gap : Set := mkGap {
  gap_oid : nat;
  medium_name : string
}.

(** The sequence model as the part tree consumes it. *)
Record SequentialModel : Set := mkSeq {
  ifcs : list Interface;
  gaps : list Gap;
  z_dir : list Z;
  stop_surface : option nat
}.

(** The element variants of the catalog. *)
Inductive kind : Set :=
| Lens | CementedElement | Mirror | ThinElement | DummyInterface | AirGap.

(** An element object: its variant, its [label], and the interfaces and
    gaps it wraps, each interface with its index in the sequence.
    [e_oid] is the identity of the object. *)
Record Element : Set := mkElement {
  e_oid : nat;
  e_kind : kind;
  label : string;
  e_ifcs : list (nat * Interface);
  e_gaps : list (nat * Gap)
}.

(** What a node's [id] attribute can reference.  [RTree] is the
    [PartTree] object itself, the [id] of the root node. *)
Inductive referent : Set :=
| RIfc (s : Interface)
| RGap (g : Gap)
| RProfile (p : nat)
| RElem (e : Element)
| RTree.

#[global] Instance Interface_eq_dec : EqDecision Interface.
Proof. solve_decision. Defined.
#[global] Instance Gap_eq_dec : EqDecision Gap.
Proof. solve_decision. Defined.
#[global] Instance kind_eq_dec : EqDecision kind.
Proof. solve_decision. Defined.
#[global] Instance Element_eq_dec : EqDecision Element.
Proof. solve_decision. Defined.
#[global] Instance referent_eq_dec : EqDecision referent.
Proof. solve_decision. Defined.

(** [hasattr(obj, 'label')] and [obj.label]: only elements are
    labelled. *)
Definition label_of (r : referent) : option string :=
  match r with
  | RElem e => Some (label e)
  | _ => None
  end.

End model.

Export model.

(** ** The anytree library *)

Module anytree.

(** A node with its attributes [name], [id], [tag] and its ordered
    children.  [id] is [None] when the attribute is not set, which is the
    state of every node right after [DictImporter.import_]. *)
Unset Elimination Schemes.
Inductive Node : Set :=
| mkNode (name : string) (id : option referent) (tag : string)
         (children : list Node).
Set Elimination Schemes.

Definition name (n : Node) : string :=
  match n with mkNode nm _ _ _ => nm end.
Definition id (n : Node) : option referent :=
  match n with mkNode _ i _ _ => i end.
Definition tag (n : Node) : string :=
  match n with mkNode _ _ t _ => t end.
Definition children (n : Node) : list Node :=
  match n with mkNode _ _ _ cs => cs end.

Definition set_name (nm : string) (n : Node) : Node :=
  mkNode nm (id n) (tag n) (children n).

(** A node of a tree is designated by the child indices that lead to it
    from the root. *)
Definition path : Set := list nat.

(** [PreOrderIter(n)]. *)
Fixpoint preorder (n : Node) : list Node :=
  match n with
  | mkNode _ _ _ cs => n :: flat_map preorder cs
  end.

(** [n.leaves]: the nodes without children, in pre-order. *)
Fixpoint leaves (n : Node) : list Node :=
  match n with
  | mkNode _ _ _ [] => [n]
  | mkNode _ _ _ cs => flat_map leaves cs
  end.

(** Pre-order traversal that also yields where each node sits. *)
Fixpoint walk (n : Node) : list (path * Node) :=
  match n with
  | mkNode _ _ _ cs =>
      ([], n) ::
      (fix go (i : nat) (l : list Node) : list (path * Node) :=
         match l with
         | [] => []
         | c :: l' =>
             map (fun pn => (i :: fst pn, snd pn)) (walk c) ++ go (S i) l'
         end) O cs
  end.

Fixpoint get (n : Node) (p : path) : option Node :=
  match p with
  | [] => Some n
  | i :: p' =>
      match nth_error (children n) i with
      | Some c => get c p'
      | None => None
      end
  end.

(** [anytree.search.find]: the node satisfying [filter_], [None] when
    there is none, [CountError] when there are several. *)
Definition find (filter_ : Node -> bool) (n : Node) : result (option path) :=
  match List.filter (fun pn => filter_ (snd pn)) (walk n) with
  | [] => Ok None
  | [pn] => Ok (Some (fst pn))
  | _ => Raise CountError
  end.

(** [find_by_attr(n, name='id', value=obj)]; a node without the
    attribute does not match. *)
Definition find_by_id (n : Node) (obj : referent) : result (option path) :=
  find (fun m => bool_decide (id m = Some obj)) n.

(** [find_by_attr(n, name='name', value=nm)]. *)
Definition find_by_name (n : Node) (nm : string) : result (option path) :=
  find (fun m => String.eqb (name m) nm) n.

(** Remove the [i]-th element of a list. *)
Fixpoint remove_nth {A} (i : nat) (l : list A) : list A :=
  match l, i with
  | [], _ => []
  | _ :: l', O => l'
  | a :: l', S i' => a :: remove_nth i' l'
  end.

(** Apply [f] to the [i]-th element of a list. *)
Fixpoint update_nth {A} (f : A -> A) (i : nat) (l : list A) : list A :=
  match l, i with
  | [], _ => []
  | a :: l', O => f a :: l'
  | a :: l', S i' => a :: update_nth f i' l'
  end.

(** [m.parent = None] for the node [m] at [p] of the tree rooted at [n]:
    the subtree at [p] leaves the tree.  The root has no parent, so for
    it the assignment changes nothing. *)
Fixpoint detach (n : Node) (p : path) : Node :=
  match p with
  | [] => n
  | [i] => mkNode (name n) (id n) (tag n) (remove_nth i (children n))
  | i :: p' =>
      mkNode (name n) (id n) (tag n)
             (update_nth (fun c => detach c p') i (children n))
  end.

(** A detached node [sub] becomes the last child of the node at [p]. *)
Fixpoint attach (n : Node) (p : path) (sub : Node) : Node :=
  match p with
  | [] => mkNode (name n) (id n) (tag n) (children n ++ [sub])
  | i :: p' =>
      mkNode (name n) (id n) (tag n)
             (update_nth (fun c => attach c p' sub) i (children n))
  end.

Fixpoint is_prefix (p q : path) : bool :=
  match p, q with
  | [], _ => true
  | i :: p', j :: q' => Nat.eqb i j && is_prefix p' q'
  | _ :: _, [] => false
  end.

(** Where the node at [q] sits once the subtree at [p] has left the
    tree ([p] is not a prefix of [q]). *)
Fixpoint shift (p q : path) : path :=
  match p, q with
  | [i], j :: q' => (if (i <? j)%nat then pred j else j) :: q'
  | i :: p', j :: q' => if Nat.eqb i j then j :: shift p' q' else q
  | _, _ => q
  end.

(** [x.parent = y] for the nodes at [px] and [py] of the tree rooted at
    [n]: [LoopError] when [y] is [x] or one of its descendants; nothing
    happens when [y] already is the parent of [x]; otherwise [x] leaves
    its parent and becomes the last child of [y]. *)
Definition set_parent (n : Node) (px py : path) : result Node :=
  if is_prefix px py then Raise LoopError
  else if bool_decide (removelast px = py) then Ok n
  else
    match get n px with
    | Some x => Ok (attach (detach n px) (shift px py) x)
    | None => Raise AttributeError
    end.

(** What [DictExporter] writes when only [name] and [tag] are kept. *)
Unset Elimination Schemes.
Inductive Dict : Set :=
| mkDict (d_name d_tag : string) (d_children : list Dict).
Set Elimination Schemes.

(** [DictExporter(attriter=...).export(n)]. *)
Fixpoint export (n : Node) : Dict :=
  match n with
  | mkNode nm _ tg cs => mkDict nm tg (map export cs)
  end.

(** [DictImporter().import_(d)]: nodes with the exported attributes
    only. *)
Fixpoint import_ (d : Dict) : Node :=
  match d with
  | mkDict nm tg cs => mkNode nm None tg (map import_ cs)
  end.

End anytree.

Export anytree.

(** ** The element classes *)

Module elements.

(** Modelled from the spec: the per-variant label template
    [label_format] of the element classes ([rayoptics/elem/elements.py],
    which is not among the sources).  Each template is a variant-specific
    prefix followed by the number it is formatted with. *)
Definition label_prefix (k : kind) : string :=
  match k with
  | Lens => "E"
  | CementedElement => "CE"
  | Mirror => "M"
  | ThinElement => "TL"
  | DummyInterface => "D"
  | AirGap => "AG"
  end.

Definition label_format (k : kind) (n : nat) : string :=
  label_prefix k +:+ pystr.str n.

(** Modelled from the spec: the constructors of the element classes.  A
    fresh object gets the next object id; the label is assigned by the
    caller right after construction, so the constructors take it. *)
Definition new_Element (oid : nat) (lbl : string)
  (s1 s2 : Interface) (g : Gap) (idx idx2 : nat) : Element :=
  mkElement oid Lens lbl [(idx, s1); (idx2, s2)] [(idx, g)].

(** [CementedElement(ifc_list)]: all interfaces of the list, and the
    gaps between them (the gap of the last entry lies outside). *)
Definition new_CementedElement (oid : nat) (lbl : string)
  (ifc_list : list (nat * Interface * Gap)) : Element :=
  mkElement oid CementedElement lbl
    (map (fun t => (fst (fst t), snd (fst t))) ifc_list)
    (map (fun t => (fst (fst t), snd t)) (removelast ifc_list)).

Definition new_Mirror (oid : nat) (lbl : string) (s : Interface) (idx : nat)
  : Element :=
  mkElement oid Mirror lbl [(idx, s)] [].

Definition new_ThinElement (oid : nat) (lbl : string) (s : Interface)
  (idx : nat) : Element :=
  mkElement oid ThinElement lbl [(idx, s)] [].

Definition new_DummyInterface (oid : nat) (lbl : string) (s : Interface)
  (idx : nat) : Element :=
  mkElement oid DummyInterface lbl [(idx, s)] [].

Definition new_AirGap (oid : nat) (lbl : string) (g : Gap) (idx : nat)
  : Element :=
  mkElement oid AirGap lbl [] [(idx, g)].

(** Modelled from the spec: [e.interface_list()], the ordered interfaces
    of an element. *)
Definition interface_list (e : Element) : list Interface :=
  map snd (e_ifcs e).

(** Modelled from the spec: [e.ref_ifc], the single reference interface
    of a dummy interface; other variants have no such attribute. *)
Definition ref_ifc (e : Element) : result Interface :=
  match e_kind e, e_ifcs e with
  | DummyInterface, (_, s) :: _ => Ok s
  | _, _ => Raise AttributeError
  end.

(** Modelled from the spec: [e.intrfc], the single interface of a thin
    element. *)
Definition intrfc (e : Element) : result Interface :=
  match e_kind e, e_ifcs e with
  | ThinElement, (_, s) :: _ => Ok s
  | _, _ => Raise AttributeError
  end.

Definition default_tag (k : kind) : string :=
  match k with
  | Lens => "#element#lens"
  | CementedElement => "#element#cemented"
  | Mirror => "#element#mirror"
  | ThinElement => "#element#thinlens"
  | DummyInterface => "#dummyifc"
  | AirGap => "#airgap"
  end.

Definition ifc_leaf (idx : nat) (s : Interface) : Node :=
  mkNode ("i" +:+ pystr.str idx) (Some (RIfc s)) "#ifc" [].

Definition gap_leaf (idx : nat) (g : Gap) : Node :=
  mkNode ("g" +:+ pystr.str idx) (Some (RGap g)) "#gap" [].

(** The children of a lens or cemented element: for the [k]-th interface
    a profile node [p<k>] holding the interface leaf, followed by the
    leaf of the gap behind it, if the element wraps one. *)
Fixpoint profile_children (k : nat) (ss : list (nat * Interface))
  (gs : list (nat * Gap)) : list Node :=
  match ss with
  | [] => []
  | (idx, s) :: ss' =>
      mkNode ("p" +:+ pystr.str k) (Some (RProfile (profile s))) "#profile"
             [ifc_leaf idx s]
      :: match gs with
         | (gidx, g) :: gs' =>
             gap_leaf gidx g :: profile_children (S k) ss' gs'
         | [] => profile_children (S k) ss' []
         end
  end.

(** Modelled from the spec: [e.tree(tag=tag)], the canonical subtree
    fragment of an element.  Its root references the element and carries
    the variant's tag followed by the extra [tag], if any; its leaves
    reference the raw interfaces and gaps the element wraps; profiles are
    named [p1..pN] (a plain [p] for a mirror), and a dummy interface or
    thin element has a single [di] or [tl] child. *)
Definition tree (e : Element) (tg : option string) : Node :=
  let t := default_tag (e_kind e) +:+ default "" tg in
  let r := Some (RElem e) in
  match e_kind e with
  | Lens => mkNode "E" r t (profile_children 1 (e_ifcs e) (e_gaps e))
  | CementedElement =>
      mkNode "CE" r t (profile_children 1 (e_ifcs e) (e_gaps e))
  | Mirror =>
      mkNode "M" r t
        (map (fun x => mkNode "p" (Some (RProfile (profile (snd x))))
                         "#profile" [ifc_leaf (fst x) (snd x)])
             (e_ifcs e))
  | ThinElement =>
      mkNode "TL" r t
        (map (fun x => mkNode "tl" (Some (RIfc (snd x))) "#ifc" [])
             (e_ifcs e))
  | DummyInterface =>
      mkNode "DI" r t
        (map (fun x => mkNode "di" (Some (RIfc (snd x))) "#ifc" [])
             (e_ifcs e))
  | AirGap =>
      mkNode "AG" r t (map (fun x => gap_leaf (fst x) (snd x)) (e_gaps e))
  end.

End elements.

(** ** [rayoptics/elem/parttree.py] *)

Module parttree.

Import elements.

(** [PartTree.__init__]: the root node references the part tree. *)
Definition new_root : Node := mkNode "root" (Some RTree) "#group#root" [].

(** [PartTree.__json_encode__]: the exported tree. *)
Definition json_encode (root_node : Node) : Dict := export root_node.

(** [PartTree.init_from_sequence]. *)
Definition init_from_sequence (root_node : Node) (seq_model : SequentialModel)
  : result Node :=
  foldM (fun root (x : nat * Interface) =>
           let '(i, s) := x in
           let root :=
             attach root [] (mkNode ("i" +:+ pystr.str i) (Some (RIfc s))
                                    "#ifc" []) in
           gap ← pylist.index (gaps seq_model) (Z.of_nat i);
           Ok (attach root [] (mkNode ("g" +:+ pystr.str i) (Some (RGap gap))
                                      "#gap" [])))
        (pylist.enumerate 1 (pylist.inner (ifcs seq_model))) root_node.

(** [PartTree.node]. *)
Definition node (root_node : Node) (obj : referent) : result (option path) :=
  find_by_id root_node obj.

(** Lines 66 to 72 of [PartTree.add_element_to_tree], for the fragment
    [e_node]: every node of the tree that references the object of a leaf
    of the fragment is detached, then the fragment becomes the last child
    of the root. *)
Definition add_fragment_to_tree (root_node : Node) (e_node : Node)
  : result Node :=
  root ← foldM (fun root leaf_node =>
                  obj ← of_option AttributeError (id leaf_node);
                  dup_node ← node root obj;
                  Ok match dup_node with
                     | Some p => detach root p
                     | None => root
                     end)
               (leaves e_node) root_node;
  Ok (attach root [] e_node).

(** [PartTree.add_element_to_tree]; the node it returns is the last child
    of the root of the tree it leaves behind. *)
Definition add_element_to_tree (root_node : Node) (e : Element)
  (tg : option string) : result Node :=
  let e_node := elements.tree e tg in
  let e_node := set_name (label e) e_node in
  add_fragment_to_tree root_node e_node.

(** [PartTree.add_element_model_to_tree]; every element class has a
    [tree] method. *)
Definition add_element_model_to_tree (root_node : Node)
  (ele_elements : list Element) : result Node :=
  foldM (fun root e => add_element_to_tree root e None)
        ele_elements root_node.

(** [for t in tags: if t in node.tag]. *)
Definition tag_matches (tags : list string) (n : Node) : bool :=
  existsb (fun t => pystr.contains t (tag n)) tags.

(** The ancestors of the node at [p], nearest first. *)
Definition ancestors (p : path) : list path :=
  map (fun k => firstn k p) (rev (seq 0 (length p))).

(** The [while] loop of [parent_node] over the ancestors still to
    visit. *)
Fixpoint climb (root_node : Node) (tags : list string) (ps : list path)
  : option path :=
  match ps with
  | [] => None
  | p :: ps' =>
      match get root_node p with
      | Some n => if tag_matches tags n then Some p
                  else climb root_node tags ps'
      | None => None
      end
  end.

(** [PartTree.parent_node]. *)
Definition parent_node (root_node : Node) (obj : referent) (tg : string)
  : result (option path) :=
  let tags := tl (pystr.split "#" tg) in
  leaf_node ← node root_node obj;
  Ok match leaf_node with
     | Some p => climb root_node tags (ancestors p)
     | None => None
     end.

Definition default_filter : string := "#element#airgap#dummyifc".

(** [PartTree.parent_object]. *)
Definition parent_object (root_node : Node) (obj : referent) (tg : string)
  : result (option referent) :=
  parent_node ← parent_node root_node obj tg;
  match parent_node with
  | Some p =>
      match get root_node p with
      | Some n => r ← of_option AttributeError (id n); Ok (Some r)
      | None => Raise AttributeError
      end
  | None => Ok None
  end.

(** [PartTree.nodes_with_tag]. *)
Definition nodes_with_tag (root_node : Node) (tg : string) : list Node :=
  let tags := tl (pystr.split "#" tg) in
  List.filter (tag_matches tags) (preorder root_node).

(** [{e.label: e for e in ele_model.elements}], read at a key: a later
    element replaces an earlier one with the same label. *)
Definition ele_dict (ele_elements : list Element) (key : string)
  : option Element :=
  List.find (fun e => String.eqb (label e) key) (rev ele_elements).

(** What one iteration of the loop of [sync_part_tree_on_restore] leaves
    in [node.id]; [p_name] is [node.parent.name]. *)
Definition restore_id (ele_elements : list Element)
  (seq_model : SequentialModel) (p_name : option string) (n : Node)
  : result (option referent) :=
  let name := name n in
  match ele_dict ele_elements name with
  | Some e => Ok (Some (RElem e))
  | None =>
      c ← pystr.first name;
      if Ascii.eqb c "i" then
        idx ← pystr.int (pystr.from1 name);
        s ← pylist.index (ifcs seq_model) idx;
        Ok (Some (RIfc s))
      else if Ascii.eqb c "g" then
        idx ← pystr.int (pystr.from1 name);
        g ← pylist.index (gaps seq_model) idx;
        Ok (Some (RGap g))
      else if Ascii.eqb c "p" then
        p_name ← of_option AttributeError p_name;
        e ← of_option KeyError (ele_dict ele_elements p_name);
        idx ← pystr.int (pystr.from1 name);
        s ← pylist.index (interface_list e) (idx - 1);
        Ok (Some (RProfile (profile s)))
      else if String.eqb (pystr.upto1 name) "di" then
        p_name ← of_option AttributeError p_name;
        e ← of_option KeyError (ele_dict ele_elements p_name);
        s ← ref_ifc e;
        Ok (Some (RIfc s))
      else if String.eqb (pystr.upto1 name) "tl" then
        p_name ← of_option AttributeError p_name;
        e ← of_option KeyError (ele_dict ele_elements p_name);
        s ← intrfc e;
        Ok (Some (RIfc s))
      else Ok (id n)
  end.

Fixpoint restore_from (ele_elements : list Element)
  (seq_model : SequentialModel) (p_name : option string) (n : Node)
  : result Node :=
  match n with
  | mkNode nm _ tg cs =>
      i ← restore_id ele_elements seq_model p_name n;
      cs' ← mapM (restore_from ele_elements seq_model (Some nm)) cs;
      Ok (mkNode nm i tg cs')
  end.

(** [sync_part_tree_on_restore]. *)
Definition sync_part_tree_on_restore (ele_elements : list Element)
  (seq_model : SequentialModel) (root_node : Node) : result Node :=
  restore_from ele_elements seq_model None root_node.

(** [PartTree.sync_to_restore], for the exported tree that was read
    back. *)
Definition sync_to_restore (ele_elements : list Element)
  (seq_model : SequentialModel) (root_node_compressed : Dict) : result Node :=
  sync_part_tree_on_restore ele_elements seq_model
                            (import_ root_node_compressed).

(** [seq_model.ifcs.index(obj)] and [seq_model.gaps.index(obj)]. *)
Definition ifcs_index (seq_model : SequentialModel) (obj : referent)
  : result nat :=
  pylist.index_of (fun s r => bool_decide (RIfc s = r)) (ifcs seq_model) obj.

Definition gaps_index (seq_model : SequentialModel) (obj : referent)
  : result nat :=
  pylist.index_of (fun g r => bool_decide (RGap g = r)) (gaps seq_model) obj.

(** What one iteration of the loop of [sync_part_tree_on_update] leaves
    in [node.name] and [node.id]; [p_name] is [node.parent.name] at that
    moment. *)
Definition update_name_id (ele_elements : list Element)
  (seq_model : SequentialModel) (p_name : option string) (n : Node)
  : result (string * option referent) :=
  let name := name n in
  c ← pystr.first name;
  if Ascii.eqb c "i" then
    obj ← of_option AttributeError (id n);
    idx ← ifcs_index seq_model obj;
    Ok ("i" +:+ pystr.str idx, id n)
  else if Ascii.eqb c "g" then
    obj ← of_option AttributeError (id n);
    idx ← gaps_index seq_model obj;
    Ok ("g" +:+ pystr.str idx, id n)
  else if Ascii.eqb c "p" then
    p_name ← of_option AttributeError p_name;
    e ← of_option KeyError (ele_dict ele_elements p_name);
    idx ← (if (1 <? String.length name)%nat
           then k ← pystr.int (pystr.from1 name); Ok (k - 1)%Z
           else Ok 0%Z);
    s ← pylist.index (interface_list e) idx;
    Ok (name, Some (RProfile (profile s)))
  else if String.eqb (pystr.upto2 name) "di" then
    p_name ← of_option AttributeError p_name;
    e ← of_option KeyError (ele_dict ele_elements p_name);
    s ← ref_ifc e;
    idx ← ifcs_index seq_model (RIfc s);
    Ok ("di" +:+ pystr.str idx, Some (RIfc s))
  else if String.eqb (pystr.upto2 name) "tl" then
    p_name ← of_option AttributeError p_name;
    e ← of_option KeyError (ele_dict ele_elements p_name);
    s ← intrfc e;
    idx ← ifcs_index seq_model (RIfc s);
    Ok ("tl" +:+ pystr.str idx, Some (RIfc s))
  else
    obj ← of_option AttributeError (id n);
    match label_of obj with
    | Some l => Ok (l, id n)
    | None => Ok (name, id n)
    end.

Fixpoint update_from (ele_elements : list Element)
  (seq_model : SequentialModel) (p_name : option string) (n : Node)
  : result Node :=
  match n with
  | mkNode _ _ tg cs =>
      x ← update_name_id ele_elements seq_model p_name n;
      cs' ← mapM (update_from ele_elements seq_model (Some (fst x))) cs;
      Ok (mkNode (fst x) (snd x) tg cs')
  end.

(** [sync_part_tree_on_update]. *)
Definition sync_part_tree_on_update (ele_elements : list Element)
  (seq_model : SequentialModel) (root_node : Node) : result Node :=
  update_from ele_elements seq_model None root_node.

(** *** The grouping engine *)

(** What a run of the grouping engine changes: the tree of the part
    tree, [ele_model.elements], and the id the next object gets. *)
Record Model : Set := mkModel {
  root_node : Node;
  ele_elements : list Element;
  next_oid : nat
}.

(** [part_tree.add_element_to_tree(e, tag=tg)] followed by
    [ele_model.add_element(e)] for the element [e] just constructed. *)
Definition emit (m : Model) (e : Element) (tg : option string)
  : result Model :=
  root ← add_element_to_tree (root_node m) e tg;
  Ok (mkModel root (ele_elements m ++ [e]) (S (next_oid m))).

Definition is_air (g : Gap) : bool :=
  String.eqb (pystr.lower (medium_name g)) "air".

(** [process_airgap]; the surface diameter and the transform are
    numeric payload of the constructors and are left out. *)
Definition process_airgap (seq_model : SequentialModel) (m : Model)
  (i : nat) (g : Gap) (s : Interface) (num_ele : nat) (add_ele : bool)
  : result (Model * nat) :=
  x ← (if String.eqb (interact_mode s) "reflect" && add_ele then
         _ ← pylist.index (z_dir seq_model) (Z.of_nat i);
         let num_ele := S num_ele in
         let mir := new_Mirror (next_oid m) (label_format Mirror num_ele)
                               s i in
         m ← emit m mir None;
         Ok (m, num_ele)
       else if is_thinlens s && add_ele then
         let num_ele := S num_ele in
         let te := new_ThinElement (next_oid m)
                                   (label_format ThinElement num_ele) s i in
         m ← emit m te None;
         Ok (m, num_ele)
       else if String.eqb (interact_mode s) "transmit" then
         d ← (if (i =? 0)%nat then
                Ok (true, "Object", Some "#object")
              else
                gp ← pylist.index (gaps seq_model) (Z.of_nat i - 1);
                if is_air gp then
                  if bool_decide (stop_surface seq_model = Some i) then
                    Ok (true, "Stop", Some "#stop")
                  else
                    Ok (true, label_format DummyInterface i, None)
                else Ok (false, "", None));
         let '(add_dummy, dummy_label, dummy_tag) := d in
         if add_dummy : bool then
           let di := new_DummyInterface (next_oid m) dummy_label s i in
           m ← emit m di dummy_tag;
           Ok (m, num_ele)
         else Ok (m, num_ele)
       else Ok (m, num_ele));
  let '(m, num_ele) := x in
  let ag := new_AirGap (next_oid m) (label_format AirGap i) g i in
  m ← emit m ag None;
  Ok (m, num_ele).

(** Modelled from the spec: [seq_model.path()], one entry per surface
    with the gap that follows it, absent at the final surface (the
    refractive index, transform and direction of an entry are not
    read). *)
Fixpoint path_of (ss : list Interface) (gs : list Gap)
  : list (Interface * option Gap) :=
  match ss with
  | [] => []
  | s :: ss' => (s, head gs) :: path_of ss' (tail gs)
  end.

Definition seq_path (seq_model : SequentialModel)
  : list (Interface * option Gap) :=
  path_of (ifcs seq_model) (gaps seq_model).

(** An entry [(i, ifc, g, g_tfrm)] of [eles], without the transform. *)
Definition entry : Set := (nat * Interface * Gap)%type.

(** The node [add_element_to_tree] returned: nothing is attached to the
    root between that call and the uses of [e_node], so it still is the
    last child of the root. *)
Definition e_path (root : Node) : path := [pred (length (children root))].

(** [find_by_attr(e_node, name='name', value=nm)]. *)
Definition find_in_e_node (root : Node) (nm : string)
  : result (option path) :=
  e_node ← of_option AttributeError (get root (e_path root));
  r ← find_by_name e_node nm;
  Ok (option_map (app (e_path root)) r).

(** [x.parent = y] where [x] and [y] are results of a search: [x] may be
    [None], which has no attribute to assign; [y] may be [None], which
    detaches [x]. *)
Definition assign_parent (root : Node) (x y : option path) : result Node :=
  match x with
  | None => Raise AttributeError
  | Some px =>
      match y with
      | Some py => set_parent root px py
      | None => Ok (detach root px)
      end
  end.

(** The branch [num_eles == 1] of [elements_from_sequence]. *)
Definition lens_branch (m : Model) (num_elements : nat)
  (buried_reflector : bool) (eles : list entry) (cur : entry)
  : result (Model * nat * entry) :=
  let '(i, ifc, g) := cur in
  x ← pylist.index eles 0;
  let '(i1, s1, g1) := x in
  let num_elements := S num_elements in
  let e := new_Element (next_oid m) (label_format Lens num_elements)
                       s1 ifc g1 i1 i in
  m ← emit m e None;
  if buried_reflector then
    y ← pylist.index eles (-1);
    let ifc2 := snd (fst y) in
    let root := root_node m in
    ifc_node ← node root (RIfc ifc2);
    p_node ← find_in_e_node root "p1";
    root ← assign_parent root ifc_node p_node;
    g_node ← node root (RGap g);
    root ← assign_parent root g_node (Some (e_path root));
    g1_node ← node root (RGap g1);
    root ← assign_parent root g1_node (Some (e_path root));
    Ok (mkModel root (ele_elements m) (next_oid m), num_elements, y)
  else Ok (m, num_elements, cur).

(** The branch [num_eles > 1] of [elements_from_sequence]. *)
Definition cemented_branch (m : Model) (num_elements : nat)
  (buried_reflector : bool) (num_eles : nat) (eles : list entry)
  (cur : entry) : result (Model * nat * list entry * entry) :=
  let eles := if buried_reflector then eles else eles ++ [cur] in
  let e_list := pylist.upto (num_eles + 1) eles in
  let num_elements := S num_elements in
  let e := new_CementedElement (next_oid m)
             (label_format CementedElement num_elements) e_list in
  m ← emit m e None;
  root ← (if buried_reflector then
            foldM (fun root (x : nat * Z) =>
                     let '(i, j) := x in
                     y ← pylist.index eles j;
                     let ifc := snd (fst y) in
                     ifc_node ← node root (RIfc ifc);
                     let pid := "p" +:+ pystr.str i in
                     p_node ← find_in_e_node root pid;
                     root ← assign_parent root ifc_node p_node;
                     z ← pylist.index eles (j - 1);
                     let g := snd z in
                     g_node ← node root (RGap g);
                     match g_node with
                     | Some pg => set_parent root pg (e_path root)
                     | None => Ok root
                     end)
                  (pylist.enumerate 1
                     (map (fun k => (- Z.of_nat k)%Z) (seq 1 num_eles)))
                  (root_node m)
          else Ok (root_node m));
  last ← pylist.index eles (-1);
  Ok (mkModel root (ele_elements m) (next_oid m), num_elements, eles, last).

(** The state the loop of [elements_from_sequence] carries from one
    path entry to the next. *)
Record Loop : Set := mkLoop {
  l_model : Model;
  num_elements : nat;
  buried_reflector : bool;
  eles : list entry
}.

(** One iteration of the loop of [elements_from_sequence].  The global
    transforms [g_tfrms] and the surface diameters are numeric payload of
    the element constructors; no branch reads them and they are left
    out. *)
Definition loop_body (seq_model : SequentialModel) (st : Loop)
  (x : nat * (Interface * option Gap)) : result Loop :=
  let '(i, (ifc, og)) := x in
  match og with
  | None => Ok st
  | Some g =>
      if is_air g then
        let num_eles := length (eles st) in
        if (num_eles =? 0)%nat then
          if (0 <? i)%nat then
            r ← process_airgap seq_model (l_model st) i g ifc
                               (num_elements st) true;
            Ok (mkLoop (fst r) (snd r) (buried_reflector st) (eles st))
          else Ok st
        else
          let b := buried_reflector st in
          let num_eles := if b then (num_eles / 2)%nat else num_eles in
          let eles := if b then eles st ++ [(i, ifc, g)] else eles st in
          cur ← (if b then pylist.index eles 1 else Ok (i, ifc, g));
          r ← (if (num_eles =? 1)%nat then
                 r ← lens_branch (l_model st) (num_elements st) b eles cur;
                 Ok (r, eles)
               else if (1 <? num_eles)%nat then
                 r ← cemented_branch (l_model st) (num_elements st) b
                                     num_eles eles cur;
                 let '(m, n, eles, cur) := r in
                 Ok (m, n, cur, eles)
               else Ok (l_model st, num_elements st, cur, eles));
          let '(m, n, (i, ifc, g), _) := r in
          let ag := new_AirGap (next_oid m) (label_format AirGap i) g i in
          m ← emit m ag None;
          Ok (mkLoop m n false [])
      else
        let b := if String.eqb (interact_mode ifc) "reflect" then true
                 else buried_reflector st in
        Ok (mkLoop (l_model st) (num_elements st) b
                   (eles st ++ [(i, ifc, g)]))
  end.

(** [elements_from_sequence]. *)
Definition elements_from_sequence (seq_model : SequentialModel) (m : Model)
  : result Model :=
  root ← (if (length (children (root_node m)) =? 0)%nat
          then init_from_sequence (root_node m) seq_model
          else Ok (root_node m));
  let m := mkModel root (ele_elements m) (next_oid m) in
  st ← foldM (loop_body seq_model)
             (pylist.enumerate 0 (seq_path seq_model))
             (mkLoop m 0 false []);
  Ok (l_model st).

End parttree.

(** * Vocabulary of the statements and concrete inputs *)

(** What the loop of [max_field] has established after the fields
    [pre], when it holds [(m, idx)]. *)
Definition loop_inv (pre : list optical.Field) (st : float * option nat) : Prop :=
  (forall f, In f pre -> (fst st <? optical.fld_sqrd f)%float = false) /\
  match snd st with
  | Some i => exists f, nth_error pre i = Some f /\ optical.fld_sqrd f = fst st
  | None => fst st = 0%float
  end.

(** A string made of decimal digits only. *)
Definition all_digits (s : string) : Prop :=
  forall c, In c (list_ascii_of_string s) -> pystr.is_digit c = true.

(** The two nodes [init_from_sequence] creates for the interior surface
    [i]: one for the surface, one for the gap behind it. *)
Definition interior_pair (seq_model : SequentialModel) (i : nat)
  : list Node :=
  match nth_error (ifcs seq_model) i, nth_error (gaps seq_model) i with
  | Some s, Some g =>
      [mkNode ("i" +:+ pystr.str i) (Some (RIfc s)) "#ifc" [];
       mkNode ("g" +:+ pystr.str i) (Some (RGap g)) "#gap" []]
  | _, _ => []
  end.

(** The nodes for the surfaces [1 .. n-2] of a sequence of [n] surfaces,
    in sequence order. *)
Definition interior_nodes (seq_model : SequentialModel) : list Node :=
  flat_map (interior_pair seq_model)
           (seq 1 (length (ifcs seq_model) - 2)).

(** The claim as the specification words it: one child [i<idx>] per
    surface and one child [g<idx>] per gap. *)
Definition node_per_surface_and_gap (seq_model : SequentialModel)
  (root : Node) : Prop :=
  (forall k, (k < length (ifcs seq_model))%nat ->
             In ("i" +:+ pystr.str k) (map name (children root))) /\
  (forall k, (k < length (gaps seq_model))%nat ->
             In ("g" +:+ pystr.str k) (map name (children root))).

Module ex.

(** Object plane, air, surface A, glass, surface B, air, image plane. *)
Definition s_obj : Interface := mkInterface 0 "transmit" false 100.
Definition s_A : Interface := mkInterface 1 "transmit" false 101.
Definition s_B : Interface := mkInterface 2 "transmit" false 102.
Definition s_img : Interface := mkInterface 3 "transmit" false 103.
Definition g_0 : Gap := mkGap 10 "air".
Definition g_1 : Gap := mkGap 11 "N-BK7".
Definition g_2 : Gap := mkGap 12 "air".

Definition singlet : SequentialModel :=
  mkSeq [s_obj; s_A; s_B; s_img] [g_0; g_1; g_2] [1; 1; 1; 1]%Z (Some 1%nat).

(** The model before the first run of the grouping engine. *)
Definition empty_model : parttree.Model :=
  parttree.mkModel parttree.new_root [] 0.

(** What a value-returning run leaves behind; the empty model stands
    for a run that raised. *)
Definition outcome (r : result parttree.Model) : parttree.Model :=
  match r with
  | Ok m => m
  | Raise _ => empty_model
  end.

(** The model after grouping the singlet. *)
Definition singlet_model : parttree.Model :=
  Eval vm_compute in
    outcome (parttree.elements_from_sequence singlet empty_model).

(** The tree of the singlet before grouping, and its lens. *)
Definition singlet_init : Node :=
  Eval vm_compute in
    match parttree.init_from_sequence parttree.new_root singlet with
    | Ok t => t
    | Raise _ => parttree.new_root
    end.
Definition lens_E1 : Element :=
  elements.new_Element 0 "E1" s_A s_B g_1 1 2.

(** The tree after grouping the singlet and attaching the elements of
    the catalog once more. *)
Definition reattached : Node :=
  Eval vm_compute in
    match parttree.add_element_model_to_tree
            (parttree.root_node singlet_model)
            (parttree.ele_elements singlet_model) with
    | Ok t => t
    | Raise _ => parttree.new_root
    end.

(** Surfaces and gaps by position, for longer sequences. *)
Definition plane (n : nat) : Interface :=
  mkInterface n "transmit" false (100 + n).
Definition mirror (n : nat) : Interface :=
  mkInterface n "reflect" false (100 + n).
Definition thin (n : nat) : Interface :=
  mkInterface n "transmit" true (100 + n).
Definition air (n : nat) : Gap := mkGap (10 + n) "air".
Definition glass (n : nat) : Gap := mkGap (10 + n) "N-BK7".

(** Object, lens (1, 2), plane 3, lens (4, 5), mirror 6, plane 7,
    image. *)
Definition train : SequentialModel :=
  mkSeq [plane 0; plane 1; plane 2; plane 3; plane 4; plane 5; mirror 6;
         plane 7; plane 8]
        [air 0; glass 1; air 2; air 3; glass 4; air 5; air 6; air 7]
        [1; 1; 1; 1; 1; 1; 1; 1; 1]%Z None.

(** Object, thin lens 1, plane 2, image, all in air. *)
Definition planes : SequentialModel :=
  mkSeq [plane 0; thin 1; plane 2; plane 3] [air 0; air 1; air 2]
        [1; 1; 1; 1]%Z None.

(** The model after grouping [planes]. *)
Definition planes_model : parttree.Model :=
  Eval vm_compute in
    outcome (parttree.elements_from_sequence planes empty_model).

(** The model after grouping [train]. *)
Definition train_model : parttree.Model :=
  Eval vm_compute in
    outcome (parttree.elements_from_sequence train empty_model).

(** [planes] with the stop at plane 2, its tree before grouping, and
    what the airgap classifier makes of plane 2. *)
Definition aperture : SequentialModel :=
  mkSeq [plane 0; thin 1; plane 2; plane 3] [air 0; air 1; air 2]
        [1; 1; 1; 1]%Z (Some 2%nat).
Definition aperture_init : parttree.Model :=
  Eval vm_compute in
    match parttree.init_from_sequence parttree.new_root aperture with
    | Ok t => parttree.mkModel t [] 0
    | Raise _ => empty_model
    end.
Definition aperture_stop : parttree.Model :=
  Eval vm_compute in
    match parttree.process_airgap aperture aperture_init 2 (air 2) (plane 2)
                                  0 true with
    | Ok r => fst r
    | Raise _ => empty_model
    end.

(** The singlet after grouping, once the user has renamed the lens
    [E1] to [prism]: the node still carries the old name. *)
Definition prism_lens : Element :=
  mkElement 0 Lens "prism" [(1%nat, s_A); (2%nat, s_B)] [(1%nat, g_1)].
Definition gap_part : Element :=
  mkElement 1 AirGap "AG2" [] [(2%nat, g_2)].
Definition prism_catalog : list Element := [prism_lens; gap_part].
Definition prism_tree : Node :=
  mkNode "root" (Some RTree) "#group#root"
    [mkNode "E1" (Some (RElem prism_lens)) "#element#lens"
       [mkNode "p1" (Some (RProfile 101)) "#profile"
          [mkNode "i1" (Some (RIfc s_A)) "#ifc" []];
        mkNode "g1" (Some (RGap g_1)) "#gap" [];
        mkNode "p2" (Some (RProfile 102)) "#profile"
          [mkNode "i2" (Some (RIfc s_B)) "#ifc" []]];
     mkNode "AG2" (Some (RElem gap_part)) "#airgap"
       [mkNode "g2" (Some (RGap g_2)) "#gap" []]].

(** The dummy plane 2 of [planes] and the air gap behind it, once the
    user has renamed them to [root] and [dial]. *)
Definition root_dummy : Element :=
  mkElement 2 DummyInterface "root" [(2%nat, plane 2)] [].
Definition dial_gap : Element :=
  mkElement 3 AirGap "dial" [] [(2%nat, air 2)].
Definition dial_catalog : list Element := [root_dummy; dial_gap].
Definition dial_tree : Node :=
  mkNode "root" (Some RTree) "#group#root"
    [mkNode "D2" (Some (RElem root_dummy)) "#dummyifc"
       [mkNode "di" (Some (RIfc (plane 2))) "#ifc" []];
     mkNode "AG2" (Some (RElem dial_gap)) "#airgap"
       [mkNode "g2" (Some (RGap (air 2))) "#gap" []]].

End ex.

(** The elements of one variant, and their number. *)
Definition of_kind (k : kind) (els : list Element) : list Element :=
  List.filter (fun e => bool_decide (e_kind e = k)) els.

Definition count_kind (k : kind) (els : list Element) : nat :=
  length (of_kind k els).

(** The outcome of the singlet scenario as the specification words it:
    one lens, two air gaps, two dummy interfaces. *)
Definition singlet_parts_as_stated (m : parttree.Model) : Prop :=
  count_kind Lens (parttree.ele_elements m) = 1%nat /\
  count_kind AirGap (parttree.ele_elements m) = 2%nat /\
  count_kind DummyInterface (parttree.ele_elements m) = 2%nat.

(** The variants that the specification calls physical elements. *)
Definition physical (e : Element) : bool :=
  match e_kind e with
  | Lens | CementedElement | Mirror | ThinElement => true
  | DummyInterface | AirGap => false
  end.

(** An air gap labelled with the index of the surface in front of it; a
    dummy interface labelled [Object], [Stop] or with the index of its
    surface. *)
Definition labelled_by_index (e : Element) : Prop :=
  match e_kind e with
  | AirGap =>
      exists i g, e_gaps e = [(i, g)] /\
                  label e = elements.label_format AirGap i
  | DummyInterface =>
      exists i s, e_ifcs e = [(i, s)] /\
                  (label e = "Object" \/ label e = "Stop" \/
                   label e = elements.label_format DummyInterface i)
  | _ => True
  end.

(** The same with the sequence in sight: an air gap wraps the gap
    behind a surface of the sequence, and nothing else, and is labelled
    with the index they have in the sequence; a dummy interface wraps a
    surface of the sequence, and nothing else, and is labelled [Object],
    [Stop] or with the index of that surface in the sequence. *)
Definition labelled_in_sequence (seq_model : SequentialModel)
  (e : Element) : Prop :=
  match e_kind e with
  | AirGap =>
      exists i s g,
        nth_error (ifcs seq_model) i = Some s /\
        nth_error (gaps seq_model) i = Some g /\
        e_ifcs e = [] /\ e_gaps e = [(i, g)] /\
        label e = elements.label_format AirGap i
  | DummyInterface =>
      exists i s,
        nth_error (ifcs seq_model) i = Some s /\
        e_ifcs e = [(i, s)] /\ e_gaps e = [] /\
        (label e = "Object" \/ label e = "Stop" \/
         label e = elements.label_format DummyInterface i)
  | _ => True
  end.

(** The elements [els], in the order they were emitted, when the shared
    counter stood at [n] before the first of them: every physical element
    takes the next number, every other element is labelled by index. *)
Fixpoint numbered (n : nat) (els : list Element) : Prop :=
  match els with
  | [] => True
  | e :: els' =>
      if physical e
      then label e = elements.label_format (e_kind e) (S n) /\
           numbered (S n) els'
      else labelled_by_index e /\ numbered n els'
  end.

Definition count_physical (els : list Element) : nat :=
  length (List.filter physical els).

(** A variant that numbers its labels with a running counter of its
    own, whatever its first value. *)
Definition own_counter (k : kind) (els : list Element) : Prop :=
  exists start,
    map label (of_kind k els)
    = map (elements.label_format k) (seq start (count_kind k els)).

(** The round trip as the specification words it: the restored tree is
    the tree that was serialized, referents included. *)
Definition roundtrip_identical (els : list Element)
  (seq_model : SequentialModel) (t : Node) : Prop :=
  parttree.sync_to_restore els seq_model (parttree.json_encode t) = Ok t.

(** The places of the nodes of [t] whose referent is another one, or
    none, at the same place of [t'], a tree of the same shape. *)
Definition referents_changed (t t' : Node) : list path :=
  map (fun pq => fst (fst pq))
      (List.filter
         (fun pq => negb (bool_decide (id (snd (fst pq)) = id (snd (snd pq)))))
         (combine (walk t) (walk t'))).

(** The names of a tree, in pre-order. *)
Definition names (t : Node) : list string := map name (preorder t).

(** Update idempotence as the specification words it. *)
Definition update_idempotent (els : list Element)
  (seq_model : SequentialModel) (t : Node) : Prop :=
  forall t1,
    parttree.sync_part_tree_on_update els seq_model t = Ok t1 ->
    exists t2,
      parttree.sync_part_tree_on_update els seq_model t1 = Ok t2 /\
      names t2 = names t1.

(** The name schema of the restore direction, in the words of the
    specification: a catalog label denotes that element; [i<k>] and
    [g<k>] denote the [k]-th interface and gap of the sequence model;
    [p<k>] denotes the profile of the [(k-1)]-th interface of the parent
    element.  A label takes precedence over the prefixes. *)
Inductive follows_schema (els : list Element) (seq_model : SequentialModel)
  (p_name : option string) : string -> referent -> Prop :=
| schema_label nm e :
    parttree.ele_dict els nm = Some e ->
    follows_schema els seq_model p_name nm (RElem e)
| schema_ifc k s :
    parttree.ele_dict els ("i" +:+ pystr.str k) = None ->
    nth_error (ifcs seq_model) k = Some s ->
    follows_schema els seq_model p_name ("i" +:+ pystr.str k) (RIfc s)
| schema_gap k g :
    parttree.ele_dict els ("g" +:+ pystr.str k) = None ->
    nth_error (gaps seq_model) k = Some g ->
    follows_schema els seq_model p_name ("g" +:+ pystr.str k) (RGap g)
| schema_profile k pn e s :
    parttree.ele_dict els ("p" +:+ pystr.str (S k)) = None ->
    p_name = Some pn ->
    parttree.ele_dict els pn = Some e ->
    nth_error (elements.interface_list e) k = Some s ->
    follows_schema els seq_model p_name ("p" +:+ pystr.str (S k))
                   (RProfile (profile s)).

(** A name outside the schema of the raw referents: not a catalog
    label, and not beginning with [i], [g] or [p]. *)
Definition outside_schema (els : list Element) (nm : string) : Prop :=
  parttree.ele_dict els nm = None /\
  exists c s, nm = String c s /\ c <> "i"%char /\ c <> "g"%char /\
              c <> "p"%char.

(** [t'] has the names, tags and shape of [t], and the referent of [t]
    at every node of [t] whose name follows the schema; the other nodes
    of [t] have names outside the schema, and nothing is said about their
    referents in [t']. *)
Unset Elimination Schemes.
Inductive agree_on_schema (els : list Element) (seq_model : SequentialModel)
  (p_name : option string) : Node -> Node -> Prop :=
| agree_schema nm r tg cs cs' :
    follows_schema els seq_model p_name nm r ->
    Forall2 (agree_on_schema els seq_model (Some nm)) cs cs' ->
    agree_on_schema els seq_model p_name
                    (mkNode nm (Some r) tg cs) (mkNode nm (Some r) tg cs')
| agree_outside nm i i' tg cs cs' :
    outside_schema els nm ->
    Forall2 (agree_on_schema els seq_model (Some nm)) cs cs' ->
    agree_on_schema els seq_model p_name
                    (mkNode nm i tg cs) (mkNode nm i' tg cs').
Set Elimination Schemes.

(** A label that the update direction does not mistake for the name of
    a raw referent: not empty, not beginning with [i], [g] or [p], nor
    with [di] or [tl]. *)
Definition plain (l : string) : bool :=
  match l with
  | EmptyString => false
  | String c _ =>
      negb (Ascii.eqb c "i") && negb (Ascii.eqb c "g") &&
      negb (Ascii.eqb c "p") && negb (String.eqb (pystr.upto2 l) "di") &&
      negb (String.eqb (pystr.upto2 l) "tl")
  end.

(** Every element that a node of [t] references has a plain label. *)
Definition plain_labels (t : Node) : Prop :=
  forall m e, In m (preorder t) -> id m = Some (RElem e) ->
              plain (label e) = true.

(** The values of a list of optional values. *)
Fixpoint somes {A} (l : list (option A)) : list A :=
  match l with
  | [] => []
  | Some a :: l' => a :: somes l'
  | None :: l' => somes l'
  end.

(** The [id] attributes of a tree in pre-order, and those below its
    root. *)
Definition ids (t : Node) : list (option referent) := map id (preorder t).
Definition kids_ids (t : Node) : list (option referent) :=
  flat_map ids (children t).

(** The objects that the nodes, and the leaves, of a tree reference. *)
Definition tree_referents (t : Node) : list referent := somes (ids t).
Definition leaf_referents (t : Node) : list referent :=
  somes (map id (leaves t)).

(** Each referent appears as a leaf at most once. *)
Definition leaves_unique (t : Node) : Prop := NoDup (leaf_referents t).

(** No two nodes reference the same object. *)
Definition referents_unique (t : Node) : Prop := NoDup (tree_referents t).

(** Whether the gap in front of surface [i] is air; the first surface
    has no gap in front of it. *)
Definition prev_gap_is_air (seq_model : SequentialModel) (i : nat) : bool :=
  match i with
  | O => false
  | S j =>
      match nth_error (gaps seq_model) j with
      | Some gp => parttree.is_air gp
      | None => false
      end
  end.

(** The surfaces for which the airgap classifier emits a dummy interface,
    and the tag of its node, in the words of the specification. *)
Definition dummy_is_emitted (seq_model : SequentialModel) (i : nat) : bool :=
  (i =? 0)%nat || prev_gap_is_air seq_model i.

Definition expected_dummy_tag (seq_model : SequentialModel) (i : nat)
  : string :=
  "#dummyifc" +:+
  (if (i =? 0)%nat then "#object"
   else if bool_decide (stop_surface seq_model = Some i)
           && prev_gap_is_air seq_model i
        then "#stop"
        else "").

(** [c'] has the name, referent and tag of [c]. *)
Definition same_attrs (c c' : Node) : Prop :=
  name c' = name c /\ id c' = id c /\ tag c' = tag c.

(** What a step of the engine adds to the catalog while the shared
    counter goes from [n] to [n']. *)
Definition adds (m : parttree.Model) (n : nat) (m' : parttree.Model)
  (n' : nat) : Prop :=
  exists new,
    parttree.ele_elements m' = parttree.ele_elements m ++ new /\
    numbered n new /\ n' = (n + count_physical new)%nat.


(** * Further vocabulary *)

(** The nodes of a tree that reference [obj], in pre-order. *)
Definition referencing (root : Node) (obj : referent) : list Node :=
  List.filter (fun m => bool_decide (id m = Some obj)) (preorder root).

(** The nodes [walk] yields below a root whose children are [cs], the
    first child sitting at index [k]. *)
Fixpoint walk_from (k : nat) (cs : list Node) : list (path * Node) :=
  match cs with
  | [] => []
  | c :: cs' =>
      map (fun pn => (k :: fst pn, snd pn)) (walk c) ++ walk_from (S k) cs'
  end.

(** The names at which the loop of [sync_part_tree_on_update] assigns
    [node.id]: those beginning with [p], and outside of these with [di]
    or [tl]. *)
Definition reassigned (nm : string) : bool :=
  match nm with
  | EmptyString => false
  | String c _ =>
      Ascii.eqb c "p" || String.eqb (pystr.upto2 nm) "di" ||
      String.eqb (pystr.upto2 nm) "tl"
  end.

(** What the update loop writes at a node named after a surface or a
    gap: its name becomes [pre<k>], [k] being the first position of its
    referent in [objs], and its referent stays. *)
Definition named_by_position {A} (wrap : A -> referent) (pre : string)
  (objs : list A) (m m' : Node) : Prop :=
  exists k a,
    name m' = pre +:+ pystr.str k /\
    id m = Some (wrap a) /\ id m' = Some (wrap a) /\
    nth_error objs k = Some a /\
    forall j, (j < k)%nat -> nth_error objs j <> Some a.

(** The variant of an element, with the interfaces and the gaps it
    wraps. *)
Definition part : Set :=
  (kind * list (nat * Interface) * list (nat * Gap))%type.

Definition wraps (e : Element) : part := (e_kind e, e_ifcs e, e_gaps e).

Definition lens_like (k : kind) : bool :=
  match k with
  | Lens | CementedElement => true
  | _ => false
  end.

(** What a step of the engine appends to the catalog. *)
Definition emits (m m' : parttree.Model) (ws : list part) : Prop :=
  exists new,
    parttree.ele_elements m' = parttree.ele_elements m ++ new /\
    map wraps new = ws.

(** The surfaces directly in front of surface [k] whose gaps are not
    air, each with its index and its gap: the run of glass that ends at
    surface [k]. *)
Fixpoint pending (seq_model : SequentialModel) (k : nat)
  : list parttree.entry :=
  match k with
  | O => []
  | S j =>
      match nth_error (ifcs seq_model) j, nth_error (gaps seq_model) j with
      | Some s, Some g =>
          if parttree.is_air g then []
          else pending seq_model j ++ [(j, s, g)]
      | _, _ => []
      end
  end.

(** The part made of a surface that has air on both sides. *)
Definition in_air_part (i : nat) (s : Interface) : list part :=
  if String.eqb (interact_mode s) "reflect" then [(Mirror, [(i, s)], [])]
  else if is_thinlens s then [(ThinElement, [(i, s)], [])]
  else if String.eqb (interact_mode s) "transmit"
       then [(DummyInterface, [(i, s)], [])]
       else [].

(** The parts other than lenses at an entry of the path: behind every
    surface but the first, an air gap is a part; the surface in front of
    it is one, too, when no run of glass ends there. *)
Definition air_parts (seq_model : SequentialModel)
  (x : nat * (Interface * option Gap)) : list part :=
  let '(i, (s, og)) := x in
  match og with
  | Some g =>
      if parttree.is_air g && (0 <? i)%nat then
        match pending seq_model i with
        | [] => in_air_part i s
        | _ :: _ => []
        end ++ [(AirGap, [], [(i, g)])]
      else []
  | None => []
  end.

(** The lens at an entry of the path: a run of glass that ends at a
    surface with air behind it is a lens when it is one gap long, and a
    cemented element when it is longer; it wraps the surfaces of the run
    and the closing surface, and the gaps of the run. *)
Definition lens_part (seq_model : SequentialModel)
  (x : nat * (Interface * option Gap)) : list part :=
  let '(i, (s, og)) := x in
  match og with
  | Some g =>
      if parttree.is_air g then
        match pending seq_model i with
        | [] => []
        | es =>
            [(if (length es =? 1)%nat then Lens else CementedElement,
              map (fun t : parttree.entry => (fst (fst t), snd (fst t)))
                  (es ++ [(i, s, g)]),
              map (fun t : parttree.entry => (fst (fst t), snd t)) es)]
        end
      else []
  | None => []
  end.

(** No reflecting surface has a gap other than air behind it. *)
Definition no_buried_reflector (seq_model : SequentialModel) : Prop :=
  forall i s g,
    nth_error (ifcs seq_model) i = Some s ->
    nth_error (gaps seq_model) i = Some g ->
    parttree.is_air g = false ->
    String.eqb (interact_mode s) "reflect" = false.

(** Object, a prism that folds the path (entrance 1, reflecting face 2,
    exit 3), image; and the model after grouping it. *)
Definition folded : SequentialModel :=
  mkSeq [ex.plane 0; ex.plane 1; ex.mirror 2; ex.plane 3; ex.plane 4]
        [ex.air 0; ex.glass 1; ex.glass 2; ex.air 3] [1; 1; 1; 1; 1]%Z None.

Definition folded_model : parttree.Model :=
  Eval vm_compute in
    ex.outcome (parttree.elements_from_sequence folded ex.empty_model).

(** A referent that is a surface or a gap of the sequence. *)
Definition raw (r : option referent) : Prop :=
  match r with
  | Some (RIfc _) | Some (RGap _) => True
  | _ => False
  end.

(** The children of the root that reference elements, in order, each
    with its name and its referent. *)
Definition refs_element (c : Node) : bool :=
  match id c with
  | Some (RElem _) => true
  | _ => false
  end.

Definition element_children (root : Node)
  : list (string * option referent) :=
  map (fun c => (name c, id c)) (List.filter refs_element (children root)).

(** The node under the root that stands for the element [e]. *)
Definition element_entry (e : Element) : string * option referent :=
  (label e, Some (RElem e)).

(** What a step of the engine does to the catalog and to the element
    nodes under the root: they grow in step. *)
Definition mirrors (m m' : parttree.Model) : Prop :=
  exists new,
    parttree.ele_elements m' = parttree.ele_elements m ++ new /\
    element_children (parttree.root_node m')
    = element_children (parttree.root_node m) ++ map element_entry new.

(** An element that wraps at least one gap (an air gap) or at least one
    interface (the other variants). *)
Definition wraps_something (e : Element) : Prop :=
  match e_kind e with
  | AirGap => e_gaps e <> []
  | _ => e_ifcs e <> []
  end.

(** What the loop of [max_field] has established about the fields in
    front of the one it holds: each of them whose squared length is a
    number lies strictly below the held maximum. *)
Definition first_inv (pre : list optical.Field) (st : float * option nat)
  : Prop :=
  match snd st with
  | Some i =>
      forall j g,
        (j < i)%nat -> nth_error pre j = Some g ->
        (optical.fld_sqrd g =? optical.fld_sqrd g)%float = true ->
        (optical.fld_sqrd g <? fst st)%float = true
  | None => True
  end.

(** What the update loop writes at a node it re-derives from the
    catalog: a node whose name began with [p] keeps its name and
    references the profile of an interface of an element of the catalog;
    a node whose name began with [di] (respectively [tl]) references the
    reference interface (respectively the interface) of an element of
    the catalog and is named [di<k>] (respectively [tl<k>]), [k] being
    the first position of that interface in the sequence model. *)
Definition rederived (els : list Element) (seq_model : SequentialModel)
  (m m' : Node) : Prop :=
  (forall s, name m = String "p" s ->
     name m' = name m /\
     exists e sf, In e els /\ In sf (elements.interface_list e) /\
                  id m' = Some (RProfile (profile sf))) /\
  (pystr.upto2 (name m) = "di" ->
     exists e sf k, In e els /\ elements.ref_ifc e = Ok sf /\
                    id m' = Some (RIfc sf) /\
                    name m' = "di" +:+ pystr.str k /\
                    nth_error (ifcs seq_model) k = Some sf /\
                    forall j, (j < k)%nat ->
                              nth_error (ifcs seq_model) j <> Some sf) /\
  (pystr.upto2 (name m) = "tl" ->
     exists e sf k, In e els /\ elements.intrfc e = Ok sf /\
                    id m' = Some (RIfc sf) /\
                    name m' = "tl" +:+ pystr.str k /\
                    nth_error (ifcs seq_model) k = Some sf /\
                    forall j, (j < k)%nat ->
                              nth_error (ifcs seq_model) j <> Some sf).

(** The fragment that [add_element_to_tree] attaches for [e]. *)
Definition fragment (e : Element) (tg : option string) : Node :=
  set_name (label e) (elements.tree e tg).

(** A child of the fragment of an element: a leaf that references a
    surface or a gap, or a profile node over such leaves. *)
Definition fragment_child (c : Node) : Prop :=
  (children c = [] /\ raw (id c)) \/
  (~ raw (id c) /\ tag c = "#profile" /\
   Forall (fun d => children d = [] /\ raw (id d)) (children c)).

(** * [optical/opticalspec.py]: fields, field specification, spectrum *)

Module opticalspec.

Local Open Scope float_scope.

(** [Field]: the attributes that [__init__] sets; [more] holds what
    [__setattr__] has stored under any other name, latest first. *)
Record FieldObj : Set := mkFieldObj {
  x : float;
  y : float;
  vux : float;
  vuy : float;
  vlx : float;
  vly : float;
  wt : float;
  more : list (string * float)
}.

(** [Field()]. *)
Definition new_Field : FieldObj := mkFieldObj 0 0 0 0 0 0 1 [].

(** [f.__setattr__(attr, v)]. *)
Definition setattr (f : FieldObj) (attr : string) (v : float) : FieldObj :=
  if String.eqb attr "x" then
    mkFieldObj v (y f) (vux f) (vuy f) (vlx f) (vly f) (wt f) (more f)
  else if String.eqb attr "y" then
    mkFieldObj (x f) v (vux f) (vuy f) (vlx f) (vly f) (wt f) (more f)
  else if String.eqb attr "vux" then
    mkFieldObj (x f) (y f) v (vuy f) (vlx f) (vly f) (wt f) (more f)
  else if String.eqb attr "vuy" then
    mkFieldObj (x f) (y f) (vux f) v (vlx f) (vly f) (wt f) (more f)
  else if String.eqb attr "vlx" then
    mkFieldObj (x f) (y f) (vux f) (vuy f) v (vly f) (wt f) (more f)
  else if String.eqb attr "vly" then
    mkFieldObj (x f) (y f) (vux f) (vuy f) (vlx f) v (wt f) (more f)
  else if String.eqb attr "wt" then
    mkFieldObj (x f) (y f) (vux f) (vuy f) (vlx f) (vly f) v (more f)
  else
    mkFieldObj (x f) (y f) (vux f) (vuy f) (vlx f) (vly f) (wt f)
            ((attr, v) :: more f).

(** [pupil[k] *= c] on a list of coordinates. *)
Definition scale (pupil : list float) (k : nat) (c : float)
  : result (list float) :=
  p ← pylist.index pupil (Z.of_nat k);
  Ok (update_nth (fun _ => p * c) k pupil).

(** [Field.apply_vignetting]; [pupil] is modified in place and
    returned. *)
Definition apply_vignetting (f : FieldObj) (pupil : list float)
  : result (list float) :=
  p0 ← pylist.index pupil 0;
  pupil ← (if p0 <? 0 then
             if negb (vlx f =? 0) then scale pupil 0 (1 - vlx f)
             else Ok pupil
           else
             if negb (vux f =? 0) then scale pupil 0 (1 - vux f)
             else Ok pupil);
  p1 ← pylist.index pupil 1;
  if p1 <? 0 then
    if negb (vly f =? 0) then scale pupil 1 (1 - vly f) else Ok pupil
  else
    if negb (vuy f =? 0) then scale pupil 1 (1 - vuy f) else Ok pupil.

(** [FieldSpec]. *)
Record FieldSpec : Set := mkFieldSpec {
  type : string;
  fields : list FieldObj;
  wide_angle : bool
}.

(** The loop [for i, f in enumerate(self.fields)] that stores
    [values[i]] in the attribute [attr] of [f]. *)
Definition assign (attr : string) (fields : list FieldObj)
  (values : list float) : result (list FieldObj) :=
  mapM (fun x : nat * FieldObj =>
          v ← pylist.index values (Z.of_nat (fst x));
          Ok (setattr (snd x) attr v))
       (pylist.enumerate 0 fields).

(** [FieldSpec.__init__]. *)
Definition new_FieldSpec (type : string) (flds : list float)
  (wide_angle : bool) : result FieldSpec :=
  fields ← assign "y" (repeat new_Field (length flds)) flds;
  Ok (mkFieldSpec type fields wide_angle).

(** [FieldSpec.set_from_list]. *)
Definition set_from_list (fs : FieldSpec) (flds : list float)
  : result FieldSpec :=
  fields ← assign "y" (repeat new_Field (length flds)) flds;
  Ok (mkFieldSpec (type fs) fields (wide_angle fs)).

(** What [update_fields_cv_input] can raise: [IndexError] from [tla[0]]
    and [UnboundLocalError] from reading [attr]. *)
Inductive cv_exn : Set := CvIndexError | UnboundLocalError.

Inductive cv_result (A : Type) : Type :=
| Returns (a : A)
| Fails (e : cv_exn).

Arguments Returns {A} a.
Arguments Fails {A} e.

(** Lines 192 to 197: the field type that a three letter code
    selects. *)
Definition cv_type (tla : string) (type : string) : string :=
  if String.eqb tla "XOB" || String.eqb tla "YOB" then "OBJ_HT"
  else if String.eqb tla "XAN" || String.eqb tla "YAN" then "OBJ_ANG"
  else if String.eqb tla "XIM" || String.eqb tla "YIM" then "IMG_HT"
  else type.

(** Lines 202 to 207: the attribute that a three letter code names;
    [None] when no branch binds [attr]. *)
Definition cv_attr (tla : string) : result (option string) :=
  c ← pystr.first tla;
  if Ascii.eqb c "V" then Ok (Some (pystr.lower tla))
  else if Ascii.eqb c "X" || Ascii.eqb c "Y"
       then Ok (Some (pystr.lower (String c EmptyString)))
       else if String.eqb tla "WTF" then Ok (Some "wt")
            else Ok None.

(** [FieldSpec.update_fields_cv_input]. *)
Definition update_fields_cv_input (fs : FieldSpec) (tla : string)
  (dlist : list float) : cv_result FieldSpec :=
  let type := cv_type tla (type fs) in
  let fields :=
    if negb (length (fields fs) =? length dlist)%nat
    then repeat new_Field (length dlist)
    else fields fs in
  match cv_attr tla with
  | Raise _ => Fails CvIndexError
  | Ok attr =>
      match fields, attr with
      | [], _ => Returns (mkFieldSpec type [] (wide_angle fs))
      | _ :: _, None => Fails UnboundLocalError
      | _ :: _, Some a =>
          match assign a fields dlist with
          | Ok fields => Returns (mkFieldSpec type fields (wide_angle fs))
          | Raise _ => Fails CvIndexError
          end
      end
  end.

(** [FieldSpec.max_field], which reads [x] and [y] of every field. *)
Definition fs_max_field (fs : FieldSpec) : float * option nat :=
  optical.max_field (map (fun f => optical.mkField (x f) (y f)) (fields fs)).

(** [WvlSpec]; a render colour is a colour name or what
    [srgb.wvl_to_rgb] returns for a wavelength. *)
Section spectrum.

Variable rgb : Set.
Variable wvl_to_rgb : float -> rgb.

Inductive colour : Set :=
| Named (c : string)
| Rgb (c : rgb).

Record WvlSpec : Set := mkWvlSpec {
  wavelengths : list float;
  spectral_wts : list float;
  reference_wvl : Z;
  coating_wvl : float;
  render_colors : list colour
}.

(** [WvlSpec.calc_colors]: the value of [render_colors] it leaves. *)
Definition calc_colors (wavelengths : list float) : list colour :=
  let num_wvls := length wavelengths in
  if (num_wvls =? 1)%nat then [Named "black"]
  else if (num_wvls =? 2)%nat then [Named "blue"; Named "red"]
  else if (num_wvls =? 3)%nat
       then [Named "blue"; Named "green"; Named "red"]
       else map (fun w => Rgb (wvl_to_rgb w)) wavelengths.

(** [WvlSpec.set_from_list], for a list of pairs. *)
Definition wvl_set_from_list (ws : WvlSpec) (wlwts : list (float * float))
  : WvlSpec :=
  let wavelengths := map fst wlwts in
  let spectral_wts := map snd wlwts in
  mkWvlSpec wavelengths spectral_wts (reference_wvl ws) (coating_wvl ws)
            (calc_colors wavelengths).

(** [WvlSpec.central_wvl]. *)
Definition central_wvl (ws : WvlSpec) : result float :=
  pylist.index (wavelengths ws) (reference_wvl ws).

End spectrum.

End opticalspec.


(** * Properties *)

(** ** Python primitives *)

(** *** [int(f'{n}')] is [n] *)

Section int_str_facts.

Lemma uint_all_digits (d : uint) : all_digits (NilEmpty.string_of_uint d).
Proof.
  induction d; simpl; intros c Hc; try contradiction;
    (destruct Hc as [<-|Hc]; [reflexivity | apply IHd; exact Hc]).
Qed.

Lemma digit_step (acc k : nat) :
  (10 * Z.of_nat acc + (Z.of_nat (48 + k) - 48))%Z
  = Z.of_nat (k + 10 * acc).
Proof. lia. Qed.

Lemma int_digits_uint (d : uint) (acc : nat) :
  pystr.int_digits (Z.of_nat acc) (NilEmpty.string_of_uint d)
  = Some (Z.of_nat (Nat.of_uint_acc d acc)).
Proof.
  revert acc.
  induction d; intros acc;
    cbn [NilEmpty.string_of_uint pystr.int_digits Nat.of_uint_acc];
    try reflexivity; rewrite <- IHd;
    match goal with
    | |- context [pystr.digit_of ?c] =>
        change (pystr.digit_of c)
          with (Some (Z.of_nat (nat_of_ascii c) - 48)%Z)
    end; f_equal; rewrite Nat.tail_mul_spec.
  - exact (digit_step acc 0).
  - exact (digit_step acc 1).
  - exact (digit_step acc 2).
  - exact (digit_step acc 3).
  - exact (digit_step acc 4).
  - exact (digit_step acc 5).
  - exact (digit_step acc 6).
  - exact (digit_step acc 7).
  - exact (digit_step acc 8).
  - exact (digit_step acc 9).
Qed.

Lemma to_uint_nonnil (n : nat) : Nat.to_uint n <> Nil.
Proof.
  rewrite <- (Unsigned.of_to n) at 1. rewrite Unsigned.to_of.
  unfold unorm. destruct (nzhead (Nat.to_uint n)); discriminate.
Qed.

Lemma digit_not_space (c : ascii) :
  pystr.is_digit c = true -> pystr.is_space c = false.
Proof.
  unfold pystr.is_digit, pystr.is_space.
  destruct (Nat.leb_spec 48 (nat_of_ascii c)),
    (Nat.leb_spec (nat_of_ascii c) 57), (Nat.leb_spec 9 (nat_of_ascii c)),
    (Nat.leb_spec (nat_of_ascii c) 13), (Nat.leb_spec 28 (nat_of_ascii c)),
    (Nat.leb_spec (nat_of_ascii c) 32);
    simpl; try discriminate; try reflexivity; lia.
Qed.

Lemma lstrip_digits (s : string) : all_digits s -> pystr.lstrip s = s.
Proof.
  destruct s as [|c s]; [reflexivity|]. intros H. simpl.
  rewrite digit_not_space; [reflexivity|]. apply H. left. reflexivity.
Qed.

Lemma rstrip_digits (s : string) : all_digits s -> pystr.rstrip s = s.
Proof.
  induction s as [|c s IH]; [reflexivity|]. intros H. simpl.
  rewrite IH by (intros d Hd; apply H; right; exact Hd).
  destruct s; [|reflexivity].
  rewrite digit_not_space; [reflexivity|]. apply H. left. reflexivity.
Qed.

(** Parsing the decimal digits of an index gives the index back. *)
Lemma int_str (n : nat) : pystr.int (pystr.str n) = Ok (Z.of_nat n).
Proof.
  unfold pystr.int, pystr.strip, pystr.str.
  pose proof (uint_all_digits (Nat.to_uint n)) as Hd.
  rewrite (lstrip_digits _ Hd), (rstrip_digits _ Hd).
  pose proof (int_digits_uint (Nat.to_uint n) 0) as Hv.
  change (Nat.of_uint_acc (Nat.to_uint n) 0)
    with (Nat.of_uint (Nat.to_uint n)) in Hv.
  rewrite Unsigned.of_to in Hv. simpl in Hv.
  pose proof (to_uint_nonnil n) as Hnn.
  destruct (NilEmpty.string_of_uint (Nat.to_uint n)) as [|c s] eqn:Hs.
  - destruct (Nat.to_uint n); try discriminate. congruence.
  - assert (Hc : pystr.is_digit c = true) by (apply Hd; left; reflexivity).
    assert (c <> "-"%char) by (intros ->; discriminate).
    assert (c <> "+"%char) by (intros ->; discriminate).
    assert (Hu : pystr.int_unsigned (String c s) = Some (Z.of_nat n)).
    { unfold pystr.int_unsigned. rewrite Hc. exact Hv. }
    destruct c as [[] [] [] [] [] [] [] []];
      try (rewrite Hu; reflexivity); congruence.
Qed.

Lemma str_inj (n m : nat) : pystr.str n = pystr.str m -> n = m.
Proof.
  intros H. apply Nat2Z.inj.
  pose proof (int_str n) as Hn. rewrite H, int_str in Hn. congruence.
Qed.

End int_str_facts.

(** ** [FieldSpec.max_field] *)

Section max_field_facts.

Import optical.
Local Open Scope float_scope.

(** The strict order of IEEE comparison is transitive and irreflexive;
    a NaN is never below or above anything. *)
Lemma SFltb_trans a b c :
  SFltb a b = true -> SFltb b c = true -> SFltb a c = true.
Proof.
  unfold SFltb, SFcompare.
  destruct a as [sa|sa| |sa ma ea], b as [sb|sb| |sb mb eb],
           c as [sc|sc| |sc mc ec];
    repeat match goal with s : bool |- _ => destruct s end; simpl;
    try discriminate; try reflexivity;
    destruct (Z.compare_spec ea eb), (Z.compare_spec eb ec),
             (Z.compare_spec ea ec);
    try discriminate; try reflexivity; try lia; subst;
    rewrite ?Pos.compare_cont_spec; simpl;
    destruct (Pos.compare_spec ma mb), (Pos.compare_spec mb mc),
             (Pos.compare_spec ma mc);
    simpl; try discriminate; try reflexivity; try lia.
Qed.

Lemma SFltb_irrefl a : SFltb a a = false.
Proof.
  unfold SFltb, SFcompare.
  destruct a as [sa|sa| |sa ma ea]; try destruct sa; simpl; try reflexivity;
    rewrite Z.compare_refl, Pos.compare_cont_refl; reflexivity.
Qed.

Lemma ltb_trans (a b c : float) :
  (a <? b) = true -> (b <? c) = true -> (a <? c) = true.
Proof. rewrite !FloatAxioms.ltb_spec. apply SFltb_trans. Qed.

Lemma ltb_irrefl (a : float) : (a <? a) = false.
Proof. rewrite FloatAxioms.ltb_spec. apply SFltb_irrefl. Qed.

(** Once [a] has been replaced by a larger [b], whatever did not exceed
    [a] does not exceed [b]. *)
Lemma not_above_mono (a b c : float) :
  (a <? b) = true -> (a <? c) = false -> (b <? c) = false.
Proof.
  intros Hab Hac. destruct (b <? c) eqn:Hbc; [|reflexivity].
  rewrite (ltb_trans a b c Hab Hbc) in Hac. discriminate.
Qed.


Lemma max_field_body_inv (pre : list Field) (st : float * option nat)
  (f : Field) :
  loop_inv pre st ->
  loop_inv (pre ++ [f]) (max_field_body st (length pre, f)).
Proof.
  destruct st as [m idx]. intros [Hub Hat]. unfold max_field_body.
  fold (fld_sqrd f). simpl in Hub, Hat.
  destruct (m <? fld_sqrd f) eqn:Hlt; split; simpl.
  - intros g Hg. apply in_app_or in Hg. destruct Hg as [Hg|[<-|[]]].
    + apply (not_above_mono m); auto.
    + apply ltb_irrefl.
  - exists f. split; [|reflexivity].
    rewrite nth_error_app2 by lia. rewrite Nat.sub_diag. reflexivity.
  - intros g Hg. apply in_app_or in Hg. destruct Hg as [Hg|[<-|[]]]; auto.
  - destruct idx as [i|]; [|assumption].
    destruct Hat as (g & Hg & Hm). exists g. split; [|assumption].
    rewrite nth_error_app1; [assumption|].
    apply nth_error_Some. congruence.
Qed.

Lemma max_field_fold_inv (l pre : list Field) (st : float * option nat) :
  loop_inv pre st ->
  loop_inv (pre ++ l)
           (fold_left max_field_body (pylist.enumerate (length pre) l) st).
Proof.
  revert pre st. induction l as [|f l IH]; intros pre st Hinv; simpl.
  - rewrite app_nil_r. assumption.
  - replace (pre ++ f :: l) with ((pre ++ [f]) ++ l)
      by (rewrite <- app_assoc; reflexivity).
    replace (S (length pre)) with (length (pre ++ [f]))
      by (rewrite length_app; simpl; lia).
    apply IH. apply max_field_body_inv. assumption.
Qed.




End max_field_facts.

(** ** Lists and indices *)

Section list_facts.

Context {A : Type}.

Lemma index_nat (l : list A) (i : nat) (a : A) :
  nth_error l i = Some a -> pylist.index l (Z.of_nat i) = Ok a.
Proof.
  intros H. unfold pylist.index.
  destruct (Z.ltb_spec (Z.of_nat i) 0) as [?|_]; [lia|].
  destruct (Z.ltb_spec (Z.of_nat i) 0) as [?|_]; [lia|].
  rewrite Nat2Z.id, H. reflexivity.
Qed.

Lemma inner_length (l : list A) :
  length (pylist.inner l) = (length l - 2)%nat.
Proof.
  unfold pylist.inner. destruct l as [|a l]; [reflexivity|]. simpl.
  destruct l as [|b l _] using rev_ind; [reflexivity|].
  rewrite removelast_last, length_app. simpl. lia.
Qed.

Lemma inner_nth (l : list A) (k : nat) (a : A) :
  nth_error (pylist.inner l) k = Some a -> nth_error l (S k) = Some a.
Proof.
  unfold pylist.inner. destruct l as [|a0 l]; simpl.
  - destruct k; discriminate.
  - destruct l as [|b l _] using rev_ind.
    + destruct k; discriminate.
    + rewrite removelast_last. intros H.
      rewrite nth_error_app1; [assumption|].
      apply nth_error_Some. congruence.
Qed.

End list_facts.

(** ** [PartTree.init_from_sequence] *)

Section init_facts.

Import parttree.

Variable seq_model : SequentialModel.

Lemma init_fold (l : list Interface) (k : nat) (root : Node) :
  (forall j s, nth_error l j = Some s ->
               nth_error (ifcs seq_model) (k + j) = Some s /\
               (k + j < length (gaps seq_model))%nat) ->
  foldM (fun root (x : nat * Interface) =>
           let '(i, s) := x in
           let root :=
             attach root [] (mkNode ("i" +:+ pystr.str i) (Some (RIfc s))
                                    "#ifc" []) in
           gap ← pylist.index (gaps seq_model) (Z.of_nat i);
           Ok (attach root [] (mkNode ("g" +:+ pystr.str i) (Some (RGap gap))
                                      "#gap" [])))
        (pylist.enumerate k l) root
  = Ok (mkNode (name root) (id root) (tag root)
               (children root ++
                flat_map (interior_pair seq_model) (seq k (length l)))).
Proof.
  revert k root. induction l as [|s l IH]; intros k root Hl.
  - simpl. rewrite app_nil_r. destruct root; reflexivity.
  - destruct (Hl 0%nat s eq_refl) as [Hs Hg]. rewrite Nat.add_0_r in Hs, Hg.
    destruct (nth_error (gaps seq_model) k) as [g|] eqn:Hgk;
      [|apply nth_error_None in Hgk; lia].
    cbn [pylist.enumerate foldM]. rewrite (index_nat _ _ _ Hgk).
    cbn [py.bind mbind result_bind].
    rewrite IH.
    + cbn [attach name id tag children length seq flat_map].
      unfold interior_pair at 2. rewrite Hs, Hgk.
      rewrite <- !app_assoc. reflexivity.
    + intros j s' Hj. specialize (Hl (S j) s' Hj).
      replace (S k + j)%nat with (k + S j)%nat by lia. exact Hl.
Qed.

(** C5, as the code has it.  On a sequence whose gap list reaches the
    last interior surface, [init_from_sequence] adds under the root, in
    sequence order, the nodes [i<k>] and [g<k>] of the interior surfaces
    [k = 1 .. n-2] and of the gaps behind them; the first surface, the
    gap behind it and the last surface get no node. *)
Theorem init_from_sequence_interior (root : Node) :
  (length (ifcs seq_model) <= S (length (gaps seq_model)))%nat ->
  init_from_sequence root seq_model
  = Ok (mkNode (name root) (id root) (tag root)
               (children root ++ interior_nodes seq_model)).
Proof.
  intros Hlen. unfold init_from_sequence, interior_nodes.
  rewrite init_fold; [rewrite inner_length; reflexivity|].
  intros j s Hj. split.
  - apply inner_nth. assumption.
  - assert (j < length (pylist.inner (ifcs seq_model)))%nat
      by (apply nth_error_Some; congruence).
    rewrite inner_length in H. lia.
Qed.

End init_facts.

(** The interior surfaces of the singlet sequence. *)
Lemma init_from_sequence_interior_witness :
  parttree.init_from_sequence parttree.new_root ex.singlet
  = Ok (mkNode "root" (Some RTree) "#group#root"
          [mkNode "i1" (Some (RIfc ex.s_A)) "#ifc" [];
           mkNode "g1" (Some (RGap ex.g_1)) "#gap" [];
           mkNode "i2" (Some (RIfc ex.s_B)) "#ifc" [];
           mkNode "g2" (Some (RGap ex.g_2)) "#gap" []]).
Proof.
  apply (init_from_sequence_interior ex.singlet parttree.new_root).
  simpl. lia.
Defined.

(** C5 as stated fails on the singlet sequence: the tree gets the four
    nodes [i1, g1, i2, g2], and none for surface 0. *)
Lemma init_from_sequence_skips_ends :
  exists root,
    parttree.init_from_sequence parttree.new_root ex.singlet = Ok root /\
    map name (children root) = ["i1"; "g1"; "i2"; "g2"] /\
    ~ node_per_surface_and_gap ex.singlet root.
Proof.
  eexists. split; [reflexivity|]. split; [reflexivity|].
  intros [Hi _]. specialize (Hi 0%nat). simpl in Hi.
  assert (0 < 4)%nat as H04 by lia. specialize (Hi H04).
  repeat (destruct Hi as [Hi|Hi]; [discriminate|]). exact Hi.
Qed.

(** ** Trees *)

Section tree_facts.

(** Induction over a tree with the property known for all children. *)
Lemma Node_ind' (P : Node -> Prop) :
  (forall nm i tg cs, Forall P cs -> P (mkNode nm i tg cs)) ->
  forall n, P n.
Proof.
  intros H. fix IH 1. intros [nm i tg cs]. apply H.
  induction cs as [|c cs IHcs]; constructor; [apply IH | exact IHcs].
Qed.

Lemma walk_children_snd (cs : list Node) (k : nat) :
  Forall (fun c => map snd (walk c) = preorder c) cs ->
  map snd
    ((fix go (i : nat) (l : list Node) : list (path * Node) :=
        match l with
        | [] => []
        | c :: l' =>
            map (fun pn => (i :: fst pn, snd pn)) (walk c) ++ go (S i) l'
        end) k cs)
  = flat_map preorder cs.
Proof.
  intros H. revert k. induction H as [|c cs Hc _ IH]; intros k; simpl.
  - reflexivity.
  - rewrite map_app, map_map, IH. f_equal.
    rewrite <- Hc. apply map_ext. intros pn. reflexivity.
Qed.

(** [walk] visits the nodes of [PreOrderIter], in the same order. *)
Lemma walk_preorder (n : Node) : map snd (walk n) = preorder n.
Proof.
  induction n as [nm i tg cs IH] using Node_ind'. simpl.
  f_equal. apply walk_children_snd. exact IH.
Qed.

Lemma find_none (filter_ : Node -> bool) (n : Node) :
  (forall m, In m (preorder n) -> filter_ m = false) ->
  find filter_ n = Ok None.
Proof.
  intros H. unfold find.
  assert (Hnil : List.filter (fun pn => filter_ (snd pn)) (walk n) = []).
  { rewrite <- walk_preorder in H.
    induction (walk n) as [|pn l IHl]; [reflexivity|]. simpl.
    rewrite (H (snd pn)) by (left; reflexivity).
    apply IHl. intros m Hm. apply H. right. exact Hm. }
  rewrite Hnil. reflexivity.
Qed.

End tree_facts.

(** ** Lookups: [PartTree.node], [parent_node], [parent_object] *)

Section lookup_facts.

Import parttree.

Lemma climb_none (root : Node) (tags : list string) (ps : list path) :
  (forall q n, In q ps -> get root q = Some n -> tag_matches tags n = false) ->
  climb root tags ps = None.
Proof.
  induction ps as [|p ps IH]; intros H; simpl; [reflexivity|].
  destruct (get root p) as [n|] eqn:Hn; [|reflexivity].
  rewrite (H p n (or_introl eq_refl) Hn).
  apply IH. intros q m Hq. apply H. right. exact Hq.
Qed.

Lemma filter_map_snd (f : Node -> bool) (l : list (path * Node)) :
  map snd (List.filter (fun pn => f (snd pn)) l)
  = List.filter f (map snd l).
Proof.
  induction l as [|pn l IH]; [reflexivity|].
  cbn [List.filter map]. destruct (f (snd pn)); cbn [map]; congruence.
Qed.

(** [PartTree.node] raises when several nodes reference the object. *)
Lemma node_of_duplicates (root : Node) (obj : referent) (a b : Node)
  (l : list Node) :
  referencing root obj = a :: b :: l -> node root obj = Raise CountError.
Proof.
  unfold referencing, node, find_by_id, find.
  rewrite <- walk_preorder, <- filter_map_snd.
  destruct (List.filter _ (walk root)) as [|pn [|qn l']]; cbn [map];
    [discriminate|discriminate|reflexivity].
Qed.

(** C9. When no node of the tree references [obj], [node],
    [parent_node] and [parent_object] return [None] and do not raise;
    when [node] finds the one node of [obj] and none of its ancestors
    carries a tag of the filter, [parent_node] and [parent_object] return
    [None] as well; when several nodes reference [obj], the three lookups
    raise [CountError], whatever the tags of the ancestors. *)
Theorem lookup_miss_returns_none (root : Node) (obj : referent)
  (tg : string) :
  ((forall n, In n (preorder root) -> id n <> Some obj) ->
   node root obj = Ok None /\
   parent_node root obj tg = Ok None /\
   parent_object root obj tg = Ok None) /\
  (forall p,
      node root obj = Ok (Some p) ->
      (forall q n, In q (ancestors p) -> get root q = Some n ->
                   tag_matches (tl (pystr.split "#" tg)) n = false) ->
      parent_node root obj tg = Ok None /\
      parent_object root obj tg = Ok None) /\
  (forall a b l,
      referencing root obj = a :: b :: l ->
      node root obj = Raise CountError /\
      parent_node root obj tg = Raise CountError /\
      parent_object root obj tg = Raise CountError).
Proof.
  split; [|split].
  - intros Habs.
    assert (Hnode : node root obj = Ok None).
    { apply find_none. intros m Hm. apply bool_decide_eq_false.
      apply Habs. exact Hm. }
    unfold parent_object, parent_node. rewrite Hnode. auto.
  - intros p Hnode Hanc.
    unfold parent_object, parent_node. rewrite Hnode. simpl.
    rewrite (climb_none _ _ _ Hanc). auto.
  - intros a b l Hdup.
    pose proof (node_of_duplicates _ _ _ _ _ Hdup) as Hnode.
    unfold parent_object, parent_node. rewrite Hnode. auto.
Qed.

End lookup_facts.

(** An object the freshly initialised tree of the singlet does not
    reference, and a node of it that no element encloses. *)
Lemma lookup_miss_returns_none_witness :
  parttree.parent_object
    (mkNode "root" (Some RTree) "#group#root"
       [mkNode "i1" (Some (RIfc ex.s_A)) "#ifc" []])
    (RGap ex.g_0) parttree.default_filter = Ok None /\
  parttree.parent_object
    (mkNode "root" (Some RTree) "#group#root"
       [mkNode "i1" (Some (RIfc ex.s_A)) "#ifc" []])
    (RIfc ex.s_A) parttree.default_filter = Ok None.
Proof.
  split.
  - apply (lookup_miss_returns_none _ (RGap ex.g_0) parttree.default_filter).
    intros n [<-|[<-|[]]]; discriminate.
  - apply (proj1 (proj2 (lookup_miss_returns_none _ (RIfc ex.s_A)
                           parttree.default_filter)) [0%nat]).
    + reflexivity.
    + intros q n [<-|[]] Hn. injection Hn as <-. reflexivity.
Defined.

(** C9 as stated fails where an object has two nodes.  Attaching the
    catalog of the grouped singlet once more, as
    [add_element_model_to_tree] does, leaves the lens with two nodes, the
    first and the third child of the root.  The root is the only ancestor
    of either and its tag is not in the filter, so no ancestor matches;
    yet [node], [parent_node] and [parent_object] raise [CountError]
    instead of returning [None]. *)
Lemma lookup_miss_raises_on_duplicates :
  parttree.add_element_model_to_tree
    (parttree.root_node ex.singlet_model)
    (parttree.ele_elements ex.singlet_model) = Ok ex.reattached /\
  map fst (List.filter
             (fun pn => bool_decide (id (snd pn) = Some (RElem ex.lens_E1)))
             (walk ex.reattached))
  = [[0%nat]; [2%nat]] /\
  parttree.ancestors [0%nat] = [[]] /\
  parttree.ancestors [2%nat] = [[]] /\
  get ex.reattached [] = Some ex.reattached /\
  tag ex.reattached = "#group#root" /\
  parttree.tag_matches (tl (pystr.split "#" parttree.default_filter))
                       ex.reattached = false /\
  parttree.node ex.reattached (RElem ex.lens_E1) = Raise CountError /\
  parttree.parent_node ex.reattached (RElem ex.lens_E1)
                       parttree.default_filter = Raise CountError /\
  parttree.parent_object ex.reattached (RElem ex.lens_E1)
                         parttree.default_filter = Raise CountError.
Proof.
  repeat split; vm_compute; reflexivity.
Qed.

(** ** The grouping engine on concrete sequences *)

Section grouping_examples.

Import parttree.

(** C1, as the code has it.  On the singlet sequence, with any stop
    index, the grouping engine emits the lens [E1] over A and B and the
    air gap [AG2] behind B, and nothing else: the first surface is
    skipped and the last has no gap behind it. *)
Theorem singlet_grouping (stop : option nat) :
  elements_from_sequence
    (mkSeq [ex.s_obj; ex.s_A; ex.s_B; ex.s_img] [ex.g_0; ex.g_1; ex.g_2]
           [1; 1; 1; 1]%Z stop)
    ex.empty_model
  = let e1 := elements.new_Element 0 "E1" ex.s_A ex.s_B ex.g_1 1 2 in
    let ag := elements.new_AirGap 1 "AG2" ex.g_2 2 in
    Ok (mkModel
          (mkNode "root" (Some RTree) "#group#root"
             [mkNode "E1" (Some (RElem e1)) "#element#lens"
                [mkNode "p1" (Some (RProfile 101)) "#profile"
                   [mkNode "i1" (Some (RIfc ex.s_A)) "#ifc" []];
                 mkNode "g1" (Some (RGap ex.g_1)) "#gap" [];
                 mkNode "p2" (Some (RProfile 102)) "#profile"
                   [mkNode "i2" (Some (RIfc ex.s_B)) "#ifc" []]];
              mkNode "AG2" (Some (RElem ag)) "#airgap"
                [mkNode "g2" (Some (RGap ex.g_2)) "#gap" []]])
          [e1; ag] 2).
Proof. vm_compute. reflexivity. Qed.

(** C1 as stated fails: the run yields one air gap and no dummy
    interface. *)
Lemma singlet_grouping_not_as_stated :
  exists m,
    elements_from_sequence ex.singlet ex.empty_model = Ok m /\
    count_kind AirGap (ele_elements m) = 1%nat /\
    count_kind DummyInterface (ele_elements m) = 0%nat /\
    ~ singlet_parts_as_stated m.
Proof.
  eexists. split; [vm_compute; reflexivity|].
  split; [vm_compute; reflexivity|]. split; [vm_compute; reflexivity|].
  intros (_ & H & _). vm_compute in H. discriminate H.
Qed.

(** What the engine emits on [ex.train], variant and label. *)
Lemma train_grouping :
  exists m,
    elements_from_sequence ex.train ex.empty_model = Ok m /\
    map (fun e => (e_kind e, label e)) (ele_elements m)
    = [(Lens, "E1"); (AirGap, "AG2"); (DummyInterface, "D3");
       (AirGap, "AG3"); (Lens, "E2"); (AirGap, "AG5"); (Mirror, "M3");
       (AirGap, "AG6"); (DummyInterface, "D7"); (AirGap, "AG7")].
Proof. eexists. split; vm_compute; reflexivity. Qed.

(** C7 as stated fails on [ex.train]: the labels of the air gaps and of
    the dummy interfaces follow the surface indices, which no running
    counter produces. *)
Lemma train_labels_not_counters :
  exists m,
    elements_from_sequence ex.train ex.empty_model = Ok m /\
    map label (of_kind AirGap (ele_elements m))
    = ["AG2"; "AG3"; "AG5"; "AG6"; "AG7"] /\
    map label (of_kind DummyInterface (ele_elements m)) = ["D3"; "D7"] /\
    ~ own_counter AirGap (ele_elements m) /\
    ~ own_counter DummyInterface (ele_elements m).
Proof.
  eexists. split; [vm_compute; reflexivity|].
  split; [vm_compute; reflexivity|]. split; [vm_compute; reflexivity|].
  split.
  - intros [start H]. vm_compute in H.
    injection H as H1 _ H3 _ _.
    change "2" with (pystr.str 2) in H1. apply str_inj in H1. subst start.
    discriminate H3.
  - intros [start H]. vm_compute in H.
    injection H as H1 H2.
    change "3" with (pystr.str 3) in H1. apply str_inj in H1. subst start.
    discriminate H2.
Qed.

End grouping_examples.

(** ** The restore direction: [sync_part_tree_on_restore] *)

Section monad_list_facts.

Context {A B : Type}.

Lemma mapM_cons (f : A -> result B) (a : A) (l : list A) :
  mapM f (a :: l) = f a ≫= (fun b => mapM f l ≫= (fun bs => Ok (b :: bs))).
Proof. reflexivity. Qed.

Lemma mapM_map {C} (f : A -> result B) (g : C -> A) (l : list C) :
  mapM f (map g l) = mapM (fun c => f (g c)) l.
Proof.
  induction l as [|c l IH]; [reflexivity|].
  cbn [map]. rewrite !mapM_cons, IH. reflexivity.
Qed.

Lemma mapM_Forall2 (f : A -> result B) (R : A -> B -> Prop) (l : list A) :
  Forall (fun a => exists b, f a = Ok b /\ R a b) l ->
  exists l', mapM f l = Ok l' /\ Forall2 R l l'.
Proof.
  induction 1 as [|a l (b & Hb & Hr) _ (l' & Hl & IH)].
  - exists []. split; [reflexivity|constructor].
  - exists (b :: l'). rewrite mapM_cons, Hb, Hl. split; [reflexivity|].
    constructor; assumption.
Qed.

Lemma Forall2_diag (R : A -> A -> Prop) (l : list A) :
  Forall2 R l l -> Forall (fun a => R a a) l.
Proof.
  induction l as [|a l IH]; intros H; [constructor|].
  inversion H; subst. constructor; auto.
Qed.

End monad_list_facts.

Section restore_facts.

Import parttree elements.

Variable els : list Element.
Variable seq_model : SequentialModel.

Lemma append_cons (c : ascii) (s t : string) :
  String c s +:+ t = String c (s +:+ t).
Proof. reflexivity. Qed.

Lemma append_nil (t : string) : "" +:+ t = t.
Proof. reflexivity. Qed.

(** [name[:1]] has at most one character. *)
Lemma upto1_not_two (s : string) (c d : ascii) :
  String.eqb (pystr.upto1 s) (String c (String d EmptyString)) = false.
Proof.
  destruct s as [|a s]; simpl; [reflexivity|].
  destruct (Ascii.eqb a c); reflexivity.
Qed.

(** No name reaches the [di] and [tl] branches of the restore loop: a
    name outside the catalog that begins with neither [i], [g] nor [p]
    leaves the referent as it was. *)
Lemma restore_id_outside (p_name : option string) (n : Node) :
  outside_schema els (name n) ->
  restore_id els seq_model p_name n = Ok (id n).
Proof.
  intros (Hd & c & s & Hnm & Hi & Hg & Hp). unfold restore_id.
  rewrite Hd, Hnm. cbn [pystr.first mbind result_bind py.bind].
  rewrite (proj2 (Ascii.eqb_neq _ _) Hi), (proj2 (Ascii.eqb_neq _ _) Hg),
    (proj2 (Ascii.eqb_neq _ _) Hp), !upto1_not_two.
  reflexivity.
Qed.

Lemma restore_id_schema (p_name : option string) (nm : string)
  (r : referent) (i : option referent) (tg : string) (cs : list Node) :
  follows_schema els seq_model p_name nm r ->
  restore_id els seq_model p_name (mkNode nm i tg cs) = Ok (Some r).
Proof.
  intros H. unfold restore_id. cbn [name].
  destruct H as [nm e He|k s Hd Hs|k g Hd Hg|k pn e s Hd Hp He Hs].
  - rewrite He. reflexivity.
  - rewrite Hd, append_cons, append_nil.
    cbn [pystr.first mbind result_bind py.bind Ascii.eqb Bool.eqb
         pystr.from1].
    rewrite int_str. cbn [mbind result_bind py.bind].
    rewrite (index_nat _ _ _ Hs). reflexivity.
  - rewrite Hd, append_cons, append_nil.
    cbn [pystr.first mbind result_bind py.bind Ascii.eqb Bool.eqb
         pystr.from1].
    rewrite int_str. cbn [mbind result_bind py.bind].
    rewrite (index_nat _ _ _ Hg). reflexivity.
  - rewrite Hd, Hp, append_cons, append_nil.
    cbn [pystr.first mbind result_bind py.bind Ascii.eqb Bool.eqb
         pystr.from1 of_option].
    rewrite He. cbn [mbind result_bind py.bind of_option].
    rewrite int_str. cbn [mbind result_bind py.bind].
    replace (Z.of_nat (S k) - 1)%Z with (Z.of_nat k) by lia.
    rewrite (index_nat _ _ _ Hs). reflexivity.
Qed.

Lemma Forall2_export (R : Node -> Node -> Prop) (cs cs' : list Node) :
  Forall2 (fun c c' => export c' = export c /\ R c c') cs cs' ->
  map export cs' = map export cs /\ Forall2 R cs cs'.
Proof.
  induction 1 as [|c c' cs cs' [He Hr] _ [IHe IHr]]; simpl.
  - split; [reflexivity|constructor].
  - split; [congruence|constructor; assumption].
Qed.

Lemma restore_agrees (n : Node) :
  forall p_name,
    agree_on_schema els seq_model p_name n n ->
    exists n',
      restore_from els seq_model p_name (import_ (export n)) = Ok n' /\
      export n' = export n /\
      agree_on_schema els seq_model p_name n n'.
Proof.
  induction n as [nm i tg cs IH] using Node_ind'. intros p_name Hn.
  assert (Hcs : Forall2 (agree_on_schema els seq_model (Some nm)) cs cs)
    by (inversion Hn; assumption).
  assert (Hkids : exists cs',
             mapM (restore_from els seq_model (Some nm))
                  (map import_ (map export cs)) = Ok cs' /\
             map export cs' = map export cs /\
             Forall2 (agree_on_schema els seq_model (Some nm)) cs cs').
  { rewrite map_map, mapM_map.
    destruct (mapM_Forall2
                (fun c => restore_from els seq_model (Some nm)
                                       (import_ (export c)))
                (fun c c' => export c' = export c /\
                             agree_on_schema els seq_model (Some nm) c c')
                cs) as (cs' & Hm & Hf).
    - apply Forall2_diag in Hcs. clear Hn.
      induction cs as [|c cs IHcs]; constructor;
        inversion IH; inversion Hcs; subst; auto.
    - exists cs'. split; [exact Hm|]. apply Forall2_export. exact Hf. }
  destruct Hkids as (cs' & Hm & Hes & Has).
  cbn [export import_ restore_from].
  inversion Hn as [? r ? ? ? Hs _|? ? ? ? ? ? Ho _]; subst.
  - rewrite (restore_id_schema _ _ _ _ _ _ Hs).
    cbn [mbind result_bind py.bind]. rewrite Hm.
    cbn [mbind result_bind py.bind].
    eexists. split; [reflexivity|]. split.
    + cbn [export]. congruence.
    + constructor; assumption.
  - rewrite restore_id_outside by exact Ho.
    cbn [mbind result_bind py.bind]. rewrite Hm.
    cbn [mbind result_bind py.bind].
    eexists. split; [reflexivity|]. split.
    + cbn [export]. congruence.
    + apply agree_outside; assumption.
Qed.

(** X29.  For a tree whose nodes are named by the schema of the raw
    referents and of the element labels, or outside of it, serializing
    and restoring over the same sequence model and catalog succeeds and
    yields a tree with the same names, tags and shape, in which every
    node named by the schema references the object it referenced
    before. *)
Theorem roundtrip_restores_schema (t : Node) :
  agree_on_schema els seq_model None t t ->
  exists t',
    sync_to_restore els seq_model (json_encode t) = Ok t' /\
    export t' = export t /\
    agree_on_schema els seq_model None t t'.
Proof. apply restore_agrees. Qed.

End restore_facts.

(** *** The round trip on grouped sequences *)

Section restore_examples.

Import parttree.

Lemma singlet_model_built :
  elements_from_sequence ex.singlet ex.empty_model = Ok ex.singlet_model.
Proof. vm_compute. reflexivity. Qed.

Lemma planes_model_built :
  elements_from_sequence ex.planes ex.empty_model = Ok ex.planes_model.
Proof. vm_compute. reflexivity. Qed.

Lemma outside_intro (els : list Element) (c : ascii) (s : string) :
  ele_dict els (String c s) = None ->
  c <> "i"%char -> c <> "g"%char -> c <> "p"%char ->
  outside_schema els (String c s).
Proof. intros Hd Hi Hg Hp. split; [exact Hd|]. exists c, s. auto. Qed.

Ltac outside := apply outside_intro; [vm_compute; reflexivity|discriminate..].
Ltac labelled := apply schema_label; vm_compute; reflexivity.
Ltac kids :=
  first [apply List.Forall2_nil | (apply List.Forall2_cons; [|kids])].

(** The tree that grouping [ex.planes] builds is named by the schema,
    except for [root], [tl] and [di]. *)
Lemma planes_well_named :
  agree_on_schema (ele_elements ex.planes_model) ex.planes None
                  (root_node ex.planes_model) (root_node ex.planes_model).
Proof.
  unfold ex.planes_model; cbn [root_node ele_elements].
  apply agree_outside; [outside|kids].
  - apply agree_schema; [labelled|kids].
    apply agree_outside; [outside|kids].
  - apply agree_schema; [labelled|kids].
    apply agree_schema; [|kids].
    refine (schema_gap _ _ _ 1 _ _ _); vm_compute; reflexivity.
  - apply agree_schema; [labelled|kids].
    apply agree_outside; [outside|kids].
  - apply agree_schema; [labelled|kids].
    apply agree_schema; [|kids].
    refine (schema_gap _ _ _ 2 _ _ _); vm_compute; reflexivity.
Qed.

End restore_examples.

(** The round trip of the tree that grouping [ex.planes] builds. *)
Lemma roundtrip_restores_schema_witness :
  exists t',
    parttree.sync_to_restore (parttree.ele_elements ex.planes_model)
      ex.planes (parttree.json_encode (parttree.root_node ex.planes_model))
    = Ok t' /\
    export t' = export (parttree.root_node ex.planes_model) /\
    agree_on_schema (parttree.ele_elements ex.planes_model) ex.planes None
                    (parttree.root_node ex.planes_model) t'.
Proof.
  apply (roundtrip_restores_schema (parttree.ele_elements ex.planes_model)
           ex.planes (parttree.root_node ex.planes_model)).
  exact planes_well_named.
Defined.

(** The referent of the root, the part tree itself, is not among the
    objects that the restore loop assigns: on the tree that grouping the
    singlet builds, the restored root has no referent. *)
Lemma roundtrip_not_identical :
  parttree.elements_from_sequence ex.singlet ex.empty_model
  = Ok ex.singlet_model /\
  (exists t',
      parttree.sync_to_restore (parttree.ele_elements ex.singlet_model)
        ex.singlet
        (parttree.json_encode (parttree.root_node ex.singlet_model))
      = Ok t' /\
      id (parttree.root_node ex.singlet_model) = Some RTree /\
      id t' = None) /\
  ~ roundtrip_identical (parttree.ele_elements ex.singlet_model) ex.singlet
                        (parttree.root_node ex.singlet_model).
Proof.
  split; [vm_compute; reflexivity|]. split.
  - eexists. split; [vm_compute; reflexivity|].
    split; vm_compute; reflexivity.
  - unfold roundtrip_identical. vm_compute. discriminate.
Qed.

(** C2 does not hold of the code.  The tree that grouping [ex.train]
    builds has a profile node named [p] under the mirror [M3]; the
    restore loop reads the index of a profile from the characters after
    the first, [int('')] raises, and the round trip returns no tree.  The
    tree that grouping [ex.planes] builds comes back with its names, tags
    and shape, but the referents of the [tl] node and of the [di] node,
    neither of which is the root, are lost. *)
Theorem roundtrip_fails_on_grouped_trees :
  (parttree.elements_from_sequence ex.train ex.empty_model
   = Ok ex.train_model /\
   option_map name (get (parttree.root_node ex.train_model) [6]%nat)
   = Some "M3" /\
   get (parttree.root_node ex.train_model) [6; 0]%nat
   = Some (mkNode "p" (Some (RProfile 106)) "#profile"
             [mkNode "i6" (Some (RIfc (ex.mirror 6))) "#ifc" []]) /\
   pystr.int (pystr.from1 "p") = Raise ValueError /\
   parttree.restore_id (parttree.ele_elements ex.train_model) ex.train
     (Some "M3") (mkNode "p" None "#profile" [mkNode "i6" None "#ifc" []])
   = Raise ValueError /\
   parttree.sync_to_restore (parttree.ele_elements ex.train_model) ex.train
     (parttree.json_encode (parttree.root_node ex.train_model))
   = Raise ValueError) /\
  (parttree.elements_from_sequence ex.planes ex.empty_model
   = Ok ex.planes_model /\
   exists t',
     parttree.sync_to_restore (parttree.ele_elements ex.planes_model)
       ex.planes (parttree.json_encode (parttree.root_node ex.planes_model))
     = Ok t' /\
     export t' = export (parttree.root_node ex.planes_model) /\
     referents_changed (parttree.root_node ex.planes_model) t'
     = [[]; [0; 0]; [2; 0]]%nat /\
     get (parttree.root_node ex.planes_model) [0; 0]%nat
     = Some (mkNode "tl" (Some (RIfc (ex.thin 1))) "#ifc" []) /\
     get t' [0; 0]%nat = Some (mkNode "tl" None "#ifc" []) /\
     get (parttree.root_node ex.planes_model) [2; 0]%nat
     = Some (mkNode "di" (Some (RIfc (ex.plane 2))) "#ifc" []) /\
     get t' [2; 0]%nat = Some (mkNode "di" None "#ifc" [])).
Proof.
  split.
  - repeat split; vm_compute; reflexivity.
  - split; [vm_compute; reflexivity|].
    eexists. split; [vm_compute; reflexivity|].
    repeat split; vm_compute; reflexivity.
Qed.

(** C3 fails on the tree that grouping [ex.planes] builds: after the
    round trip the [tl] node under the thin element and the [di] node
    under the dummy interface have no referent, although their parents
    resolve to elements having the interface the nodes referenced. *)
Theorem restore_leaves_di_tl_unresolved :
  exists t te de,
    parttree.sync_to_restore (parttree.ele_elements ex.planes_model)
      ex.planes (parttree.json_encode (parttree.root_node ex.planes_model))
    = Ok t /\
    get (parttree.root_node ex.planes_model) [0; 0]%nat
    = Some (mkNode "tl" (Some (RIfc (ex.thin 1))) "#ifc" []) /\
    get (parttree.root_node ex.planes_model) [2; 0]%nat
    = Some (mkNode "di" (Some (RIfc (ex.plane 2))) "#ifc" []) /\
    option_map id (get t [0]%nat) = Some (Some (RElem te)) /\
    elements.intrfc te = Ok (ex.thin 1) /\
    option_map id (get t [2]%nat) = Some (Some (RElem de)) /\
    elements.ref_ifc de = Ok (ex.plane 2) /\
    get t [0; 0]%nat = Some (mkNode "tl" None "#ifc" []) /\
    get t [2; 0]%nat = Some (mkNode "di" None "#ifc" []).
Proof.
  eexists. eexists. eexists.
  split; [vm_compute; reflexivity|].
  repeat split; vm_compute; reflexivity.
Qed.

(** ** The update direction: [sync_part_tree_on_update] *)

Section update_facts.

Import parttree elements.

Variable els : list Element.
Variable seq_model : SequentialModel.

Ltac ok_step := cbn [mbind result_bind py.bind of_option fst snd].

Lemma plain_else (l : string) :
  plain l = true ->
  exists c s, l = String c s /\ Ascii.eqb c "i" = false /\
              Ascii.eqb c "g" = false /\ Ascii.eqb c "p" = false /\
              String.eqb (pystr.upto2 l) "di" = false /\
              String.eqb (pystr.upto2 l) "tl" = false.
Proof.
  destruct l as [|c s]; [discriminate|]. unfold plain.
  rewrite !andb_true_iff, !negb_true_iff.
  intros [[[[Hi Hg] Hp] Hdi] Htl].
  exists c, s. repeat split; assumption.
Qed.

Lemma update_name_id_fix (p_name : option string) (nm nm' : string)
  (i i' : option referent) (tg tg' : string) (cs cs' : list Node) :
  update_name_id els seq_model p_name (mkNode nm i tg cs) = Ok (nm', i') ->
  (forall e, i = Some (RElem e) -> plain (label e) = true) ->
  update_name_id els seq_model p_name (mkNode nm' i' tg' cs') = Ok (nm', i').
Proof.
  unfold update_name_id. cbn [name id].
  destruct nm as [|c s]; [discriminate|]. cbn [pystr.first]. ok_step.
  destruct (Ascii.eqb c "i") eqn:Ei.
  { destruct i as [r|]; [|discriminate]. ok_step.
    destruct (ifcs_index seq_model r) as [idx|] eqn:Hidx; [|discriminate].
    ok_step. intros [= <- <-] _.
    rewrite append_cons, append_nil. cbn [pystr.first]. ok_step.
    cbn [Ascii.eqb Bool.eqb]. ok_step. rewrite ?Hidx. reflexivity. }
  destruct (Ascii.eqb c "g") eqn:Eg.
  { destruct i as [r|]; [|discriminate]. ok_step.
    destruct (gaps_index seq_model r) as [idx|] eqn:Hidx; [|discriminate].
    ok_step. intros [= <- <-] _.
    rewrite append_cons, append_nil. cbn [pystr.first]. ok_step.
    cbn [Ascii.eqb Bool.eqb]. ok_step. rewrite ?Hidx. reflexivity. }
  destruct (Ascii.eqb c "p") eqn:Ep.
  { destruct p_name as [pn|]; [|discriminate]. ok_step.
    destruct (ele_dict els pn) as [e|] eqn:He; [|discriminate]. ok_step.
    destruct (if (1 <? String.length (String c s))%nat
              then pystr.int (pystr.from1 (String c s)) ≫= (fun k => Ok (k - 1)%Z)
              else Ok 0%Z) as [idx|] eqn:Hidx; [|discriminate].
    ok_step.
    destruct (pylist.index (interface_list e) idx) as [s0|] eqn:Hs;
      [|discriminate].
    ok_step. intros [= <- <-] _.
    cbn [pystr.first]. ok_step. rewrite ?Ei, ?Eg, ?Ep. ok_step.
    rewrite ?He. ok_step. rewrite ?Hidx. ok_step. rewrite ?Hs. reflexivity. }
  destruct (String.eqb (pystr.upto2 (String c s)) "di") eqn:Edi.
  { destruct p_name as [pn|]; [|discriminate]. ok_step.
    destruct (ele_dict els pn) as [e|] eqn:He; [|discriminate]. ok_step.
    destruct (ref_ifc e) as [s0|] eqn:Hs; [|discriminate]. ok_step.
    destruct (ifcs_index seq_model (RIfc s0)) as [idx|] eqn:Hidx;
      [|discriminate].
    ok_step. intros [= <- <-] _.
    rewrite !append_cons, append_nil. cbn [pystr.first pystr.upto2]. ok_step.
    cbn [Ascii.eqb Bool.eqb String.eqb]. ok_step.
    rewrite ?He. ok_step. rewrite ?Hs. ok_step. rewrite ?Hidx. reflexivity. }
  destruct (String.eqb (pystr.upto2 (String c s)) "tl") eqn:Etl.
  { destruct p_name as [pn|]; [|discriminate]. ok_step.
    destruct (ele_dict els pn) as [e|] eqn:He; [|discriminate]. ok_step.
    destruct (intrfc e) as [s0|] eqn:Hs; [|discriminate]. ok_step.
    destruct (ifcs_index seq_model (RIfc s0)) as [idx|] eqn:Hidx;
      [|discriminate].
    ok_step. intros [= <- <-] _.
    rewrite !append_cons, append_nil. cbn [pystr.first pystr.upto2]. ok_step.
    cbn [Ascii.eqb Bool.eqb String.eqb]. ok_step.
    rewrite ?He. ok_step. rewrite ?Hs. ok_step. rewrite ?Hidx. reflexivity. }
  destruct i as [r|]; [|discriminate]. ok_step.
  destruct (label_of r) as [l|] eqn:Hl.
  - intros [= <- <-] Hplain.
    destruct r as [| | |e|]; try discriminate. injection Hl as <-.
    destruct (plain_else _ (Hplain e eq_refl))
      as (c' & s' & Hls & Hi & Hg & Hp & Hdi & Htl).
    rewrite Hdi, Htl, Hls. cbn [pystr.first]. ok_step.
    rewrite Hi, Hg, Hp. cbn [label_of]. rewrite ?Hls. reflexivity.
  - intros [= <- <-] _. cbn [pystr.first]. ok_step.
    rewrite ?Ei, ?Eg, ?Ep, ?Edi, ?Etl. ok_step. rewrite ?Hl. reflexivity.
Qed.

Lemma mapM_fix {A} (f : A -> result A) (l l' : list A) :
  mapM f l = Ok l' ->
  Forall (fun a => forall b, f a = Ok b -> f b = Ok b) l ->
  mapM f l' = Ok l'.
Proof.
  revert l'. induction l as [|a l IH]; intros l' Hm Hf.
  - injection Hm as <-. reflexivity.
  - rewrite mapM_cons in Hm.
    destruct (f a) as [b|] eqn:Hb; [|discriminate].
    cbn [mbind result_bind py.bind] in Hm.
    destruct (mapM f l) as [bs|] eqn:Hbs; [|discriminate].
    injection Hm as <-. inversion Hf as [|? ? Ha Hl]; subst.
    rewrite mapM_cons, (Ha _ Hb). cbn [mbind result_bind py.bind].
    rewrite (IH _ eq_refl Hl). reflexivity.
Qed.

Lemma update_from_fix (n : Node) :
  forall p_name n1,
    update_from els seq_model p_name n = Ok n1 ->
    plain_labels n ->
    update_from els seq_model p_name n1 = Ok n1.
Proof.
  induction n as [nm i tg cs IH] using Node_ind'.
  intros p_name n1 Hu Hplain. cbn [update_from] in Hu.
  destruct (update_name_id els seq_model p_name (mkNode nm i tg cs))
    as [[nm' i']|] eqn:Hx; [|discriminate].
  cbn [mbind result_bind py.bind fst snd] in Hu.
  destruct (mapM (update_from els seq_model (Some nm')) cs) as [cs'|] eqn:Hm;
    [|discriminate].
  injection Hu as <-. cbn [update_from].
  rewrite (update_name_id_fix _ _ _ _ _ _ tg _ cs' Hx).
  - cbn [mbind result_bind py.bind fst snd].
    rewrite (mapM_fix _ _ _ Hm); [reflexivity|].
    rewrite List.Forall_forall in IH |- *. intros c Hc c1 Hc1.
    apply (IH c Hc); [exact Hc1|].
    intros m e Hm' He. apply (Hplain m e); [|exact He].
    cbn [preorder]. right. apply in_flat_map. exists c. auto.
  - intros e ->. apply (Hplain (mkNode nm (Some (RElem e)) tg cs) e);
      [left; reflexivity|reflexivity].
Qed.

(** C6, as the code has it.  When every element that the tree references
    has a plain label, a second [sync_part_tree_on_update] after a first
    one that returned, with the sequence model and the catalog
    unchanged, returns as well and leaves every name as the first call
    left it. *)
Theorem update_idempotent_plain (t : Node) :
  plain_labels t -> update_idempotent els seq_model t.
Proof.
  intros Hplain t1 H1. exists t1. split; [|reflexivity].
  exact (update_from_fix t None t1 H1 Hplain).
Qed.

Lemma plain_labels_check (t : Node) :
  forallb (fun m => match id m with
                    | Some (RElem e) => plain (label e)
                    | _ => true
                    end) (preorder t) = true ->
  plain_labels t.
Proof.
  intros H m e Hm He. rewrite forallb_forall in H.
  specialize (H m Hm). rewrite He in H. exact H.
Qed.

End update_facts.

(** The tree that grouping the singlet builds: the first update returns
    it unchanged, and so does the second. *)
Lemma update_idempotent_plain_witness :
  exists t2,
    parttree.sync_part_tree_on_update
      (parttree.ele_elements ex.singlet_model) ex.singlet
      (parttree.root_node ex.singlet_model) = Ok t2 /\
    names t2 = names (parttree.root_node ex.singlet_model).
Proof.
  apply (update_idempotent_plain (parttree.ele_elements ex.singlet_model)
           ex.singlet (parttree.root_node ex.singlet_model)).
  - apply plain_labels_check. vm_compute. reflexivity.
  - vm_compute. reflexivity.
Defined.

(** C6 as stated fails once an element carries a label that reads as the
    name of a raw referent.  With the lens renamed to [prism], the first
    update renames its node and the second raises; with a dummy
    interface renamed to [root] and an air gap to [dial], both updates
    return and the node of the air gap is named [dial] after the first
    and [di2] after the second. *)
Lemma update_not_idempotent :
  ~ update_idempotent ex.prism_catalog ex.singlet ex.prism_tree /\
  (exists t1,
      parttree.sync_part_tree_on_update ex.prism_catalog ex.singlet
                                        ex.prism_tree = Ok t1 /\
      option_map name (get t1 [0%nat]) = Some "prism" /\
      parttree.sync_part_tree_on_update ex.prism_catalog ex.singlet t1
      = Raise KeyError) /\
  (exists t1 t2,
      parttree.sync_part_tree_on_update ex.dial_catalog ex.planes
                                        ex.dial_tree = Ok t1 /\
      parttree.sync_part_tree_on_update ex.dial_catalog ex.planes t1
      = Ok t2 /\
      names t1 = ["root"; "root"; "di2"; "dial"; "g2"] /\
      names t2 = ["root"; "root"; "di2"; "di2"; "g2"]).
Proof.
  assert (H1 : exists t1,
             parttree.sync_part_tree_on_update ex.prism_catalog ex.singlet
                                               ex.prism_tree = Ok t1 /\
             option_map name (get t1 [0%nat]) = Some "prism" /\
             parttree.sync_part_tree_on_update ex.prism_catalog ex.singlet t1
             = Raise KeyError).
  { eexists. split; [vm_compute; reflexivity|].
    split; vm_compute; reflexivity. }
  split; [|split; [exact H1|]].
  - destruct H1 as (t1 & Hu & _ & Hr). intros Hid.
    destruct (Hid t1 Hu) as (t2 & H2 & _). rewrite Hr in H2. discriminate.
  - eexists. eexists. split; [vm_compute; reflexivity|].
    split; [vm_compute; reflexivity|]. split; vm_compute; reflexivity.
Qed.


(** ** [PartTree.add_element_to_tree] *)

Section somes_facts.
Context {A : Type}.

Lemma somes_app (l1 l2 : list (option A)) :
  somes (l1 ++ l2) = somes l1 ++ somes l2.
Proof.
  induction l1 as [|[a|] l1 IH]; simpl; [reflexivity| |assumption].
  rewrite IH. reflexivity.
Qed.

Lemma in_somes (a : A) (l : list (option A)) :
  In a (somes l) <-> In (Some a) l.
Proof.
  induction l as [|[b|] l IH]; simpl.
  - tauto.
  - rewrite IH. split; intros [H|H]; auto; left; congruence.
  - rewrite IH. split; [auto|intros [H|H]; [discriminate|assumption]].
Qed.

Lemma sublist_somes (l1 l2 : list (option A)) :
  sublist l1 l2 -> sublist (somes l1) (somes l2).
Proof.
  induction 1 as [|[a|] l1 l2 _ IH|[a|] l1 l2 _ IH]; simpl;
    try assumption; constructor; assumption.
Qed.

Lemma sublist_In (l1 l2 : list A) (a : A) :
  sublist l1 l2 -> In a l1 -> In a l2.
Proof.
  induction 1 as [|x l1 l2 _ IH|x l1 l2 _ IH]; simpl; tauto.
Qed.

Lemma remove_nth_app (l1 l2 : list A) (a : A) :
  remove_nth (length l1) (l1 ++ a :: l2) = l1 ++ l2.
Proof. induction l1 as [|b l1 IH]; simpl; congruence. Qed.

Lemma update_nth_app (f : A -> A) (l1 l2 : list A) (a : A) :
  update_nth f (length l1) (l1 ++ a :: l2) = l1 ++ f a :: l2.
Proof. induction l1 as [|b l1 IH]; simpl; congruence. Qed.

End somes_facts.

Section attach_facts.

Import parttree elements.

Lemma ids_cons (t : Node) : ids t = id t :: kids_ids t.
Proof.
  destruct t as [nm i tg cs]. unfold ids, kids_ids. cbn [preorder map id children].
  f_equal. induction cs as [|c cs IH]; [reflexivity|].
  cbn [flat_map]. rewrite map_app, IH. reflexivity.
Qed.

Lemma detach_attrs (t : Node) (p : path) :
  name (detach t p) = name t /\ id (detach t p) = id t /\
  tag (detach t p) = tag t.
Proof. destruct p as [|i [|j p]]; simpl; auto. Qed.

Lemma kids_ids_app (nm : string) (i : option referent) (tg : string) (l1 l2 : list Node) :
  kids_ids (mkNode nm i tg (l1 ++ l2)) = flat_map ids l1 ++ flat_map ids l2.
Proof. unfold kids_ids. cbn [children]. apply flat_map_app. Qed.

(** Detaching the node at [p] removes the ids of its subtree, and
    nothing else, from the ids below the root. *)
Lemma detach_kids_ids (p : path) :
  forall t m,
    p <> [] -> get t p = Some m ->
    exists l1 l2,
      kids_ids t = l1 ++ ids m ++ l2 /\
      kids_ids (detach t p) = l1 ++ l2.
Proof.
  induction p as [|i p IH]; intros t m Hp Hget; [congruence|].
  cbn [get] in Hget.
  destruct (nth_error (children t) i) as [c|] eqn:Hc; [|discriminate].
  destruct (nth_error_split _ _ Hc) as (b & a & Hcs & Hlen).
  destruct t as [nm r tg cs]. cbn [children] in *. subst cs i.
  destruct p as [|j p'].
  - cbn [get] in Hget. injection Hget as <-.
    exists (flat_map ids b), (flat_map ids a). split.
    + rewrite kids_ids_app. reflexivity.
    + cbn [detach name id tag children]. rewrite remove_nth_app.
      apply kids_ids_app.
  - destruct (IH c m ltac:(discriminate) Hget) as (l1 & l2 & Hk & Hd).
    exists (flat_map ids b ++ id c :: l1), (l2 ++ flat_map ids a). split.
    + rewrite kids_ids_app. cbn [flat_map]. rewrite ids_cons, Hk.
      rewrite <- !app_assoc. cbn [app]. rewrite <- !app_assoc. reflexivity.
    + change (detach (mkNode nm r tg (b ++ c :: a)) (length b :: j :: p'))
        with (mkNode nm r tg
                (update_nth (fun c => detach c (j :: p')) (length b)
                            (b ++ c :: a))).
      rewrite update_nth_app, kids_ids_app. cbn [flat_map].
      rewrite ids_cons, Hd.
      destruct (detach_attrs c (j :: p')) as (_ & -> & _).
      rewrite <- !app_assoc. cbn [app]. rewrite <- !app_assoc. reflexivity.
Qed.

Lemma walk_children_get (cs : list Node) (k : nat) (p : path) (m : Node) :
  Forall (fun c => forall q, In (q, m) (walk c) -> get c q = Some m) cs ->
  In (p, m)
     ((fix go (i : nat) (l : list Node) : list (path * Node) :=
         match l with
         | [] => []
         | c :: l' =>
             map (fun pn => (i :: fst pn, snd pn)) (walk c) ++ go (S i) l'
         end) k cs) ->
  exists i q c, p = (k + i)%nat :: q /\ nth_error cs i = Some c /\
                get c q = Some m.
Proof.
  intros H. revert k. induction H as [|c cs Hc _ IH]; intros k Hin.
  - destruct Hin.
  - apply in_app_or in Hin. destruct Hin as [Hin|Hin].
    + apply in_map_iff in Hin. destruct Hin as ([q m'] & [= <- <-] & Hq).
      exists 0%nat, q, c. rewrite Nat.add_0_r. auto.
    + destruct (IH _ Hin) as (i & q & c' & -> & Hn & Hg).
      exists (S i), q, c'. split; [f_equal; lia|auto].
Qed.

(** A node that [walk] yields sits where [walk] says. *)
Lemma walk_get (t : Node) :
  forall p m, In (p, m) (walk t) -> get t p = Some m.
Proof.
  induction t as [nm i tg cs IH] using Node_ind'. intros p m Hin.
  cbn [walk] in Hin. destruct Hin as [[= <- <-]|Hin]; [reflexivity|].
  destruct (walk_children_get cs 0 p m) as (k & q & c & -> & Hn & Hg).
  - rewrite List.Forall_forall in IH |- *. intros c Hc q. apply IH. exact Hc.
  - exact Hin.
  - cbn [get children Nat.add]. rewrite Hn. exact Hg.
Qed.

Lemma filter_unique (obj : referent) (l : list (path * Node)) :
  NoDup (somes (map (fun pn => id (snd pn)) l)) ->
  match List.filter (fun pn => bool_decide (id (snd pn) = Some obj)) l with
  | [] => forall pn, In pn l -> id (snd pn) <> Some obj
  | [pn] => In pn l /\ id (snd pn) = Some obj
  | _ :: _ :: _ => False
  end.
Proof.
  induction l as [|pn l IH]; intros Hnd; cbn [List.filter].
  - intros pn [].
  - cbn [map somes] in Hnd. destruct (bool_decide_reflect (id (snd pn) = Some obj)) as [Hid|Hid].
    + rewrite Hid in Hnd. inversion Hnd as [|? ? Hnot Hnd']; subst.
      specialize (IH Hnd').
      assert (Hnone : List.filter (fun pn => bool_decide (id (snd pn) = Some obj)) l = []).
      { destruct (List.filter _ l) as [|qn ?] eqn:Hf; [reflexivity|].
        exfalso. apply Hnot. apply list_elem_of_In, in_somes.
        assert (Hq : In qn (List.filter (fun pn => bool_decide (id (snd pn) = Some obj)) l))
          by (rewrite Hf; left; reflexivity).
        apply filter_In in Hq. destruct Hq as [Hq1 Hq2].
        apply bool_decide_eq_true in Hq2. rewrite <- Hq2.
        apply (in_map (fun pn => id (snd pn))). exact Hq1. }
      rewrite Hnone. split; [left; reflexivity|exact Hid].
    + assert (Hnd' : NoDup (somes (map (fun pn => id (snd pn)) l))).
      { destruct (id (snd pn)); [inversion Hnd; assumption|assumption]. }
      specialize (IH Hnd').
      destruct (List.filter _ l) as [|qn [|? ?]]; try contradiction.
      * intros pn' [<-|Hin]; [exact Hid|apply IH; exact Hin].
      * destruct IH as [Hin Hq]. split; [right; exact Hin|exact Hq].
Qed.

(** With pairwise distinct referents, [PartTree.node] does not raise. *)
Lemma node_unique (t : Node) (obj : referent) :
  referents_unique t ->
  (node t obj = Ok None /\ ~ In (Some obj) (ids t)) \/
  (exists p m, node t obj = Ok (Some p) /\ get t p = Some m /\
               id m = Some obj).
Proof.
  intros Hnd. unfold node, find_by_id, find.
  pose proof (filter_unique obj (walk t)) as Hf.
  assert (Hmap : map (fun pn => id (snd pn)) (walk t) = ids t).
  { unfold ids. rewrite <- walk_preorder, map_map. reflexivity. }
  rewrite Hmap in Hf. specialize (Hf Hnd).
  destruct (List.filter _ (walk t)) as [|pn [|? ?]]; try contradiction.
  - left. split; [reflexivity|]. rewrite <- Hmap. intros Hin.
    apply in_map_iff in Hin. destruct Hin as (pn & Hid & Hin).
    exact (Hf pn Hin Hid).
  - right. destruct Hf as [Hin Hid]. exists (fst pn), (snd pn).
    split; [reflexivity|]. split; [|exact Hid].
    apply walk_get. destruct pn. exact Hin.
Qed.

Lemma kids_referents_unique (t : Node) :
  referents_unique t -> NoDup (somes (kids_ids t)).
Proof.
  unfold referents_unique, tree_referents. rewrite ids_cons.
  destruct (id t); cbn [somes]; [|auto].
  intros H. inversion H; assumption.
Qed.

(** One iteration of the loop of [add_element_to_tree], for a leaf that
    references [obj]. *)
Lemma detach_duplicate (t : Node) (obj : referent) :
  referents_unique t ->
  exists t2,
    (node t obj ≫= fun dup_node =>
       Ok match dup_node with
          | Some p => detach t p
          | None => t
          end) = Ok t2 /\
    name t2 = name t /\ id t2 = id t /\ tag t2 = tag t /\
    sublist (kids_ids t2) (kids_ids t) /\
    ~ In (Some obj) (kids_ids t2).
Proof.
  intros Hnd. destruct (node_unique t obj Hnd)
    as [[Hn Hnot]|(p & m & Hn & Hget & Hid)]; rewrite Hn;
    cbn [mbind result_bind py.bind].
  - exists t. repeat split; [reflexivity|].
    intros Hin. apply Hnot. rewrite ids_cons. right. exact Hin.
  - exists (detach t p). destruct (detach_attrs t p) as (Ha & Hb & Hc).
    split; [reflexivity|]. split; [exact Ha|]. split; [exact Hb|].
    split; [exact Hc|].
    destruct p as [|i p].
    + cbn [detach]. split; [reflexivity|].
      cbn [get] in Hget. injection Hget as <-.
      unfold referents_unique, tree_referents in Hnd.
      rewrite ids_cons, Hid in Hnd. cbn [somes] in Hnd.
      inversion Hnd as [|? ? Hnot _]; subst. intros Hin. apply Hnot.
      apply list_elem_of_In, in_somes. exact Hin.
    + destruct (detach_kids_ids (i :: p) t m ltac:(discriminate) Hget)
        as (l1 & l2 & Hk & Hd).
      rewrite Hd, Hk. split.
      * apply sublist_app; [reflexivity|]. apply sublist_inserts_l.
        reflexivity.
      * pose proof (kids_referents_unique t Hnd) as Hk'.
        rewrite Hk, ids_cons, Hid, !somes_app in Hk'. cbn [somes] in Hk'.
        apply NoDup_app in Hk'. destruct Hk' as (_ & Hdisj & Hmid).
        inversion Hmid as [|? ? Hnot _]; subst.
        intros Hin. apply in_app_or in Hin. destruct Hin as [Hin|Hin].
        -- apply (Hdisj obj).
           ++ apply list_elem_of_In, in_somes. exact Hin.
           ++ left.
        -- apply Hnot. apply list_elem_of_In. apply in_or_app. right.
           apply in_somes. exact Hin.
Qed.

Lemma referents_unique_sublist (t t2 : Node) :
  id t2 = id t -> sublist (kids_ids t2) (kids_ids t) ->
  referents_unique t -> referents_unique t2.
Proof.
  unfold referents_unique, tree_referents. rewrite !ids_cons.
  intros -> Hs Hnd. apply (sublist_NoDup _ _ Hnd).
  apply sublist_somes. constructor. exact Hs.
Qed.

(** The loop of [add_element_to_tree] over the leaves [ls]. *)
Lemma detach_duplicates (ls : list Node) :
  forall t,
    referents_unique t ->
    Forall (fun l => id l <> None) ls ->
    exists t',
      foldM (fun root leaf_node =>
               obj ← of_option AttributeError (id leaf_node);
               dup_node ← node root obj;
               Ok match dup_node with
                  | Some p => detach root p
                  | None => root
                  end) ls t = Ok t' /\
      name t' = name t /\ id t' = id t /\ tag t' = tag t /\
      sublist (kids_ids t') (kids_ids t) /\
      forall r, In r (somes (map id ls)) -> ~ In (Some r) (kids_ids t').
Proof.
  induction ls as [|l ls IH]; intros t Hnd Hids.
  - exists t. cbn [foldM]. repeat split; try reflexivity. intros r [].
  - inversion Hids as [|? ? Hl Hls]; subst.
    destruct (id l) as [obj|] eqn:Hobj; [|congruence].
    destruct (detach_duplicate t obj Hnd)
      as (t2 & Hstep & Ha & Hb & Hc & Hsub & Hnot).
    destruct (IH t2 (referents_unique_sublist _ _ Hb Hsub Hnd) Hls)
      as (t' & Hfold & Ha' & Hb' & Hc' & Hsub' & Hnot').
    exists t'. cbn [foldM]. rewrite Hobj.
    cbn [of_option mbind result_bind py.bind] in Hstep |- *.
    rewrite Hstep. cbn [py.bind]. split; [exact Hfold|].
    split; [congruence|]. split; [congruence|]. split; [congruence|].
    split; [etransitivity; eassumption|].
    cbn [map somes]. rewrite Hobj. intros r [<-|Hr].
    + intros Hin. apply Hnot. exact (sublist_In _ _ _ Hsub' Hin).
    + apply Hnot'. exact Hr.
Qed.

Lemma leaves_children (nm : string) (i : option referent) (tg : string)
  (cs : list Node) :
  cs <> [] -> leaves (mkNode nm i tg cs) = flat_map leaves cs.
Proof. destruct cs; [congruence|reflexivity]. Qed.

(** The leaves are among the nodes, in the same order. *)
Lemma leaves_sublist (t : Node) : sublist (map id (leaves t)) (ids t).
Proof.
  induction t as [nm i tg cs IH] using Node_ind'.
  rewrite ids_cons. destruct cs as [|c cs]; [reflexivity|].
  rewrite leaves_children by discriminate. apply sublist_cons.
  unfold kids_ids. cbn [children].
  induction IH as [|c' cs' Hc _ IHcs]; [reflexivity|].
  cbn [flat_map]. rewrite map_app. apply sublist_app; assumption.
Qed.

Lemma kids_leaves_sublist (cs : list Node) :
  sublist (map id (flat_map leaves cs)) (flat_map ids cs).
Proof.
  induction cs as [|c cs IH]; [reflexivity|].
  cbn [flat_map]. rewrite map_app.
  apply sublist_app; [apply leaves_sublist|exact IH].
Qed.

(** Lines 66 to 72 of [add_element_to_tree] on a tree whose nodes
    reference pairwise distinct objects, for a fragment whose leaves
    do. *)
Lemma add_fragment_unique (t e_node : Node) :
  referents_unique t ->
  Forall (fun l => id l <> None) (leaves e_node) ->
  NoDup (leaf_referents e_node) ->
  exists t' cs,
    add_fragment_to_tree t e_node = Ok t' /\
    leaves_unique t' /\
    children t' = cs ++ [e_node] /\
    forall r c m, In r (leaf_referents e_node) -> In c cs ->
                  In m (preorder c) -> id m <> Some r.
Proof.
  intros Hnd Hids Hfrag.
  destruct (detach_duplicates (leaves e_node) t Hnd Hids)
    as (t2 & Hfold & Ha & Hb & Hc & Hsub & Hnot).
  exists (attach t2 [] e_node), (children t2).
  unfold add_fragment_to_tree. rewrite Hfold.
  cbn [mbind result_bind py.bind]. split; [reflexivity|].
  assert (Hkids : forall r, In r (leaf_referents e_node) ->
                            ~ In (Some r) (flat_map ids (children t2)))
    by exact Hnot.
  split; [|split; [reflexivity|]].
  - unfold leaves_unique, leaf_referents. cbn [attach].
    rewrite leaves_children by (destruct (children t2); discriminate).
    rewrite flat_map_app, map_app, somes_app. cbn [flat_map].
    rewrite app_nil_r. apply NoDup_app. split; [|split].
    + apply (sublist_NoDup _ (somes (kids_ids t2))).
      * apply kids_referents_unique.
        exact (referents_unique_sublist _ _ Hb Hsub Hnd).
      * apply sublist_somes, kids_leaves_sublist.
    + intros r Hr Hr'. apply list_elem_of_In in Hr, Hr'.
      apply (Hkids r Hr'). apply in_somes.
      exact (sublist_In _ _ _ (sublist_somes _ _ (kids_leaves_sublist _)) Hr).
    + exact Hfrag.
  - intros r c m Hr Hin Hm Hid. apply (Hkids r Hr).
    apply in_flat_map. exists c. split; [exact Hin|].
    unfold ids. rewrite <- Hid. apply in_map. exact Hm.
Qed.

Lemma set_name_leaves_ids (nm : string) (n : Node) :
  map id (leaves (set_name nm n)) = map id (leaves n).
Proof. destruct n as [nm0 i tg [|c cs]]; reflexivity. Qed.

Lemma has_id_node (nm : string) (r : referent) (tg : string)
  (cs : list Node) :
  Forall (fun c => Forall (fun l => id l <> None) (leaves c)) cs ->
  Forall (fun l => id l <> None) (leaves (mkNode nm (Some r) tg cs)).
Proof.
  intros H. destruct cs as [|c cs].
  - constructor; [discriminate|constructor].
  - rewrite leaves_children by discriminate.
    induction H as [|c' cs' Hc _ IH]; [constructor|].
    cbn [flat_map]. apply List.Forall_app. split; assumption.
Qed.

Lemma has_id_leaf (nm : string) (r : referent) (tg : string) :
  Forall (fun l => id l <> None) (leaves (mkNode nm (Some r) tg [])).
Proof. apply has_id_node. constructor. Qed.

Lemma profile_children_have_id (ss : list (nat * Interface)) :
  forall k gs,
    Forall (fun c => Forall (fun l => id l <> None) (leaves c))
           (profile_children k ss gs).
Proof.
  induction ss as [|[idx s] ss IH]; intros k gs; cbn [profile_children].
  - constructor.
  - constructor.
    + apply has_id_node. constructor; [apply has_id_leaf|constructor].
    + destruct gs as [|[gidx g] gs].
      * apply IH.
      * constructor; [apply has_id_leaf|apply IH].
Qed.

(** Every leaf of the fragment of an element references an object. *)
Lemma tree_leaves_have_id (e : Element) (tg : option string) :
  Forall (fun l => id l <> None) (leaves (elements.tree e tg)).
Proof.
  unfold elements.tree. destruct (e_kind e); apply has_id_node;
    try apply profile_children_have_id;
    apply List.Forall_map; apply List.Forall_forall; intros x _;
    apply has_id_leaf.
Qed.

Lemma Forall_has_id (ls ls' : list Node) :
  map id ls = map id ls' ->
  Forall (fun l => id l <> None) ls' -> Forall (fun l => id l <> None) ls.
Proof.
  revert ls'. induction ls as [|l ls IH]; intros [|l' ls'] Hm H;
    try discriminate; [constructor|].
  injection Hm as Hl Hm. inversion H; subst.
  constructor; [congruence|eauto].
Qed.

(** C4, as the code has it.  When no two nodes of the tree reference the
    same object and the leaves of the fragment of [e] reference pairwise
    distinct objects, [add_element_to_tree] returns; in the tree it
    leaves, each referent is the referent of at most one leaf, the
    fragment is the last child of the root, and no node outside the
    fragment and below the root references an object that a leaf of the
    fragment references. *)
Theorem attach_keeps_leaves_unique (root : Node) (e : Element)
  (tg : option string) :
  referents_unique root ->
  NoDup (leaf_referents (elements.tree e tg)) ->
  exists root' cs,
    add_element_to_tree root e tg = Ok root' /\
    leaves_unique root' /\
    children root' = cs ++ [set_name (label e) (elements.tree e tg)] /\
    forall r c m, In r (leaf_referents (elements.tree e tg)) -> In c cs ->
                  In m (preorder c) -> id m <> Some r.
Proof.
  intros Hnd Hfrag. unfold add_element_to_tree.
  pose proof (set_name_leaves_ids (label e) (elements.tree e tg)) as Hids.
  destruct (add_fragment_unique root
              (set_name (label e) (elements.tree e tg)) Hnd)
    as (root' & cs & Hadd & Hu & Hcs & Hout).
  - exact (Forall_has_id _ _ Hids (tree_leaves_have_id e tg)).
  - unfold leaf_referents. rewrite Hids. exact Hfrag.
  - exists root', cs. split; [exact Hadd|]. split; [exact Hu|].
    split; [exact Hcs|]. intros r c m Hr. apply Hout.
    unfold leaf_referents. rewrite Hids. exact Hr.
Qed.

End attach_facts.

(** Attaching the lens to the tree of the singlet before grouping. *)
Lemma attach_keeps_leaves_unique_witness :
  exists root' cs,
    parttree.add_element_to_tree ex.singlet_init ex.lens_E1 None = Ok root' /\
    leaves_unique root' /\
    children root'
    = cs ++ [set_name (label ex.lens_E1) (elements.tree ex.lens_E1 None)] /\
    forall r c m, In r (leaf_referents (elements.tree ex.lens_E1 None)) ->
                  In c cs -> In m (preorder c) -> id m <> Some r.
Proof.
  apply (attach_keeps_leaves_unique ex.singlet_init ex.lens_E1 None).
  - unfold referents_unique. refine (bool_decide_unpack _ _).
    vm_compute. exact I.
  - refine (bool_decide_unpack _ _). vm_compute. exact I.
Defined.

(** C4 as stated fails.  In the tree left by grouping the singlet and
    attaching the catalog once more, each referent is the referent of at
    most one leaf; attaching the lens again detaches the nodes of its two
    interfaces from their profile nodes, which become leaves that
    reference the profiles the stale profile nodes of the first
    attachment reference already. *)
Lemma attach_breaks_leaves_unique :
  exists t',
    parttree.add_element_model_to_tree
      (parttree.root_node ex.singlet_model)
      (parttree.ele_elements ex.singlet_model) = Ok ex.reattached /\
    leaves_unique ex.reattached /\
    parttree.add_element_to_tree ex.reattached ex.lens_E1 None = Ok t' /\
    ~ leaves_unique t'.
Proof.
  eexists. split; [vm_compute; reflexivity|]. split.
  - unfold leaves_unique. refine (bool_decide_unpack _ _).
    vm_compute. exact I.
  - split; [vm_compute; reflexivity|].
    unfold leaves_unique. intros H. apply (bool_decide_pack _) in H.
    vm_compute in H. exact H.
Qed.

(** ** The airgap classifier: [process_airgap] *)

Section emit_facts.

Import parttree elements.

Ltac ok_step := cbn [mbind result_bind py.bind of_option fst snd].

Lemma index_nat_inv {A} (l : list A) (i : nat) (a : A) :
  pylist.index l (Z.of_nat i) = Ok a -> nth_error l i = Some a.
Proof.
  unfold pylist.index.
  destruct (Z.ltb_spec (Z.of_nat i) 0) as [?|_]; [lia|].
  destruct (Z.ltb_spec (Z.of_nat i) 0) as [?|_]; [lia|].
  rewrite Nat2Z.id. destruct (nth_error l i); [|discriminate].
  intros [= ->]. reflexivity.
Qed.

Lemma find_some (f : Node -> bool) (t : Node) (p : path) :
  find f t = Ok (Some p) -> exists m, get t p = Some m /\ f m = true.
Proof.
  unfold find.
  destruct (List.filter (fun pn => f (snd pn)) (walk t)) as [|pn [|? ?]] eqn:Hf;
    try discriminate.
  intros [= <-].
  assert (Hin : In pn (List.filter (fun pn => f (snd pn)) (walk t)))
    by (rewrite Hf; left; reflexivity).
  apply filter_In in Hin. destruct Hin as [Hin Hpn].
  exists (snd pn). split; [|exact Hpn]. apply walk_get. destruct pn. exact Hin.
Qed.

(** Detaching a node leaves every child of the root that references
    something else in place, possibly with fewer descendants. *)
Lemma detach_keeps_child (t : Node) (p : path) (m c : Node) :
  get t p = Some m -> In c (children t) -> id m <> id c ->
  exists c', In c' (children (detach t p)) /\ same_attrs c c'.
Proof.
  intros Hget Hc Hne. destruct p as [|i p].
  - exists c. split; [exact Hc|]. repeat split.
  - cbn [get] in Hget.
    destruct (nth_error (children t) i) as [ci|] eqn:Hci; [|discriminate].
    destruct (nth_error_split _ _ Hci) as (b & a & Hcs & Hlen).
    destruct t as [nm r tg cs]. cbn [children] in *. subst cs i.
    apply in_app_or in Hc. destruct p as [|j p'].
    + cbn [get] in Hget. injection Hget as <-.
      cbn [detach name id tag children]. rewrite remove_nth_app.
      exists c. split; [|repeat split]. apply in_or_app.
      destruct Hc as [Hc|[Hc|Hc]]; [left; exact Hc| congruence |right; exact Hc].
    + change (detach (mkNode nm r tg (b ++ ci :: a)) (length b :: j :: p'))
        with (mkNode nm r tg
                (update_nth (fun c => detach c (j :: p')) (length b)
                            (b ++ ci :: a))).
      cbn [children]. rewrite update_nth_app.
      destruct Hc as [Hc|[Hc|Hc]].
      * exists c. split; [apply in_or_app; left; exact Hc|repeat split].
      * subst c. exists (detach ci (j :: p')). split.
        -- apply in_or_app. right. left. reflexivity.
        -- apply detach_attrs.
      * exists c. split; [|repeat split]. apply in_or_app. right. right. exact Hc.
Qed.

Lemma add_fragment_keeps_child (e_node : Node) :
  forall t t' c,
    add_fragment_to_tree t e_node = Ok t' ->
    In c (children t) ->
    (forall l, In l (leaves e_node) -> id l <> id c) ->
    exists c', In c' (children t') /\ same_attrs c c'.
Proof.
  unfold add_fragment_to_tree. intros t t' c Hadd.
  destruct (foldM _ (leaves e_node) t) as [t2|] eqn:Hfold; [|discriminate].
  cbn [mbind result_bind py.bind] in Hadd. injection Hadd as <-.
  intros Hc Hne.
  assert (Hkeep : exists c', In c' (children t2) /\ same_attrs c c').
  { revert t c Hfold Hc Hne.
    induction (leaves e_node) as [|l ls IH]; intros t c Hfold Hc Hne.
    - injection Hfold as <-. exists c. split; [exact Hc|repeat split].
    - cbn [foldM] in Hfold.
      destruct (id l) as [obj|] eqn:Hobj; [|discriminate]. ok_step.
      cbn [of_option mbind result_bind py.bind] in Hfold.
      destruct (node t obj) as [dup|] eqn:Hn; [|discriminate].
      cbn [py.bind] in Hfold.
      assert (Hstep : exists c1,
                 In c1 (children match dup with
                                 | Some p => detach t p
                                 | None => t
                                 end) /\ same_attrs c c1).
      { destruct dup as [p|].
        - destruct (find_some _ _ _ Hn) as (m & Hget & Hm).
          apply bool_decide_eq_true in Hm.
          apply (detach_keeps_child t p m c Hget Hc).
          rewrite Hm, <- Hobj. apply Hne. left. reflexivity.
        - exists c. split; [exact Hc|repeat split]. }
      destruct Hstep as (c1 & Hc1 & Hn1 & Hi1 & Ht1).
      destruct (IH _ c1 Hfold Hc1) as (c' & Hc' & Hn' & Hi' & Ht').
      + intros l' Hl'. rewrite Hi1. apply Hne. right. exact Hl'.
      + exists c'. split; [exact Hc'|]. repeat split; congruence. }
  destruct Hkeep as (c' & Hc' & Hs). exists c'. split; [|exact Hs].
  cbn [attach children]. apply in_or_app. left. exact Hc'.
Qed.

Lemma add_fragment_last (t t' e_node : Node) :
  add_fragment_to_tree t e_node = Ok t' -> In e_node (children t').
Proof.
  unfold add_fragment_to_tree.
  destruct (foldM _ (leaves e_node) t) as [t2|]; [|discriminate].
  cbn [mbind result_bind py.bind]. intros [= <-].
  cbn [attach children]. apply in_or_app. right. left. reflexivity.
Qed.

Lemma emit_inv (m m' : Model) (e : Element) (tg : option string) :
  emit m e tg = Ok m' ->
  ele_elements m' = ele_elements m ++ [e] /\
  next_oid m' = S (next_oid m) /\
  add_element_to_tree (root_node m) e tg = Ok (root_node m').
Proof.
  unfold emit. destruct (add_element_to_tree (root_node m) e tg) as [r|];
    [|discriminate].
  cbn [mbind result_bind py.bind]. intros [= <-]. auto.
Qed.

Lemma emit_dummy_then_airgap (m m1 m2 : Model) (lbl albl : string)
  (s : Interface) (g : Gap) (i : nat) (tg : option string) :
  emit m (new_DummyInterface (next_oid m) lbl s i) tg = Ok m1 ->
  emit m1 (new_AirGap (next_oid m1) albl g i) None = Ok m2 ->
  exists di ag nd,
    ele_elements m2 = ele_elements m ++ [di; ag] /\
    e_kind di = DummyInterface /\ e_ifcs di = [(i, s)] /\
    e_kind ag = AirGap /\
    In nd (children (root_node m2)) /\ id nd = Some (RElem di) /\
    tag nd = "#dummyifc" +:+ default "" tg.
Proof.
  intros H1 H2.
  destruct (emit_inv _ _ _ _ H1) as (He1 & _ & Ht1).
  destruct (emit_inv _ _ _ _ H2) as (He2 & _ & Ht2).
  unfold add_element_to_tree in Ht1, Ht2.
  pose proof (add_fragment_last _ _ _ Ht1) as Hlast.
  destruct (add_fragment_keeps_child _ _ _ _ Ht2 Hlast)
    as (nd & Hnd & _ & Hid & Htag).
  - intros l [<-|[]]. discriminate.
  - eexists. eexists. exists nd.
    split; [rewrite He2, He1, <- app_assoc; reflexivity|].
    repeat split; try reflexivity; assumption.
Qed.

(** C8.  For a transmitting surface that is not classified as a thin
    element, [process_airgap] emits a dummy interface exactly when the
    surface is the first one or the gap in front of it is air, followed
    by the air gap; the node of the dummy interface is tagged [#object]
    for the first surface, [#stop] when the index is the stop index
    and the gap in front is air, and carries no extra tag otherwise. *)
Theorem process_airgap_dummy_tag (seq_model : SequentialModel) (m : Model)
  (i : nat) (g : Gap) (s : Interface) (num_ele : nat) (add_ele : bool)
  (m' : Model) (n' : nat) :
  interact_mode s = "transmit" ->
  is_thinlens s && add_ele = false ->
  process_airgap seq_model m i g s num_ele add_ele = Ok (m', n') ->
  n' = num_ele /\
  if dummy_is_emitted seq_model i then
    exists di ag nd,
      ele_elements m' = ele_elements m ++ [di; ag] /\
      e_kind di = DummyInterface /\ e_ifcs di = [(i, s)] /\
      e_kind ag = AirGap /\
      In nd (children (root_node m')) /\ id nd = Some (RElem di) /\
      tag nd = expected_dummy_tag seq_model i
  else
    exists ag, ele_elements m' = ele_elements m ++ [ag] /\
               e_kind ag = AirGap.
Proof.
  intros Hmode Hthin. unfold process_airgap, dummy_is_emitted,
    expected_dummy_tag.
  rewrite Hmode, Hthin. cbn [String.eqb Ascii.eqb Bool.eqb andb].
  destruct i as [|i'].
  - cbn [Nat.eqb orb]. ok_step.
    destruct (emit m _ (Some "#object")) as [m1|] eqn:H1; [|discriminate].
    ok_step.
    destruct (emit m1 _ None) as [m2|] eqn:H2; [|discriminate].
    ok_step. intros [= <- <-]. split; [reflexivity|].
    exact (emit_dummy_then_airgap _ _ _ _ _ _ _ _ _ H1 H2).
  - cbn [Nat.eqb orb prev_gap_is_air].
    replace (Z.of_nat (S i') - 1)%Z with (Z.of_nat i') by lia.
    destruct (pylist.index (gaps seq_model) (Z.of_nat i')) as [gp|] eqn:Hgp;
      [|discriminate].
    rewrite (index_nat_inv _ _ _ Hgp). ok_step.
    destruct (is_air gp).
    + destruct (bool_decide (stop_surface seq_model = Some (S i'))); ok_step.
      * destruct (emit m _ (Some "#stop")) as [m1|] eqn:H1; [|discriminate].
        ok_step.
        destruct (emit m1 _ None) as [m2|] eqn:H2; [|discriminate].
        ok_step. intros [= <- <-]. split; [reflexivity|].
        exact (emit_dummy_then_airgap _ _ _ _ _ _ _ _ _ H1 H2).
      * destruct (emit m _ None) as [m1|] eqn:H1; [|discriminate].
        ok_step.
        destruct (emit m1 _ None) as [m2|] eqn:H2; [|discriminate].
        ok_step. intros [= <- <-]. split; [reflexivity|].
        exact (emit_dummy_then_airgap _ _ _ _ _ _ _ _ _ H1 H2).
    + ok_step.
      destruct (emit m _ None) as [m2|] eqn:H2; [|discriminate].
      ok_step. intros [= <- <-]. split; [reflexivity|].
      destruct (emit_inv _ _ _ _ H2) as (He & _ & _).
      eexists. split; [exact He|reflexivity].
Qed.

End emit_facts.

(** Plane 2 of [ex.aperture], the stop, with air in front of it. *)
Lemma process_airgap_dummy_tag_witness :
  exists di ag nd,
    parttree.ele_elements ex.aperture_stop
    = parttree.ele_elements ex.aperture_init ++ [di; ag] /\
    e_kind di = DummyInterface /\ e_ifcs di = [(2%nat, ex.plane 2)] /\
    e_kind ag = AirGap /\
    In nd (children (parttree.root_node ex.aperture_stop)) /\
    id nd = Some (RElem di) /\
    tag nd = "#dummyifc#stop".
Proof.
  apply (process_airgap_dummy_tag ex.aperture ex.aperture_init 2 (ex.air 2)
           (ex.plane 2) 0 true ex.aperture_stop 0);
    vm_compute; reflexivity.
Defined.

(** ** The labels of the grouping engine *)

Section numbering_facts.

Import parttree elements.

Ltac ok_step := cbn [mbind result_bind py.bind of_option fst snd].

(** Take apart the chains of binds that returned. *)
Ltac unbind :=
  repeat
    match goal with
    | H : (Ok _ ≫= _) = Ok _ |- _ => cbn [mbind result_bind py.bind] in H
    | H : (Raise _ ≫= _) = Ok _ |- _ => discriminate H
    | H : (?c ≫= _) = Ok _ |- _ =>
        let E := fresh "E" in destruct c eqn:E
    | H : context [match ?x with (_, _) => _ end] |- _ =>
        is_var x; destruct x
    | H : Ok _ = Ok _ |- _ => inversion H; subst; clear H
    end.

Lemma numbered_app (a b : list Element) :
  forall n,
    numbered n a -> numbered (n + count_physical a) b -> numbered n (a ++ b).
Proof.
  unfold count_physical.
  induction a as [|e a IH]; intros n Ha Hb; cbn [app].
  - rewrite Nat.add_0_r in Hb. exact Hb.
  - cbn [numbered List.filter] in *. destruct (physical e).
    + destruct Ha as [Hl Ha]. split; [exact Hl|]. apply IH; [exact Ha|].
      cbn [length] in Hb. replace (S n + length (List.filter physical a))%nat
        with (n + S (length (List.filter physical a)))%nat by lia. exact Hb.
    + destruct Ha as [Hl Ha]. split; [exact Hl|]. apply IH; assumption.
Qed.

(** The labels of the physical elements, read off in order, are the
    values of the counter. *)
Lemma numbered_physical_labels (l : list Element) :
  forall n,
    numbered n l ->
    map label (List.filter physical l)
    = map (fun x => label_format (e_kind (snd x)) (fst x))
          (pylist.enumerate (S n) (List.filter physical l)).
Proof.
  induction l as [|e l IH]; intros n Hn; [reflexivity|].
  cbn [numbered List.filter] in *. destruct (physical e).
  - destruct Hn as [Hl Hn]. cbn [map pylist.enumerate fst snd].
    rewrite Hl, (IH _ Hn). reflexivity.
  - destruct Hn as [_ Hn]. apply IH. exact Hn.
Qed.

Lemma count_physical_app (a b : list Element) :
  count_physical (a ++ b) = (count_physical a + count_physical b)%nat.
Proof. unfold count_physical. rewrite List.filter_app, length_app. reflexivity. Qed.

Lemma adds_refl (m : Model) (n : nat) : adds m n m n.
Proof.
  exists []. rewrite app_nil_r. repeat split. unfold count_physical. simpl. lia.
Qed.

Lemma adds_trans (m1 m2 m3 : Model) (n1 n2 n3 : nat) :
  adds m1 n1 m2 n2 -> adds m2 n2 m3 n3 -> adds m1 n1 m3 n3.
Proof.
  intros (a & Ha & Hna & ->) (b & Hb & Hnb & ->). exists (a ++ b).
  split; [rewrite Hb, Ha, app_assoc; reflexivity|].
  split; [apply numbered_app; assumption|].
  rewrite count_physical_app. lia.
Qed.

Lemma adds_airgap (m m' : Model) (n i : nat) (g : Gap) :
  emit m (new_AirGap (next_oid m) (label_format AirGap i) g i) None = Ok m' ->
  adds m n m' n.
Proof.
  intros H. destruct (emit_inv _ _ _ _ H) as (He & _ & _).
  eexists. split; [exact He|]. split.
  - cbn. split; [|exact I]. exists i, g. split; reflexivity.
  - unfold count_physical. cbn. lia.
Qed.

Lemma adds_dummy (m m' : Model) (n i : nat) (s : Interface) (lbl : string)
  (tg : option string) :
  lbl = "Object" \/ lbl = "Stop" \/ lbl = label_format DummyInterface i ->
  emit m (new_DummyInterface (next_oid m) lbl s i) tg = Ok m' ->
  adds m n m' n.
Proof.
  intros Hl H. destruct (emit_inv _ _ _ _ H) as (He & _ & _).
  eexists. split; [exact He|]. split.
  - cbn. split; [|exact I]. exists i, s. split; [reflexivity|exact Hl].
  - unfold count_physical. cbn. lia.
Qed.

Lemma adds_physical (m m' : Model) (n : nat) (e : Element) (tg : option string) :
  physical e = true -> label e = label_format (e_kind e) (S n) ->
  emit m e tg = Ok m' ->
  adds m n m' (S n).
Proof.
  intros Hp Hl H. destruct (emit_inv _ _ _ _ H) as (He & _ & _).
  exists [e]. split; [exact He|]. split.
  - cbn [numbered]. rewrite Hp. split; [exact Hl|exact I].
  - unfold count_physical. cbn [List.filter]. rewrite Hp. cbn. lia.
Qed.

Lemma process_airgap_adds (seq_model : SequentialModel) (m : Model)
  (i : nat) (g : Gap) (s : Interface) (n : nat) (add_ele : bool)
  (m' : Model) (n' : nat) :
  process_airgap seq_model m i g s n add_ele = Ok (m', n') ->
  adds m n m' n'.
Proof.
  unfold process_airgap. intros H.
  destruct (String.eqb (interact_mode s) "reflect" && add_ele).
  { unbind.
    eapply adds_trans; [|eapply adds_airgap; eassumption].
    eapply adds_physical; [| |eassumption]; reflexivity. }
  destruct (is_thinlens s && add_ele).
  { unbind.
    eapply adds_trans; [|eapply adds_airgap; eassumption].
    eapply adds_physical; [| |eassumption]; reflexivity. }
  destruct (String.eqb (interact_mode s) "transmit").
  - destruct (i =? 0)%nat.
    + unbind.
      eapply adds_trans; [|eapply adds_airgap; eassumption].
      eapply adds_dummy; [|eassumption]. auto.
    + unbind.
      destruct (is_air _).
      * destruct (bool_decide _); unbind;
          idtac;
          (eapply adds_trans; [|eapply adds_airgap; eassumption]);
          (eapply adds_dummy; [|eassumption]); auto.
      * unbind.
        eapply adds_airgap; eassumption.
  - unbind. eapply adds_airgap; eassumption.
Qed.

Lemma lens_branch_adds (m : Model) (n : nat) (b : bool)
  (eles : list entry) (cur cur' : entry) (m' : Model) (n' : nat) :
  lens_branch m n b eles cur = Ok (m', n', cur') ->
  adds m n m' n'.
Proof.
  unfold lens_branch. destruct cur as [[i ifc] g]. intros H.
  destruct (pylist.index eles 0) as [[[i1 s1] g1]|] eqn:E0;
    [|discriminate H].
  cbn [mbind result_bind py.bind] in H.
  destruct (emit m _ None) as [m1|] eqn:E1; [|discriminate H].
  cbn [mbind result_bind py.bind] in H.
  assert (Hadd : adds m n m1 (S n))
    by (eapply adds_physical; [| |exact E1]; reflexivity).
  destruct b.
  - unbind. destruct Hadd as (new & He & Hn & Hc).
    exists new. auto.
  - unbind. exact Hadd.
Qed.

Lemma cemented_branch_adds (m : Model) (n : nat) (b : bool) (num_eles : nat)
  (eles eles' : list entry) (cur cur' : entry) (m' : Model) (n' : nat) :
  cemented_branch m n b num_eles eles cur = Ok (m', n', eles', cur') ->
  adds m n m' n'.
Proof.
  unfold cemented_branch. intros H.
  destruct (emit m _ None) as [m1|] eqn:E1; [|discriminate H].
  cbn [mbind result_bind py.bind] in H.
  assert (Hadd : adds m n m1 (S n))
    by (eapply adds_physical; [| |exact E1]; reflexivity).
  match type of H with
  | (?c ≫= _) = Ok _ => destruct c as [root|]; [|discriminate H]
  end.
  unbind. destruct Hadd as (new & He & Hn & Hc). exists new. auto.
Qed.

Lemma loop_body_adds (seq_model : SequentialModel) (st st' : Loop)
  (x : nat * (Interface * option Gap)) :
  loop_body seq_model st x = Ok st' ->
  adds (l_model st) (num_elements st) (l_model st') (num_elements st').
Proof.
  unfold loop_body. destruct x as [i [ifc [g|]]]; intros H.
  2: { injection H as <-. apply adds_refl. }
  destruct (is_air g).
  2: { injection H as <-. apply adds_refl. }
  destruct (length (eles st) =? 0)%nat.
  { destruct (0 <? i)%nat.
    - destruct (process_airgap _ _ _ _ _ _ _) as [[m n]|] eqn:Hp;
        [|discriminate H].
      cbn [mbind result_bind py.bind fst snd] in H. injection H as <-.
      cbn [l_model num_elements].
      eapply process_airgap_adds. exact Hp.
    - injection H as <-. apply adds_refl. }
  match type of H with
  | (?c ≫= _) = Ok _ => destruct c as [cur|]; [|discriminate H]
  end.
  cbn [mbind result_bind py.bind] in H.
  match type of H with
  | (?c ≫= _) = Ok _ => destruct c as [[[[m n] [[i' ifc'] g']] eles']|] eqn:Hr;
                         [|discriminate H]
  end.
  cbn [mbind result_bind py.bind] in H.
  destruct (emit m _ None) as [m2|] eqn:E2; [|discriminate H].
  cbn [mbind result_bind py.bind] in H. injection H as <-.
  cbn [l_model num_elements].
  eapply adds_trans; [|eapply adds_airgap; exact E2].
  destruct (_ =? 1)%nat.
  - destruct (lens_branch _ _ _ _ _) as [[[m1 n1] c1]|] eqn:Hl;
      [|discriminate Hr].
    cbn [mbind result_bind py.bind] in Hr. inversion Hr; subst.
    eapply lens_branch_adds. exact Hl.
  - destruct (1 <? _)%nat.
    + destruct (cemented_branch _ _ _ _ _ _) as [[[[m1 n1] e1] c1]|] eqn:Hc;
        [|discriminate Hr].
      cbn [mbind result_bind py.bind] in Hr. inversion Hr; subst.
      eapply cemented_branch_adds. exact Hc.
    + inversion Hr; subst. apply adds_refl.
Qed.

Lemma foldM_adds (seq_model : SequentialModel)
  (xs : list (nat * (Interface * option Gap))) :
  forall st st',
    foldM (loop_body seq_model) xs st = Ok st' ->
    adds (l_model st) (num_elements st) (l_model st') (num_elements st').
Proof.
  induction xs as [|x xs IH]; intros st st' H; cbn [foldM] in H.
  - injection H as <-. apply adds_refl.
  - destruct (loop_body seq_model st x) as [st1|] eqn:H1; [|discriminate H].
    cbn [py.bind] in H.
    eapply adds_trans; [eapply loop_body_adds; exact H1|].
    apply IH. exact H.
Qed.

(** What a run of the grouping engine adds is numbered from 0. *)
Lemma elements_from_sequence_adds (seq_model : SequentialModel)
  (m m' : Model) :
  elements_from_sequence seq_model m = Ok m' ->
  exists new, ele_elements m' = ele_elements m ++ new /\ numbered 0 new.
Proof.
  unfold elements_from_sequence. intros H.
  match type of H with
  | (?c ≫= _) = Ok _ => destruct c as [root|]; [|discriminate H]
  end.
  cbn [mbind result_bind py.bind] in H.
  match type of H with
  | (?c ≫= _) = Ok _ => destruct c as [st|] eqn:Hf; [|discriminate H]
  end.
  cbn [mbind result_bind py.bind] in H. injection H as <-.
  destruct (foldM_adds _ _ _ _ Hf) as (new & He & Hn & _).
  exists new. split; [exact He|exact Hn].
Qed.

Lemma numbered_In (e : Element) (l : list Element) :
  forall n,
    numbered n l -> In e l -> physical e = false -> labelled_by_index e.
Proof.
  induction l as [|a l IH]; intros n Hn Hin Hp; [destruct Hin|].
  cbn [numbered] in Hn. destruct Hin as [->|Hin].
  - rewrite Hp in Hn. exact (proj1 Hn).
  - destruct (physical a); destruct Hn as [_ Hn]; eapply IH; eassumption.
Qed.

End numbering_facts.

(** * Further properties of the code *)

(** ** Lookups *)

Section more_lookup_facts.

Import parttree.

Lemma walk_unfold (nm : string) (i : option referent) (tg : string)
  (cs : list Node) :
  walk (mkNode nm i tg cs) = ([], mkNode nm i tg cs) :: walk_from 0 cs.
Proof.
  reflexivity.
Qed.

(** X1.  [PartTree.node] returns [None] when no node references the
    object, the place of the node when exactly one does, and raises
    [CountError] when several do. *)
Theorem node_by_count (root : Node) (obj : referent) :
  match referencing root obj with
  | [] => node root obj = Ok None
  | [m] => exists p, node root obj = Ok (Some p) /\ get root p = Some m
  | _ :: _ :: _ => node root obj = Raise CountError
  end.
Proof.
  unfold referencing, node, find_by_id, find.
  rewrite <- walk_preorder, <- filter_map_snd.
  destruct (List.filter _ (walk root)) as [|pn [|qn l]] eqn:Hf;
    cbn [map]; try reflexivity.
  exists (fst pn). split; [reflexivity|].
  apply walk_get.
  assert (Hin : In pn (List.filter
                         (fun pn => bool_decide (id (snd pn) = Some obj))
                         (walk root)))
    by (rewrite Hf; left; reflexivity).
  apply filter_In in Hin. destruct pn. exact (proj1 Hin).
Qed.

Lemma ancestors_snoc (p : path) (i : nat) :
  ancestors (p ++ [i]) = p :: ancestors p.
Proof.
  unfold ancestors. rewrite length_app. cbn [length].
  rewrite Nat.add_1_r, seq_S, rev_app_distr. cbn [rev app map Nat.add].
  f_equal.
  - rewrite firstn_app, Nat.sub_diag, firstn_all. cbn [firstn].
    apply app_nil_r.
  - apply map_ext_in. intros k Hk. apply in_rev, in_seq in Hk.
    rewrite firstn_app.
    replace (k - length p)%nat with 0%nat by lia.
    cbn [firstn]. apply app_nil_r.
Qed.

(** The loop of [parent_node] stops at the nearest ancestor whose tag
    matches. *)
Lemma climb_nearest (root : Node) (tags : list string) (p : path) :
  forall q,
    climb root tags (ancestors p) = Some q ->
    exists k n,
      (k < length p)%nat /\ q = firstn k p /\
      get root q = Some n /\ tag_matches tags n = true /\
      forall k' n', (k < k' < length p)%nat ->
                    get root (firstn k' p) = Some n' ->
                    tag_matches tags n' = false.
Proof.
  induction p as [|i p IH] using rev_ind; intros q Hq; [discriminate|].
  rewrite ancestors_snoc in Hq. cbn [climb] in Hq.
  destruct (get root p) as [n|] eqn:Hn; [|discriminate].
  rewrite length_app. cbn [length].
  destruct (tag_matches tags n) eqn:Hm.
  - injection Hq as <-. exists (length p), n.
    rewrite firstn_app, Nat.sub_diag, firstn_all. cbn [firstn].
    rewrite app_nil_r. repeat split; try assumption; try lia.
  - destruct (IH q Hq) as (k & m & Hk & -> & Hget & Hmatch & Hnear).
    exists k, m. split; [lia|]. split.
    { rewrite firstn_app. replace (k - length p)%nat with 0%nat by lia.
      cbn [firstn]. rewrite app_nil_r. reflexivity. }
    split; [exact Hget|]. split; [exact Hmatch|].
    intros k' n' Hk' Hget'.
    destruct (Nat.eq_dec k' (length p)) as [->|Hne].
    + rewrite firstn_app, Nat.sub_diag, firstn_all in Hget'.
      cbn [firstn] in Hget'. rewrite app_nil_r in Hget'. congruence.
    + apply (Hnear k' n'); [lia|].
      rewrite firstn_app in Hget'.
      replace (k' - length p)%nat with 0%nat in Hget' by lia.
      cbn [firstn] in Hget'. rewrite app_nil_r in Hget'. exact Hget'.
Qed.

(** X2.  When [parent_object] returns an object, it is the referent of
    a proper ancestor of the node of [obj] whose tag contains one of the
    names of the filter, and no nearer ancestor has such a tag. *)
Theorem parent_object_nearest (root : Node) (obj : referent) (tg : string)
  (r : referent) :
  parent_object root obj tg = Ok (Some r) ->
  exists p k n,
    node root obj = Ok (Some p) /\ (k < length p)%nat /\
    parent_node root obj tg = Ok (Some (firstn k p)) /\
    get root (firstn k p) = Some n /\ id n = Some r /\
    tag_matches (tl (pystr.split "#" tg)) n = true /\
    forall k' n', (k < k' < length p)%nat ->
                  get root (firstn k' p) = Some n' ->
                  tag_matches (tl (pystr.split "#" tg)) n' = false.
Proof.
  unfold parent_object, parent_node.
  destruct (node root obj) as [[p|]|] eqn:Hnode;
    cbn [mbind result_bind py.bind]; try discriminate.
  destruct (climb root _ (ancestors p)) as [q|] eqn:Hq; [|discriminate].
  destruct (climb_nearest _ _ _ _ Hq) as (k & n & Hk & -> & Hget & Hm & Hnear).
  rewrite Hget. destruct (id n) as [r'|] eqn:Hid; [|discriminate].
  cbn [of_option mbind result_bind py.bind]. intros [= <-].
  exists p, k, n. repeat split; assumption.
Qed.

End more_lookup_facts.

(** The lens node encloses the leaf of surface A in the grouped
    singlet. *)
Lemma parent_object_nearest_witness :
  exists p k n,
    parttree.node (parttree.root_node ex.singlet_model) (RIfc ex.s_A)
    = Ok (Some p) /\ (k < length p)%nat /\
    parttree.parent_node (parttree.root_node ex.singlet_model)
      (RIfc ex.s_A) parttree.default_filter = Ok (Some (firstn k p)) /\
    get (parttree.root_node ex.singlet_model) (firstn k p) = Some n /\
    id n = Some (RElem ex.lens_E1) /\
    parttree.tag_matches (tl (pystr.split "#" parttree.default_filter)) n
    = true /\
    forall k' n', (k < k' < length p)%nat ->
                  get (parttree.root_node ex.singlet_model) (firstn k' p)
                  = Some n' ->
                  parttree.tag_matches
                    (tl (pystr.split "#" parttree.default_filter)) n'
                  = false.
Proof.
  apply (parent_object_nearest (parttree.root_node ex.singlet_model)
           (RIfc ex.s_A) parttree.default_filter (RElem ex.lens_E1)).
  vm_compute. reflexivity.
Defined.

(** ** Tag filters *)

Section tag_facts.

Import parttree.

Lemma split_nonempty (sep : ascii) (s : string) : pystr.split sep s <> [].
Proof.
  destruct s as [|c s]; cbn [pystr.split]; [discriminate|].
  destruct (Ascii.eqb c sep); [discriminate|].
  destruct (pystr.split sep s); discriminate.
Qed.

(** Splitting at a separator splits on both sides of it. *)
Lemma split_at_sep (sep : ascii) (a b : string) :
  pystr.split sep (a +:+ String sep b)
  = pystr.split sep a ++ pystr.split sep b.
Proof.
  induction a as [|c a IH].
  - rewrite append_nil. cbn [pystr.split]. rewrite Ascii.eqb_refl.
    reflexivity.
  - rewrite append_cons. cbn [pystr.split].
    destruct (Ascii.eqb c sep); rewrite IH; [reflexivity|].
    pose proof (split_nonempty sep a) as Hne.
    destruct (pystr.split sep a) as [|w ws]; [congruence|reflexivity].
Qed.

Lemma tag_matches_app (t1 t2 : list string) (n : Node) :
  tag_matches (t1 ++ t2) n = tag_matches t1 n || tag_matches t2 n.
Proof. unfold tag_matches. apply existsb_app. Qed.

(** X3.  A filter made of two filters selects, in pre-order, the nodes
    that one of the two selects: [nodes_with_tag] with [t1 + '#' + t2]
    holds a node exactly when [nodes_with_tag] with [t1] or with
    ['#' + t2] does. *)
Theorem nodes_with_tag_union (root : Node) (t1 t2 : string) (n : Node) :
  In n (nodes_with_tag root (t1 +:+ String "#" t2)) <->
  In n (nodes_with_tag root t1) \/
  In n (nodes_with_tag root (String "#" t2)).
Proof.
  unfold nodes_with_tag. rewrite !filter_In, split_at_sep.
  assert (Htl : tl (pystr.split "#" t1 ++ pystr.split "#" t2)
                = tl (pystr.split "#" t1) ++ pystr.split "#" t2).
  { pose proof (split_nonempty "#" t1) as Hne.
    destruct (pystr.split "#" t1); [congruence|reflexivity]. }
  rewrite Htl, tag_matches_app, orb_true_iff.
  cbn [pystr.split Ascii.eqb Bool.eqb tl]. tauto.
Qed.

End tag_facts.

(** ** Attaching a fragment, on any tree *)

Section more_attach_facts.

Import parttree.

Lemma filter_map_comm {A B} (f : B -> bool) (g : A -> B) (l : list A) :
  List.filter f (map g l) = map g (List.filter (fun a => f (g a)) l).
Proof.
  induction l as [|a l IH]; [reflexivity|].
  cbn [map List.filter]. destruct (f (g a)); cbn [map]; congruence.
Qed.

Lemma ids_walk (t : Node) : ids t = map (fun pn => id (snd pn)) (walk t).
Proof. unfold ids. rewrite <- walk_preorder, map_map. reflexivity. Qed.

Lemma filter_nil_not_in (x : option referent) (l : list (option referent)) :
  List.filter (fun o => bool_decide (o = x)) l = [] -> ~ In x l.
Proof.
  intros Hf Hin.
  assert (H : In x (List.filter (fun o => bool_decide (o = x)) l)).
  { apply filter_In. split; [exact Hin|]. apply bool_decide_eq_true.
    reflexivity. }
  rewrite Hf in H. exact H.
Qed.

(** A lookup that returns a node has found the only node that
    references the object. *)
Lemma node_some_only (t : Node) (obj : referent) (p : path) :
  node t obj = Ok (Some p) ->
  exists m,
    get t p = Some m /\ id m = Some obj /\
    List.filter (fun o => bool_decide (o = Some obj)) (ids t) = [Some obj].
Proof.
  intros Hn. destruct (find_some _ _ _ Hn) as (m & Hget & Hm).
  apply bool_decide_eq_true in Hm. exists m. split; [exact Hget|].
  split; [exact Hm|].
  rewrite ids_walk, filter_map_comm. revert Hn. unfold node, find_by_id, find.
  destruct (List.filter _ (walk t)) as [|pn [|? ?]] eqn:Hf; try discriminate.
  intros _. cbn [map]. f_equal.
  assert (Hin : In pn (List.filter
                         (fun pn => bool_decide (id (snd pn) = Some obj))
                         (walk t)))
    by (rewrite Hf; left; reflexivity).
  apply filter_In in Hin.
  exact (proj1 (bool_decide_eq_true _) (proj2 Hin)).
Qed.

Lemma node_none_absent (t : Node) (obj : referent) :
  node t obj = Ok None -> ~ In (Some obj) (ids t).
Proof.
  unfold node, find_by_id, find. intros Hn.
  apply filter_nil_not_in. rewrite ids_walk, filter_map_comm.
  destruct (List.filter _ (walk t)) as [|pn [|? ?]]; try discriminate.
  reflexivity.
Qed.

Lemma filter_app_single {A} (f : A -> bool) (l1 l2 l3 : list A) (a : A) :
  List.filter f (l1 ++ l2 ++ l3) = [a] -> List.filter f l2 <> [] ->
  List.filter f l1 = [] /\ List.filter f l3 = [].
Proof.
  rewrite !List.filter_app. intros H Hne.
  apply (f_equal (@length A)) in H. rewrite !length_app in H. cbn in H.
  destruct (List.filter f l2); [congruence|]. cbn [length] in H.
  destruct (List.filter f l1), (List.filter f l3); cbn [length] in H;
    try lia. auto.
Qed.

(** One iteration of the loop of [add_element_to_tree] whose lookup
    returned: below the root nodes only disappear, and none of those
    left references the object. *)
Lemma detach_found (t : Node) (obj : referent) (dup_node : option path) :
  node t obj = Ok dup_node ->
  let t2 := match dup_node with
            | Some p => detach t p
            | None => t
            end in
  name t2 = name t /\ id t2 = id t /\ tag t2 = tag t /\
  sublist (kids_ids t2) (kids_ids t) /\
  ~ In (Some obj) (kids_ids t2).
Proof.
  intros Hn. destruct dup_node as [p|]; cbn zeta.
  - destruct (node_some_only _ _ _ Hn) as (m & Hget & Hid & Hone).
    destruct (detach_attrs t p) as (Ha & Hb & Hc).
    split; [exact Ha|]. split; [exact Hb|]. split; [exact Hc|].
    rewrite ids_cons in Hone. destruct p as [|i p].
    + cbn [detach]. split; [reflexivity|].
      cbn [get] in Hget. injection Hget as <-.
      rewrite Hid in Hone. cbn [List.filter] in Hone.
      rewrite bool_decide_eq_true_2 in Hone by reflexivity.
      injection Hone as Hone. apply filter_nil_not_in. exact Hone.
    + destruct (detach_kids_ids (i :: p) t m ltac:(discriminate) Hget)
        as (l1 & l2 & Hk & Hd).
      rewrite Hd, Hk. split.
      * apply sublist_app; [reflexivity|]. apply sublist_inserts_l.
        reflexivity.
      * rewrite Hk in Hone.
        change (id t :: l1 ++ ids m ++ l2)
          with (([id t] ++ l1) ++ ids m ++ l2) in Hone.
        destruct (filter_app_single _ _ _ _ _ Hone) as [H1 H2].
        { rewrite ids_cons, Hid. cbn [List.filter].
          rewrite bool_decide_eq_true_2 by reflexivity. discriminate. }
        rewrite List.filter_app in H1. apply app_eq_nil in H1.
        intros Hin. apply in_app_or in Hin. destruct Hin as [Hin|Hin].
        -- exact (filter_nil_not_in _ _ (proj2 H1) Hin).
        -- exact (filter_nil_not_in _ _ H2 Hin).
  - repeat split; try reflexivity.
    intros Hin. apply (node_none_absent _ _ Hn). rewrite ids_cons.
    right. exact Hin.
Qed.

Lemma detach_all_found (ls : list Node) :
  forall t t',
    foldM (fun root leaf_node =>
             obj ← of_option AttributeError (id leaf_node);
             dup_node ← node root obj;
             Ok match dup_node with
                | Some p => detach root p
                | None => root
                end) ls t = Ok t' ->
    name t' = name t /\ id t' = id t /\ tag t' = tag t /\
    sublist (kids_ids t') (kids_ids t) /\
    forall r, In r (somes (map id ls)) -> ~ In (Some r) (kids_ids t').
Proof.
  induction ls as [|l ls IH]; intros t t' Hf; cbn [foldM] in Hf.
  - injection Hf as <-. repeat split; try reflexivity. intros r [].
  - destruct (id l) as [obj|] eqn:Hobj; [|discriminate].
    cbn [of_option mbind result_bind py.bind] in Hf.
    destruct (node t obj) as [dup|] eqn:Hn; [|discriminate].
    cbn [py.bind] in Hf.
    destruct (detach_found _ _ _ Hn) as (Ha & Hb & Hc & Hsub & Hnot).
    destruct (IH _ _ Hf) as (Ha' & Hb' & Hc' & Hsub' & Hnot').
    split; [congruence|]. split; [congruence|]. split; [congruence|].
    split; [etransitivity; eassumption|].
    cbn [map somes]. rewrite Hobj. intros r [<-|Hr].
    + intros Hin. apply Hnot. exact (sublist_In _ _ _ Hsub' Hin).
    + apply Hnot'. exact Hr.
Qed.

(** Lines 66 to 72 of [add_element_to_tree], on any tree and for any
    fragment. *)
Lemma add_fragment_outside (t e_node t' : Node) :
  add_fragment_to_tree t e_node = Ok t' ->
  name t' = name t /\ id t' = id t /\ tag t' = tag t /\
  exists cs,
    children t' = cs ++ [e_node] /\
    sublist (flat_map ids cs) (kids_ids t) /\
    forall r, In r (leaf_referents e_node) ->
              ~ In (Some r) (flat_map ids cs).
Proof.
  unfold add_fragment_to_tree. intros H.
  match type of H with
  | (?c ≫= _) = Ok _ => destruct c as [t2|] eqn:Hf; [|discriminate H]
  end.
  cbn [mbind result_bind py.bind] in H. injection H as <-.
  destruct (detach_all_found _ _ _ Hf) as (Ha & Hb & Hc & Hsub & Hnot).
  cbn [attach name id tag children]. repeat split; try assumption.
  exists (children t2). repeat split; assumption.
Qed.

(** X4.  Whenever lines 66 to 72 of [add_element_to_tree] return, on any
    tree and for any fragment: the root keeps its name, referent and tag;
    the fragment is its last child; below the root and outside the
    fragment, nodes have only disappeared, in place; and none of the
    nodes left there references the object of a leaf of the fragment. *)
Theorem add_fragment_supersedes (t e_node t' : Node) :
  add_fragment_to_tree t e_node = Ok t' ->
  name t' = name t /\ id t' = id t /\ tag t' = tag t /\
  exists cs,
    children t' = cs ++ [e_node] /\
    sublist (flat_map ids cs) (kids_ids t) /\
    forall r, In r (leaf_referents e_node) ->
              ~ In (Some r) (flat_map ids cs).
Proof. exact (add_fragment_outside t e_node t'). Qed.

Lemma walk_from_app (l1 l2 : list Node) :
  forall k,
    walk_from k (l1 ++ l2)
    = walk_from k l1 ++ walk_from (k + length l1) l2.
Proof.
  induction l1 as [|c l1 IH]; intros k; cbn [app walk_from length].
  - rewrite Nat.add_0_r. reflexivity.
  - rewrite IH, <- app_assoc.
    replace (S k + length l1)%nat with (k + S (length l1))%nat by lia.
    reflexivity.
Qed.

Lemma walk_from_ids (cs : list Node) :
  forall k,
    map (fun pn => id (snd pn)) (walk_from k cs) = flat_map ids cs.
Proof.
  induction cs as [|c cs IH]; intros k; [reflexivity|].
  cbn [walk_from flat_map]. rewrite map_app, map_map, IH.
  cbn [snd]. rewrite <- ids_walk. reflexivity.
Qed.

Lemma find_some_filter (f : Node -> bool) (t : Node) (q : path) :
  find f t = Ok (Some q) ->
  exists m, List.filter (fun pn => f (snd pn)) (walk t) = [(q, m)].
Proof.
  unfold find.
  destruct (List.filter _ (walk t)) as [|[q' m] [|? ?]]; try discriminate.
  intros [= <-]. exists m. reflexivity.
Qed.

(** Where a lookup finds an object of the fragment that was attached
    last. *)
Lemma lookup_in_attached (t e_node t' : Node) (obj : referent) (q : path) :
  add_fragment_to_tree t e_node = Ok t' ->
  In obj (leaf_referents e_node) ->
  find_by_id e_node obj = Ok (Some q) ->
  id t <> Some obj ->
  exists cs,
    children t' = cs ++ [e_node] /\
    node t' obj = Ok (Some (length cs :: q)).
Proof.
  intros Hadd Hleaf Hfind Hroot.
  destruct (add_fragment_outside _ _ _ Hadd)
    as (_ & Hid & _ & cs & Hcs & _ & Hnot).
  exists cs. split; [exact Hcs|].
  destruct t' as [nm i tg cs']. cbn [children id] in Hcs, Hid. subst cs' i.
  unfold node, find_by_id, find. rewrite walk_unfold.
  cbn [List.filter snd id].
  rewrite bool_decide_eq_false_2 by exact Hroot.
  rewrite walk_from_app, List.filter_app. cbn [walk_from Nat.add].
  rewrite app_nil_r.
  assert (Hout : List.filter
                   (fun pn => bool_decide (id (snd pn) = Some obj))
                   (walk_from 0 cs) = []).
  { destruct (List.filter _ (walk_from 0 cs)) as [|pn l] eqn:Hf;
      [reflexivity|exfalso].
    assert (Hin : In pn (List.filter
                           (fun pn => bool_decide (id (snd pn) = Some obj))
                           (walk_from 0 cs)))
      by (rewrite Hf; left; reflexivity).
    apply filter_In in Hin. destruct Hin as [Hin Hpn].
    apply bool_decide_eq_true in Hpn.
    apply (Hnot obj Hleaf). rewrite <- (walk_from_ids cs 0), <- Hpn.
    apply (in_map (fun pn => id (snd pn))). exact Hin. }
  rewrite Hout. cbn [app].
  destruct (find_some_filter _ _ _ Hfind) as (m & Hm).
  rewrite (filter_map_comm
             (fun pn : path * Node => bool_decide (id (snd pn) = Some obj))
             (fun pn : path * Node => (length cs :: fst pn, snd pn))).
  cbn [snd]. rewrite Hm. reflexivity.
Qed.

(** X5.  After a fragment has been attached, looking up an object that
    exactly one node of the fragment references, and that the root does
    not reference, returns that node of the fragment: the later
    attachment owns the object. *)
Theorem lookup_after_attach (t e_node t' : Node) (obj : referent)
  (q : path) :
  add_fragment_to_tree t e_node = Ok t' ->
  In obj (leaf_referents e_node) ->
  find_by_id e_node obj = Ok (Some q) ->
  id t <> Some obj ->
  exists k,
    nth_error (children t') k = Some e_node /\
    node t' obj = Ok (Some (k :: q)).
Proof.
  intros Hadd Hleaf Hfind Hroot.
  destruct (lookup_in_attached _ _ _ _ _ Hadd Hleaf Hfind Hroot)
    as (cs & Hcs & Hn).
  exists (length cs). split; [|exact Hn].
  rewrite Hcs, nth_error_app2, Nat.sub_diag by lia. reflexivity.
Qed.

End more_attach_facts.

(** The lens attached to the tree of the singlet before grouping. *)
Lemma add_fragment_supersedes_witness :
  exists t',
    parttree.add_element_to_tree ex.singlet_init ex.lens_E1 None = Ok t' /\
    name t' = "root" /\ id t' = Some RTree /\
    exists cs,
      children t'
      = cs ++ [set_name "E1" (elements.tree ex.lens_E1 None)] /\
      sublist (flat_map ids cs) (kids_ids ex.singlet_init) /\
      forall r,
        In r (leaf_referents
                (set_name "E1" (elements.tree ex.lens_E1 None))) ->
        ~ In (Some r) (flat_map ids cs).
Proof.
  eexists. split; [vm_compute; reflexivity|].
  match goal with
  | |- context [name ?t] =>
      destruct (add_fragment_supersedes ex.singlet_init
                  (set_name "E1" (elements.tree ex.lens_E1 None)) t)
        as (Ha & Hb & _ & Hcs)
  end.
  - vm_compute. reflexivity.
  - split; [exact Ha|]. split; [exact Hb|exact Hcs].
Defined.

(** After that attachment, surface A is found under the lens. *)
Lemma lookup_after_attach_witness :
  exists t' k,
    parttree.add_element_to_tree ex.singlet_init ex.lens_E1 None = Ok t' /\
    nth_error (children t') k
    = Some (set_name "E1" (elements.tree ex.lens_E1 None)) /\
    parttree.node t' (RIfc ex.s_A) = Ok (Some [k; 0; 0]%nat).
Proof.
  eexists.
  match goal with
  | |- exists k, _ = Ok ?t /\ _ =>
      destruct (lookup_after_attach ex.singlet_init
                  (set_name "E1" (elements.tree ex.lens_E1 None)) t
                  (RIfc ex.s_A) [0; 0]%nat) as (k & Hk & Hn)
  end.
  - vm_compute. reflexivity.
  - vm_compute. left. reflexivity.
  - vm_compute. reflexivity.
  - discriminate.
  - exists k. split; [vm_compute; reflexivity|]. split; assumption.
Defined.

(** ** The interior nodes, when the gap list is short *)

Section more_init_facts.

Import parttree.

Variable seq_model : SequentialModel.

Lemma index_past {A} (l : list A) (i : nat) :
  (length l <= i)%nat -> pylist.index l (Z.of_nat i) = Raise IndexError.
Proof.
  intros H. unfold pylist.index.
  destruct (Z.ltb_spec (Z.of_nat i) 0) as [?|_]; [lia|].
  destruct (Z.ltb_spec (Z.of_nat i) 0) as [?|_]; [lia|].
  rewrite Nat2Z.id, (proj2 (nth_error_None l i) H). reflexivity.
Qed.

Lemma init_fold_short (l : list Interface) :
  forall (k : nat) (root : Node),
    l <> [] -> (length (gaps seq_model) < k + length l)%nat ->
    foldM (fun root (x : nat * Interface) =>
             let '(i, s) := x in
             let root :=
               attach root [] (mkNode ("i" +:+ pystr.str i) (Some (RIfc s))
                                      "#ifc" []) in
             gap ← pylist.index (gaps seq_model) (Z.of_nat i);
             Ok (attach root [] (mkNode ("g" +:+ pystr.str i)
                                        (Some (RGap gap)) "#gap" [])))
          (pylist.enumerate k l) root
    = Raise IndexError.
Proof.
  induction l as [|s l IH]; intros k root Hne Hlen; [congruence|].
  cbn [pylist.enumerate foldM].
  destruct (le_lt_dec (length (gaps seq_model)) k) as [Hk|Hk].
  - rewrite (index_past _ _ Hk). reflexivity.
  - destruct (nth_error (gaps seq_model) k) as [g|] eqn:Hgk;
      [|apply nth_error_None in Hgk; lia].
    rewrite (index_nat _ _ _ Hgk). cbn [py.bind mbind result_bind].
    apply IH.
    + destruct l; [cbn [length] in Hlen; lia|discriminate].
    + cbn [length] in Hlen. lia.
Qed.

(** X6.  [init_from_sequence] returns the tree as it is when the
    sequence has fewer than three surfaces, and so no interior surface;
    otherwise it raises [IndexError] when some interior surface has no gap
    of its index behind it (at most as many gaps as interior surfaces),
    and in every other case it returns the tree with the nodes of the
    interior surfaces and of the gaps behind them added under the root,
    after the children the root had. *)
Theorem init_from_sequence_outcome (root : Node) :
  init_from_sequence root seq_model
  = if (length (ifcs seq_model) <? 3)%nat then Ok root
    else if (length (gaps seq_model) + 2 <=? length (ifcs seq_model))%nat
    then Raise IndexError
    else Ok (mkNode (name root) (id root) (tag root)
                    (children root ++ interior_nodes seq_model)).
Proof.
  unfold init_from_sequence.
  destruct (Nat.ltb_spec (length (ifcs seq_model)) 3) as [H3|H3].
  - assert (Hnil : pylist.inner (ifcs seq_model) = []).
    { apply length_zero_iff_nil. rewrite inner_length. lia. }
    rewrite Hnil. reflexivity.
  - destruct (Nat.leb_spec (length (gaps seq_model) + 2)
                           (length (ifcs seq_model))) as [Hlen|Hlen].
    + apply init_fold_short.
      * intros Hnil. apply (f_equal (@length Interface)) in Hnil.
        rewrite inner_length in Hnil. cbn [length] in Hnil. lia.
      * rewrite inner_length. lia.
    + unfold interior_nodes. rewrite init_fold.
      * rewrite inner_length. reflexivity.
      * intros j s Hj. split.
        -- apply inner_nth. assumption.
        -- assert (j < length (pylist.inner (ifcs seq_model)))%nat
             by (apply nth_error_Some; congruence).
           rewrite inner_length in H. lia.
Qed.

End more_init_facts.

(** ** The two directions of synchronisation, on any tree *)

Section more_sync_facts.

Import parttree elements.

Variable els : list Element.
Variable seq_model : SequentialModel.

Ltac ok_step := cbn [mbind result_bind py.bind of_option fst snd].

Lemma mapM_inv {A B} (f : A -> result B) (l : list A) :
  forall l', mapM f l = Ok l' -> List.Forall2 (fun a b => f a = Ok b) l l'.
Proof.
  induction l as [|a l IH]; intros l' H.
  - injection H as <-. constructor.
  - rewrite mapM_cons in H. destruct (f a) as [b|] eqn:Hb; [|discriminate].
    ok_step. cbn [mbind result_bind py.bind] in H.
    destruct (mapM f l) as [bs|] eqn:Hbs; [|discriminate].
    injection H as <-. constructor; [exact Hb|]. apply IH. reflexivity.
Qed.

Lemma find_index_first {A B} (eqb : A -> B -> bool) (x : B) (l : list A) :
  forall k,
    pylist.find_index eqb x l = Some k ->
    exists a, nth_error l k = Some a /\ eqb a x = true /\
              forall j a', (j < k)%nat -> nth_error l j = Some a' ->
                           eqb a' x = false.
Proof.
  induction l as [|a l IH]; intros k H; [discriminate|].
  cbn [pylist.find_index] in H. destruct (eqb a x) eqn:Ha.
  - injection H as <-. exists a. repeat split; [exact Ha|]. intros; lia.
  - destruct (pylist.find_index eqb x l) as [k'|]; [|discriminate].
    injection H as <-. destruct (IH k' eq_refl) as (a0 & Hn & He & Hlt).
    exists a0. repeat split; [exact Hn|exact He|].
    intros [|j] a' Hj Hnth.
    + injection Hnth as <-. exact Ha.
    + apply (Hlt j a'); [lia|exact Hnth].
Qed.

(** The skeleton of a tree that the restore loop returned. *)
Lemma restore_from_export (t : Node) :
  forall p_name t',
    restore_from els seq_model p_name t = Ok t' -> export t' = export t.
Proof.
  induction t as [nm i tg cs IH] using Node_ind'. intros p_name t' H.
  cbn [restore_from] in H.
  destruct (restore_id els seq_model p_name (mkNode nm i tg cs)) as [i'|];
    [|discriminate].
  cbn [mbind result_bind py.bind] in H.
  destruct (mapM (restore_from els seq_model (Some nm)) cs) as [cs'|] eqn:Hm;
    [|discriminate].
  cbn [mbind result_bind py.bind] in H. injection H as <-.
  cbn [export]. f_equal. apply mapM_inv in Hm.
  induction Hm as [|c c' cs cs' Hc _ IHm]; [reflexivity|].
  inversion IH as [|? ? Hc0 Hcs0]; subst. cbn [map]. f_equal.
  - exact (Hc0 _ _ Hc).
  - apply IHm. exact Hcs0.
Qed.

(** X7.  Whenever [sync_part_tree_on_restore] returns, on any tree, the
    tree it returns has the names, the tags and the shape of the tree it
    was given: the restore direction writes referents only. *)
Theorem restore_keeps_skeleton (t t' : Node) :
  sync_part_tree_on_restore els seq_model t = Ok t' ->
  export t' = export t.
Proof. apply restore_from_export. Qed.

(** What the update loop returned, pair by pair in pre-order, from what
    one iteration does at a node. *)
Lemma update_from_pairs (P : Node -> Node -> Prop) :
  (forall p_name nm i tg cs nm' i' cs',
     update_name_id els seq_model p_name (mkNode nm i tg cs) = Ok (nm', i') ->
     length cs' = length cs ->
     P (mkNode nm i tg cs) (mkNode nm' i' tg cs')) ->
  forall t p_name t',
    update_from els seq_model p_name t = Ok t' ->
    List.Forall2 P (preorder t) (preorder t').
Proof.
  intros HP. induction t as [nm i tg cs IH] using Node_ind'.
  intros p_name t' H. cbn [update_from] in H.
  destruct (update_name_id els seq_model p_name (mkNode nm i tg cs))
    as [[nm' i']|] eqn:Hx; [|discriminate].
  cbn [mbind result_bind py.bind fst snd] in H.
  destruct (mapM (update_from els seq_model (Some nm')) cs) as [cs'|] eqn:Hm;
    [|discriminate].
  cbn [mbind result_bind py.bind] in H. injection H as <-.
  apply mapM_inv in Hm. cbn [preorder]. constructor.
  - apply (HP p_name); [exact Hx|].
    symmetry. exact (List.Forall2_length Hm).
  - clear Hx. induction Hm as [|c c' cs cs' Hc _ IHm]; [constructor|].
    inversion IH as [|? ? Hc0 Hcs0]; subst. cbn [flat_map].
    apply List.Forall2_app; [exact (Hc0 _ _ Hc)|exact (IHm Hcs0)].
Qed.

(** X8.  Whenever [sync_part_tree_on_update] returns, on any tree, the
    tree it returns has, node by node in pre-order, the tags and the
    numbers of children of the tree it was given, and the referent of
    every node whose name begins with neither [p], [di] nor [tl]. *)
Theorem update_keeps_shape (t t' : Node) :
  sync_part_tree_on_update els seq_model t = Ok t' ->
  List.Forall2 (fun m m' =>
                  tag m' = tag m /\
                  length (children m') = length (children m) /\
                  (reassigned (name m) = false -> id m' = id m))
               (preorder t) (preorder t').
Proof.
  apply update_from_pairs.
  intros p_name nm i tg cs nm' i' cs' Hx Hlen. cbn [tag children name id].
  split; [reflexivity|]. split; [exact Hlen|].
  intros Hre. revert Hx. unfold update_name_id. cbn [name id].
  destruct nm as [|c s]; [discriminate|]. cbn [pystr.first]. ok_step.
  cbn [reassigned] in Hre.
  apply Bool.orb_false_iff in Hre. destruct Hre as [Hre Htl].
  apply Bool.orb_false_iff in Hre. destruct Hre as [Hp Hdi].
  rewrite Hp, Hdi, Htl.
  destruct (Ascii.eqb c "i").
  { destruct i as [r|]; [|discriminate]. ok_step.
    destruct (ifcs_index seq_model r); [|discriminate].
    ok_step. intros [= _ <-]. reflexivity. }
  destruct (Ascii.eqb c "g").
  { destruct i as [r|]; [|discriminate]. ok_step.
    destruct (gaps_index seq_model r); [|discriminate].
    ok_step. intros [= _ <-]. reflexivity. }
  destruct i as [r|]; [|discriminate]. ok_step.
  destruct (label_of r); intros [= _ <-]; reflexivity.
Qed.

Lemma index_of_first {A} (wrap : A -> referent) (objs : list A)
  (r : referent) (k : nat) :
  pylist.index_of (fun a r => bool_decide (wrap a = r)) objs r = Ok k ->
  exists a, r = wrap a /\ nth_error objs k = Some a /\
            forall j, (j < k)%nat ->
                      nth_error objs j = Some a -> False.
Proof.
  unfold pylist.index_of. intros H.
  destruct (pylist.find_index _ r objs) as [k'|] eqn:Hf; [|discriminate].
  injection H as ->. destruct (find_index_first _ _ _ _ Hf)
    as (a & Hn & He & Hlt).
  apply bool_decide_eq_true in He. exists a.
  split; [symmetry; exact He|]. split; [exact Hn|].
  intros j Hj Hnth. specialize (Hlt j a Hj Hnth).
  apply bool_decide_eq_false in Hlt. apply Hlt. exact He.
Qed.

(** X9.  Whenever [sync_part_tree_on_update] returns, on any tree, every
    node whose name began with [i] is named [i<k>] and every node whose
    name began with [g] is named [g<k>], where [k] is the first position
    of the node's referent in the interfaces, respectively the gaps, of
    the sequence model; the referent is the one the node had. *)
Theorem update_names_by_position (t t' : Node) :
  sync_part_tree_on_update els seq_model t = Ok t' ->
  List.Forall2 (fun m m' =>
                  forall c s, name m = String c s ->
                    (c = "i"%char ->
                     named_by_position RIfc "i" (ifcs seq_model) m m') /\
                    (c = "g"%char ->
                     named_by_position RGap "g" (gaps seq_model) m m'))
               (preorder t) (preorder t').
Proof.
  apply update_from_pairs.
  intros p_name nm i tg cs nm' i' cs' Hx _ c s Hnm.
  cbn [name] in Hnm. subst nm.
  unfold update_name_id in Hx. unfold named_by_position.
  cbn [name id pystr.first mbind result_bind py.bind] in Hx |- *.
  split; intros ->; cbn [Ascii.eqb Bool.eqb] in Hx.
  - destruct i as [r|]; [|discriminate].
    cbn [mbind result_bind py.bind of_option] in Hx.
    destruct (ifcs_index seq_model r) as [k|] eqn:Hk; [|discriminate].
    cbn [mbind result_bind py.bind] in Hx. injection Hx as <- <-.
    destruct (index_of_first RIfc _ _ _ Hk) as (a & -> & Hn & Hlt).
    exists k, a. repeat split; [exact Hn|].
    intros j Hj Hnth. exact (Hlt j Hj Hnth).
  - destruct i as [r|]; [|discriminate].
    cbn [mbind result_bind py.bind of_option] in Hx.
    destruct (gaps_index seq_model r) as [k|] eqn:Hk; [|discriminate].
    cbn [mbind result_bind py.bind] in Hx. injection Hx as <- <-.
    destruct (index_of_first RGap _ _ _ Hk) as (a & -> & Hn & Hlt).
    exists k, a. repeat split; [exact Hn|].
    intros j Hj Hnth. exact (Hlt j Hj Hnth).
Qed.

End more_sync_facts.

(** The tree of the grouped singlet, read back and restored. *)
Lemma restore_keeps_skeleton_witness :
  exists t',
    parttree.sync_part_tree_on_restore
      (parttree.ele_elements ex.singlet_model) ex.singlet
      (import_ (export (parttree.root_node ex.singlet_model))) = Ok t' /\
    export t' = export (import_ (export (parttree.root_node ex.singlet_model))).
Proof.
  eexists. split; [vm_compute; reflexivity|].
  apply (restore_keeps_skeleton (parttree.ele_elements ex.singlet_model)
                                ex.singlet).
  vm_compute. reflexivity.
Defined.

(** The tree of the grouped singlet, updated. *)
Lemma update_keeps_shape_witness :
  exists t',
    parttree.sync_part_tree_on_update
      (parttree.ele_elements ex.singlet_model) ex.singlet
      (parttree.root_node ex.singlet_model) = Ok t' /\
    List.Forall2 (fun m m' =>
                    tag m' = tag m /\
                    length (children m') = length (children m) /\
                    (reassigned (name m) = false -> id m' = id m))
                 (preorder (parttree.root_node ex.singlet_model))
                 (preorder t').
Proof.
  eexists. split; [vm_compute; reflexivity|].
  apply (update_keeps_shape (parttree.ele_elements ex.singlet_model)
                            ex.singlet).
  vm_compute. reflexivity.
Defined.

(** The interior nodes of the singlet sequence, updated. *)
Lemma update_names_by_position_witness :
  exists t',
    parttree.sync_part_tree_on_update [] ex.singlet ex.singlet_init = Ok t' /\
    List.Forall2 (fun m m' =>
                    forall c s, name m = String c s ->
                      (c = "i"%char ->
                       named_by_position RIfc "i" (ifcs ex.singlet) m m') /\
                      (c = "g"%char ->
                       named_by_position RGap "g" (gaps ex.singlet) m m'))
                 (preorder ex.singlet_init) (preorder t').
Proof.
  eexists. split; [vm_compute; reflexivity|].
  apply (update_names_by_position [] ex.singlet). vm_compute. reflexivity.
Defined.

(** ** What the update direction writes, read by the restore direction *)

Section update_restore_facts.

Import parttree elements.

Variable els : list Element.
Variable seq_model : SequentialModel.

Ltac ok_step := cbn [mbind result_bind py.bind of_option fst snd].

(** X10.  At a node named after a surface ([i...]), a gap ([g...]) or a
    numbered profile ([p] and at least one more character), when one
    iteration of the update loop returns and the name it leaves is no
    label of the catalog, one iteration of the restore loop at a node
    with that name, under the same parent, returns the referent the
    update left: the names the update direction writes are read back to
    the same objects. *)
Theorem update_then_restore (p_name : option string) (n : Node)
  (nm' : string) (i' i0 : option referent) (tg : string)
  (cs : list Node) (c : ascii) (s : string) :
  update_name_id els seq_model p_name n = Ok (nm', i') ->
  name n = String c s ->
  c = "i"%char \/ c = "g"%char \/ (c = "p"%char /\ s <> EmptyString) ->
  ele_dict els nm' = None ->
  restore_id els seq_model p_name (mkNode nm' i0 tg cs) = Ok i'.
Proof.
  intros Hx Hnm Hc Hd. unfold update_name_id in Hx. rewrite Hnm in Hx.
  cbn [pystr.first mbind result_bind py.bind] in Hx.
  destruct Hc as [->|[->|[-> Hs]]]; cbn [Ascii.eqb Bool.eqb] in Hx.
  - destruct (id n) as [r|]; [|discriminate].
    cbn [mbind result_bind py.bind of_option] in Hx.
    destruct (ifcs_index seq_model r) as [k|] eqn:Hk; [|discriminate].
    cbn [mbind result_bind py.bind] in Hx. injection Hx as <- <-.
    destruct (index_of_first RIfc _ _ _ Hk) as (a & -> & Hn & _).
    unfold restore_id. cbn [name]. rewrite Hd, append_cons, append_nil.
    cbn [pystr.first mbind result_bind py.bind Ascii.eqb Bool.eqb
         pystr.from1].
    rewrite int_str. ok_step. rewrite (index_nat _ _ _ Hn). reflexivity.
  - destruct (id n) as [r|]; [|discriminate].
    cbn [mbind result_bind py.bind of_option] in Hx.
    destruct (gaps_index seq_model r) as [k|] eqn:Hk; [|discriminate].
    cbn [mbind result_bind py.bind] in Hx. injection Hx as <- <-.
    destruct (index_of_first RGap _ _ _ Hk) as (a & -> & Hn & _).
    unfold restore_id. cbn [name]. rewrite Hd, append_cons, append_nil.
    cbn [pystr.first mbind result_bind py.bind Ascii.eqb Bool.eqb
         pystr.from1].
    rewrite int_str. ok_step. rewrite (index_nat _ _ _ Hn). reflexivity.
  - destruct s as [|d s]; [congruence|].
    destruct p_name as [pn|]; [|discriminate].
    cbn [mbind result_bind py.bind of_option] in Hx.
    destruct (ele_dict els pn) as [e|] eqn:He; [|discriminate].
    cbn [mbind result_bind py.bind of_option String.length Nat.ltb Nat.leb
         pystr.from1] in Hx.
    destruct (pystr.int (String d s)) as [k|] eqn:Hk; [|discriminate].
    cbn [mbind result_bind py.bind] in Hx.
    destruct (pylist.index (interface_list e) (k - 1)) as [s0|] eqn:Hs0;
      [|discriminate].
    cbn [mbind result_bind py.bind] in Hx. injection Hx as <- <-.
    unfold restore_id. cbn [name]. rewrite Hd.
    cbn [pystr.first mbind result_bind py.bind Ascii.eqb Bool.eqb
         pystr.from1 of_option].
    rewrite He. ok_step. rewrite Hk. ok_step. rewrite Hs0. reflexivity.
Qed.

(** X11.  A profile node named [p], with no number, is accepted by the
    update loop, which reads it as the first profile of the parent
    element and keeps the name; the restore loop raises [ValueError] at
    a node of that name under the same parent, unless [p] is a label of
    the catalog. *)
Theorem restore_rejects_unnumbered_profile (p_name : option string)
  (n : Node) (nm' : string) (i' i0 : option referent) (tg : string)
  (cs : list Node) :
  name n = "p" ->
  update_name_id els seq_model p_name n = Ok (nm', i') ->
  ele_dict els "p" = None ->
  nm' = "p" /\
  (exists pn e s,
     p_name = Some pn /\ ele_dict els pn = Some e /\
     nth_error (interface_list e) 0 = Some s /\
     i' = Some (RProfile (profile s))) /\
  restore_id els seq_model p_name (mkNode nm' i0 tg cs) = Raise ValueError.
Proof.
  intros Hnm Hx Hd. unfold update_name_id in Hx. rewrite Hnm in Hx.
  cbn [pystr.first mbind result_bind py.bind Ascii.eqb Bool.eqb] in Hx.
  destruct p_name as [pn|]; [|discriminate].
  cbn [mbind result_bind py.bind of_option] in Hx.
  destruct (ele_dict els pn) as [e|] eqn:He; [|discriminate].
  cbn [mbind result_bind py.bind of_option String.length Nat.ltb Nat.leb]
    in Hx.
  destruct (pylist.index (interface_list e) 0) as [s0|] eqn:Hs0;
    [|discriminate].
  cbn [mbind result_bind py.bind] in Hx. injection Hx as <- <-.
  split; [reflexivity|]. split.
  - exists pn, e, s0. repeat split; try reflexivity; [exact He|].
    exact (index_nat_inv (interface_list e) 0 s0 Hs0).
  - unfold restore_id. cbn [name]. rewrite Hd.
    cbn [pystr.first mbind result_bind py.bind Ascii.eqb Bool.eqb
         pystr.from1 of_option].
    rewrite He. reflexivity.
Qed.

End update_restore_facts.

(** A node named [i7] that references surface A of the singlet. *)
Lemma update_then_restore_witness :
  parttree.restore_id [] ex.singlet None (mkNode "i1" None "#ifc" [])
  = Ok (Some (RIfc ex.s_A)).
Proof.
  apply (update_then_restore [] ex.singlet None
           (mkNode "i7" (Some (RIfc ex.s_A)) "#ifc" [])
           "i1" (Some (RIfc ex.s_A)) None "#ifc" [] "i"%char "7").
  - vm_compute. reflexivity.
  - reflexivity.
  - left. reflexivity.
  - reflexivity.
Defined.

(** The profile node of a mirror, as [elements.tree] names it. *)
Lemma restore_rejects_unnumbered_profile_witness :
  parttree.restore_id [elements.new_Mirror 50 "M1" (ex.mirror 6) 6]
                      ex.train (Some "M1") (mkNode "p" None "#profile" [])
  = Raise ValueError.
Proof.
  refine (proj2 (proj2
    (restore_rejects_unnumbered_profile
       [elements.new_Mirror 50 "M1" (ex.mirror 6) 6] ex.train (Some "M1")
       (mkNode "p" None "#profile" []) "p"
       (Some (RProfile (profile (ex.mirror 6)))) None "#profile" []
       _ _ _))).
  - reflexivity.
  - vm_compute. reflexivity.
  - vm_compute. reflexivity.
Defined.

(** ** What the grouping engine emits, on any sequence *)

Section more_grouping_facts.

Import parttree elements.

Ltac ok_step := cbn [mbind result_bind py.bind of_option fst snd].

Ltac unbind :=
  repeat
    match goal with
    | H : (Ok _ ≫= _) = Ok _ |- _ => cbn [mbind result_bind py.bind] in H
    | H : (Raise _ ≫= _) = Ok _ |- _ => discriminate H
    | H : (?c ≫= _) = Ok _ |- _ =>
        let E := fresh "E" in destruct c eqn:E
    | H : context [match ?x with (_, _) => _ end] |- _ =>
        is_var x; destruct x
    | H : Ok _ = Ok _ |- _ => inversion H; subst; clear H
    end.

Lemma emits_refl (m : Model) : emits m m [].
Proof. exists []. rewrite app_nil_r. split; reflexivity. Qed.

Lemma emits_trans (m1 m2 m3 : Model) (a b : list part) :
  emits m1 m2 a -> emits m2 m3 b -> emits m1 m3 (a ++ b).
Proof.
  intros (x & Hx & <-) (y & Hy & <-). exists (x ++ y).
  rewrite Hy, Hx, app_assoc, map_app. split; reflexivity.
Qed.

Lemma emits_one (m m' : Model) (e : Element) (tg : option string) :
  emit m e tg = Ok m' -> emits m m' [wraps e].
Proof.
  intros H. destruct (emit_inv _ _ _ _ H) as (He & _ & _).
  exists [e]. split; [exact He|reflexivity].
Qed.

Ltac emitted :=
  repeat
    match goal with
    | H : emit _ _ _ = Ok _ |- _ =>
        apply emits_one in H; unfold wraps in H;
        cbn [new_Mirror new_ThinElement new_DummyInterface new_AirGap
             new_Element new_CementedElement e_kind e_ifcs e_gaps] in H
    end.

Lemma emits_root (m m' : Model) (root : Node) (n : nat) (ws : list part) :
  emits m m' ws -> emits m (mkModel root (ele_elements m') n) ws.
Proof. intros (x & Hx & Hw). exists x. split; assumption. Qed.

Lemma index_last {A} (l : list A) (a : A) :
  pylist.index (l ++ [a]) (-1) = Ok a.
Proof.
  unfold pylist.index. rewrite length_app. cbn [length].
  change (-1 <? 0)%Z with true. cbn match.
  replace (-1 + Z.of_nat (length l + 1))%Z with (Z.of_nat (length l))
    by lia.
  destruct (Z.ltb_spec (Z.of_nat (length l)) 0) as [?|_]; [lia|].
  rewrite Nat2Z.id, nth_error_app2, Nat.sub_diag by lia. reflexivity.
Qed.

Lemma prev_air (seq_model : SequentialModel) (i : nat) :
  (0 < i)%nat -> (i < length (ifcs seq_model))%nat ->
  (i < length (gaps seq_model))%nat ->
  pending seq_model i = [] ->
  prev_gap_is_air seq_model i = true.
Proof.
  destruct i as [|j]; [lia|]. intros _ Hs Hg. cbn [pending prev_gap_is_air].
  destruct (nth_error (ifcs seq_model) j) eqn:Es;
    [|apply nth_error_None in Es; lia].
  destruct (nth_error (gaps seq_model) j) eqn:Eg;
    [|apply nth_error_None in Eg; lia].
  destruct (is_air _); [reflexivity|].
  intros H. apply app_eq_nil in H. destruct H as [_ H]. discriminate H.
Qed.

(** [process_airgap] behind a surface that has air in front of it. *)
Lemma process_airgap_emits (seq_model : SequentialModel) (m : Model)
  (i : nat) (g : Gap) (s : Interface) (n : nat) (m' : Model) (n' : nat) :
  process_airgap seq_model m i g s n true = Ok (m', n') ->
  (0 < i)%nat -> prev_gap_is_air seq_model i = true ->
  emits m m' (in_air_part i s ++ [(AirGap, [], [(i, g)])]).
Proof.
  unfold process_airgap, in_air_part. intros H Hi Hprev.
  rewrite !Bool.andb_true_r in H.
  destruct (String.eqb (interact_mode s) "reflect").
  { unbind. emitted. eapply emits_trans; eassumption. }
  destruct (is_thinlens s).
  { unbind. emitted. eapply emits_trans; eassumption. }
  destruct (String.eqb (interact_mode s) "transmit").
  - destruct i as [|j]; [lia|]. cbn [Nat.eqb] in H.
    cbn [prev_gap_is_air] in Hprev.
    destruct (nth_error (gaps seq_model) j) as [gp|] eqn:Egp;
      [|discriminate].
    replace (Z.of_nat (S j) - 1)%Z with (Z.of_nat j) in H by lia.
    rewrite (index_nat _ _ _ Egp) in H.
    cbn [mbind result_bind py.bind] in H. rewrite Hprev in H.
    destruct (bool_decide _); unbind; emitted;
      (eapply emits_trans; eassumption).
  - unbind. emitted. cbn [app]. assumption.
Qed.

Lemma lens_branch_emits (m : Model) (n : nat) (b : bool)
  (eles : list entry) (cur cur' : entry) (m' : Model) (n' : nat) :
  lens_branch m n b eles cur = Ok (m', n', cur') ->
  exists x,
    nth_error eles 0 = Some x /\
    emits m m' [(Lens,
                 [(fst (fst x), snd (fst x)); (fst (fst cur), snd (fst cur))],
                 [(fst (fst x), snd x)])] /\
    if b then pylist.index eles (-1) = Ok cur' else cur' = cur.
Proof.
  unfold lens_branch. destruct cur as [[i ifc] g]. intros H.
  destruct (pylist.index eles 0) as [[[i1 s1] g1]|] eqn:E0;
    [|discriminate H].
  cbn [mbind result_bind py.bind] in H.
  destruct (emit m _ None) as [m1|] eqn:E1; [|discriminate H].
  cbn [mbind result_bind py.bind] in H.
  exists (i1, s1, g1). split; [exact (index_nat_inv eles 0 _ E0)|].
  emitted. cbn [fst snd].
  destruct b.
  - unbind. split; [|reflexivity]. apply emits_root. exact E1.
  - unbind. split; [exact E1|reflexivity].
Qed.

Lemma cemented_branch_emits (m : Model) (n : nat) (b : bool)
  (num_eles : nat) (eles eles' : list entry) (cur cur' : entry)
  (m' : Model) (n' : nat) :
  cemented_branch m n b num_eles eles cur = Ok (m', n', eles', cur') ->
  eles' = (if b then eles else eles ++ [cur]) /\
  pylist.index eles' (-1) = Ok cur' /\
  emits m m'
    [(CementedElement,
      map (fun t : entry => (fst (fst t), snd (fst t)))
          (firstn (num_eles + 1) eles'),
      map (fun t : entry => (fst (fst t), snd t))
          (removelast (firstn (num_eles + 1) eles')))].
Proof.
  unfold cemented_branch. intros H.
  destruct (emit m _ None) as [m1|] eqn:E1; [|discriminate H].
  cbn [mbind result_bind py.bind] in H.
  match type of H with
  | (?c ≫= _) = Ok _ => destruct c as [root|]; [|discriminate H]
  end.
  cbn [mbind result_bind py.bind] in H.
  destruct (pylist.index _ (-1)) as [last|] eqn:El; [|discriminate H].
  cbn [mbind result_bind py.bind] in H. injection H as <- <- <- <-.
  split; [reflexivity|]. split; [exact El|].
  apply emits_root. emitted. exact E1.
Qed.

Lemma in_air_part_not_lens (i : nat) (s : Interface) :
  List.filter (fun w : part => negb (lens_like (fst (fst w))))
              (in_air_part i s)
  = in_air_part i s.
Proof.
  unfold in_air_part.
  destruct (String.eqb (interact_mode s) "reflect"); [reflexivity|].
  destruct (is_thinlens s); [reflexivity|].
  destruct (String.eqb (interact_mode s) "transmit"); reflexivity.
Qed.

(** One iteration of the loop of [elements_from_sequence] at a surface
    with a gap behind it, when [eles] holds the run of glass in front of
    the surface. *)
Lemma loop_body_emits (seq_model : SequentialModel) (st st' : Loop)
  (i : nat) (s : Interface) (g : Gap) :
  loop_body seq_model st (i, (s, Some g)) = Ok st' ->
  nth_error (ifcs seq_model) i = Some s ->
  nth_error (gaps seq_model) i = Some g ->
  eles st = pending seq_model i ->
  eles st' = pending seq_model (S i) /\
  exists ws,
    emits (l_model st) (l_model st') ws /\
    List.filter (fun w : part => negb (lens_like (fst (fst w)))) ws
    = air_parts seq_model (i, (s, Some g)) /\
    (buried_reflector st = false ->
     ws = lens_part seq_model (i, (s, Some g))
          ++ air_parts seq_model (i, (s, Some g)) /\
     buried_reflector st'
     = negb (is_air g) && String.eqb (interact_mode s) "reflect").
Proof.
  intros H Hs Hg Hp. unfold loop_body in H.
  cbn [pending air_parts lens_part]. rewrite Hs, Hg.
  destruct (is_air g) eqn:Eair.
  2: { injection H as <-. cbn [eles l_model buried_reflector].
       split; [rewrite Hp; reflexivity|].
       exists []. split; [apply emits_refl|]. split; [reflexivity|].
       intros ->. split; [reflexivity|].
       destruct (String.eqb _ _); reflexivity. }
  cbn [andb negb].
  destruct (length (eles st) =? 0)%nat eqn:Elen.
  { apply Nat.eqb_eq in Elen. apply length_zero_iff_nil in Elen.
    rewrite Elen in Hp. rewrite <- Hp.
    destruct (0 <? i)%nat eqn:Ei.
    - destruct (process_airgap _ _ _ _ _ _ _) as [[m n]|] eqn:Hpa;
        [|discriminate H].
      cbn [mbind result_bind py.bind fst snd] in H. injection H as <-.
      cbn [eles l_model buried_reflector]. split; [exact Elen|].
      apply Nat.ltb_lt in Ei.
      eexists. split.
      + eapply process_airgap_emits; [exact Hpa|exact Ei|].
        apply prev_air; [exact Ei| | |symmetry; exact Hp].
        * apply nth_error_Some. congruence.
        * apply nth_error_Some. congruence.
      + split.
        * rewrite List.filter_app, in_air_part_not_lens. reflexivity.
        * intros Hb. split; [reflexivity|exact Hb].
    - injection H as <-. split; [exact Elen|].
      exists []. split; [apply emits_refl|]. split; [reflexivity|].
      intros Hb. split; [reflexivity|exact Hb]. }
  apply Nat.eqb_neq in Elen.
  assert (Hi : (0 <? i)%nat = true).
  { apply Nat.ltb_lt. destruct i; [|lia].
    cbn [pending] in Hp. rewrite Hp in Elen. cbn in Elen. lia. }
  rewrite Hi.
  match type of H with
  | (?c ≫= _) = Ok _ => destruct c as [cur|] eqn:Hcur; [|discriminate H]
  end.
  cbn [mbind result_bind py.bind] in H.
  match type of H with
  | (?c ≫= _) = Ok _ =>
      destruct c as [[[[m n] [[i' ifc'] g']] eles']|] eqn:Hr;
        [|discriminate H]
  end.
  cbn [mbind result_bind py.bind] in H.
  destruct (emit m _ None) as [m2|] eqn:E2; [|discriminate H].
  cbn [mbind result_bind py.bind] in H. injection H as <-.
  cbn [eles l_model buried_reflector]. split; [reflexivity|].
  emitted. rewrite <- Hp.
  destruct (eles st) as [|e0 es] eqn:Ees; [cbn in Elen; congruence|].
  clear Elen Hp. destruct (buried_reflector st) eqn:Eb.
  - (* a reflector is buried in the run *)
    assert (Hpre : exists pre,
               emits (l_model st) m pre /\
               List.filter (fun w : part => negb (lens_like (fst (fst w))))
                           pre = [] /\
               (i', ifc', g') = (i, s, g)).
    { destruct (_ =? 1)%nat eqn:E1.
      - destruct (lens_branch _ _ _ _ _) as [[[m1 n1] c1]|] eqn:Hl;
          [|discriminate Hr].
        cbn [mbind result_bind py.bind] in Hr. inversion Hr; subst.
        destruct (lens_branch_emits _ _ _ _ _ _ _ _ Hl)
          as (x & _ & Hem & Hlast).
        rewrite index_last in Hlast. injection Hlast as <- <- <-.
        eexists. split; [exact Hem|]. split; reflexivity.
      - destruct (1 <? _)%nat eqn:E2'.
        + destruct (cemented_branch _ _ _ _ _ _)
            as [[[[m1 n1] e1] c1]|] eqn:Hc; [|discriminate Hr].
          cbn [mbind result_bind py.bind] in Hr. inversion Hr; subst.
          destruct (cemented_branch_emits _ _ _ _ _ _ _ _ _ _ Hc)
            as (-> & Hlast & Hem).
          rewrite index_last in Hlast. injection Hlast as <- <- <-.
          eexists. split; [exact Hem|]. split; reflexivity.
        + inversion Hr; subst.
          exists []. split; [apply emits_refl|]. split; [reflexivity|].
          apply Nat.eqb_neq in E1. apply Nat.ltb_ge in E2'.
          assert (H0 : (length (e0 :: es) / 2 = 0)%nat) by lia.
          apply Nat.div_small_iff in H0; [|lia].
          destruct es as [|e1 es]; [|cbn [length] in H0; lia].
          vm_compute in Hcur. congruence. }
    destruct Hpre as (pre & Hem & Hf & [= -> -> ->]).
    exists (pre ++ [(AirGap, [], [(i, g)])]).
    split; [eapply emits_trans; eassumption|].
    split; [rewrite List.filter_app, Hf; reflexivity|discriminate].
  - injection Hcur as <-.
    destruct (_ =? 1)%nat eqn:E1.
    + destruct (lens_branch _ _ _ _ _) as [[[m1 n1] c1]|] eqn:Hl;
        [|discriminate Hr].
      cbn [mbind result_bind py.bind] in Hr. inversion Hr; subst.
      destruct (lens_branch_emits _ _ _ _ _ _ _ _ Hl)
        as (x & Hx & Hem & [= -> -> ->]).
      cbn [nth_error] in Hx. injection Hx as <-.
      apply Nat.eqb_eq in E1. cbn [length] in E1.
      destruct es as [|e1 es]; [|cbn [length] in E1; lia].
      cbn [fst snd] in Hem.
      eexists. split; [eapply emits_trans; eassumption|].
      split; [reflexivity|]. intros _. split; reflexivity.
    + destruct (1 <? _)%nat eqn:E2'.
      * destruct (cemented_branch _ _ _ _ _ _)
          as [[[[m1 n1] e1] c1]|] eqn:Hc; [|discriminate Hr].
        cbn [mbind result_bind py.bind] in Hr. inversion Hr; subst.
        destruct (cemented_branch_emits _ _ _ _ _ _ _ _ _ _ Hc)
          as (-> & Hlast & Hem).
        rewrite index_last in Hlast. injection Hlast as <- <- <-.
        rewrite firstn_all2 in Hem
          by (rewrite length_app; cbn [length]; lia).
        rewrite removelast_last in Hem.
        eexists. split; [eapply emits_trans; eassumption|].
        split; [reflexivity|]. intros _. split; [|reflexivity].
        apply Nat.ltb_lt in E2'.
        destruct es as [|e1 es]; [cbn [length] in E2'; lia|].
        reflexivity.
      * apply Nat.eqb_neq in E1. apply Nat.ltb_ge in E2'.
        cbn [length] in E1, E2'. lia.
Qed.

Lemma skipn_cons_nth {A} (l : list A) :
  forall k a l',
    skipn k l = a :: l' -> nth_error l k = Some a /\ skipn (S k) l = l'.
Proof.
  induction l as [|b l IH]; intros k a l' H.
  - destruct k; discriminate H.
  - destruct k as [|k].
    + cbn [skipn] in H. injection H as -> ->. split; reflexivity.
    + cbn [skipn nth_error] in H |- *. apply IH. exact H.
Qed.

Lemma head_skipn {A} (l : list A) :
  forall k, head (skipn k l) = nth_error l k.
Proof.
  induction l as [|b l IH]; intros [|k]; try reflexivity.
  cbn [skipn nth_error]. apply IH.
Qed.

Lemma tail_skipn {A} (l : list A) :
  forall k, tail (skipn k l) = skipn (S k) l.
Proof.
  induction l as [|b l IH]; intros [|k]; try reflexivity.
  change (skipn (S k) (b :: l)) with (skipn k l).
  change (skipn (S (S k)) (b :: l)) with (skipn (S k) l). apply IH.
Qed.

(** The loop of [elements_from_sequence] from surface [k] on. *)
Lemma foldM_emits (seq_model : SequentialModel) (ss : list Interface) :
  forall k st st',
    skipn k (ifcs seq_model) = ss ->
    foldM (loop_body seq_model)
          (pylist.enumerate k (path_of ss (skipn k (gaps seq_model)))) st
    = Ok st' ->
    ((k <= length (gaps seq_model))%nat ->
     eles st = pending seq_model k) ->
    exists ws,
      emits (l_model st) (l_model st') ws /\
      List.filter (fun w : part => negb (lens_like (fst (fst w)))) ws
      = flat_map (air_parts seq_model)
          (pylist.enumerate k (path_of ss (skipn k (gaps seq_model)))) /\
      (no_buried_reflector seq_model -> buried_reflector st = false ->
       ws = flat_map (fun x => lens_part seq_model x
                               ++ air_parts seq_model x)
              (pylist.enumerate k
                 (path_of ss (skipn k (gaps seq_model))))).
Proof.
  induction ss as [|s ss IH]; intros k st st' Hss H Hinv.
  - cbn [path_of pylist.enumerate foldM] in H |- *. injection H as <-.
    exists []. split; [apply emits_refl|]. split; reflexivity.
  - destruct (skipn_cons_nth _ _ _ _ Hss) as [Hs Hss'].
    cbn [path_of pylist.enumerate foldM flat_map] in H |- *.
    rewrite tail_skipn in H |- *. rewrite head_skipn in H |- *.
    destruct (loop_body seq_model st _) as [st1|] eqn:H1;
      [|discriminate H].
    cbn [py.bind] in H.
    destruct (nth_error (gaps seq_model) k) as [g|] eqn:Hg.
    + assert (Hk : (k < length (gaps seq_model))%nat)
        by (apply nth_error_Some; congruence).
      destruct (loop_body_emits _ _ _ _ _ _ H1 Hs Hg (Hinv ltac:(lia)))
        as (Hp1 & w1 & Hem1 & Hf1 & Hb1).
      destruct (IH (S k) st1 st' Hss' H (fun _ => Hp1))
        as (w2 & Hem2 & Hf2 & Hb2).
      exists (w1 ++ w2). split; [eapply emits_trans; eassumption|].
      split; [rewrite List.filter_app, Hf1, Hf2; reflexivity|].
      intros Hnb Hb. destruct (Hb1 Hb) as [-> Hb'].
      rewrite (Hb2 Hnb); [reflexivity|].
      rewrite Hb'. destruct (is_air g) eqn:Eair; [reflexivity|].
      cbn [negb andb]. exact (Hnb k s g Hs Hg Eair).
    + cbn [loop_body] in H1. injection H1 as <-.
      assert (Hk : (length (gaps seq_model) <= k)%nat)
        by (apply nth_error_None; exact Hg).
      destruct (IH (S k) st st' Hss' H ltac:(intros; lia))
        as (w2 & Hem2 & Hf2 & Hb2).
      exists w2. split; [exact Hem2|]. split; [exact Hf2|].
      cbn [lens_part air_parts app]. exact Hb2.
Qed.

Lemma elements_from_sequence_emits (seq_model : SequentialModel)
  (m m' : Model) :
  elements_from_sequence seq_model m = Ok m' ->
  exists ws,
    emits m m' ws /\
    List.filter (fun w : part => negb (lens_like (fst (fst w)))) ws
    = flat_map (air_parts seq_model)
        (pylist.enumerate 0 (seq_path seq_model)) /\
    (no_buried_reflector seq_model ->
     ws = flat_map (fun x => lens_part seq_model x
                             ++ air_parts seq_model x)
            (pylist.enumerate 0 (seq_path seq_model))).
Proof.
  unfold elements_from_sequence. intros H.
  match type of H with
  | (?c ≫= _) = Ok _ => destruct c as [root|]; [|discriminate H]
  end.
  cbn [mbind result_bind py.bind] in H.
  match type of H with
  | (?c ≫= _) = Ok _ => destruct c as [st|] eqn:Hf; [|discriminate H]
  end.
  cbn [mbind result_bind py.bind] in H. injection H as <-.
  destruct (foldM_emits seq_model (ifcs seq_model) 0 _ st eq_refl Hf
              (fun _ => eq_refl)) as (ws & Hem & Hfl & Hb).
  exists ws. split; [exact Hem|]. split; [exact Hfl|].
  intros Hnb. exact (Hb Hnb eq_refl).
Qed.

Lemma filter_map_wraps (f : kind -> bool) (new : list Element) :
  List.filter (fun w : part => f (fst (fst w))) (map wraps new)
  = map wraps (List.filter (fun e => f (e_kind e)) new).
Proof.
  induction new as [|e new IH]; [reflexivity|].
  cbn [map List.filter wraps fst]. destruct (f (e_kind e));
    cbn [map]; rewrite IH; reflexivity.
Qed.

(** X12.  Whatever the sequence, the parts other than lenses and
    cemented elements that a run of the grouping engine adds to the
    catalog are, in order of the path: for every surface but the first
    that has an air gap behind it, the mirror, thin element or dummy
    interface of that surface when the gap in front of it is air as
    well, and then the air gap. *)
Theorem grouping_parts_in_air (seq_model : SequentialModel)
  (m m' : Model) :
  elements_from_sequence seq_model m = Ok m' ->
  exists new,
    ele_elements m' = ele_elements m ++ new /\
    map wraps (List.filter (fun e => negb (lens_like (e_kind e))) new)
    = flat_map (air_parts seq_model)
        (pylist.enumerate 0 (seq_path seq_model)).
Proof.
  intros H.
  destruct (elements_from_sequence_emits _ _ _ H)
    as (ws & (new & He & <-) & Hf & _).
  exists new. split; [exact He|].
  rewrite <- Hf.
  rewrite (filter_map_wraps (fun k => negb (lens_like k))). reflexivity.
Qed.

(** X13.  On a sequence in which no reflecting surface has glass behind
    it, the parts that a run of the grouping engine adds to the catalog
    are, in order of the path and for every surface with an air gap
    behind it: the lens (one gap of glass in front of the surface) or
    cemented element (several) over the run of glass that ends at the
    surface, if there is one; otherwise, for every surface but the first,
    the mirror, thin element or dummy interface of the surface; and then,
    for every surface but the first, the air gap. *)
Theorem grouping_parts (seq_model : SequentialModel) (m m' : Model) :
  no_buried_reflector seq_model ->
  elements_from_sequence seq_model m = Ok m' ->
  exists new,
    ele_elements m' = ele_elements m ++ new /\
    map wraps new
    = flat_map (fun x => lens_part seq_model x ++ air_parts seq_model x)
        (pylist.enumerate 0 (seq_path seq_model)).
Proof.
  intros Hnb H.
  destruct (elements_from_sequence_emits _ _ _ H)
    as (ws & (new & He & <-) & _ & Hb).
  exists new. split; [exact He|]. exact (Hb Hnb).
Qed.

(** An entry of the path stands at its index in the sequence. *)
Lemma enumerate_path_In (ss : list Interface) :
  forall gs k i s og,
    In (i, (s, og)) (pylist.enumerate k (path_of ss gs)) ->
    exists j, i = (k + j)%nat /\ nth_error ss j = Some s /\
              og = nth_error gs j.
Proof.
  induction ss as [|s0 ss IH]; intros gs k i s og Hin;
    cbn [path_of pylist.enumerate] in Hin; [destruct Hin|].
  destruct Hin as [[= <- <- <-]|Hin].
  - exists 0%nat. split; [lia|]. split; [reflexivity|].
    destruct gs; reflexivity.
  - destruct (IH _ _ _ _ _ Hin) as (j & -> & Hs & Hg).
    exists (S j). split; [lia|]. split; [exact Hs|].
    destruct gs; [destruct j; exact Hg|exact Hg].
Qed.

Lemma air_parts_inv (seq_model : SequentialModel) (i : nat)
  (s : Interface) (og : option Gap) (w : part) :
  In w (air_parts seq_model (i, (s, og))) ->
  exists g, og = Some g /\
            (w = (AirGap, [], [(i, g)]) \/
             w = (Mirror, [(i, s)], []) \/
             w = (ThinElement, [(i, s)], []) \/
             w = (DummyInterface, [(i, s)], [])).
Proof.
  cbn [air_parts]. destruct og as [g|]; [|intros []].
  destruct (is_air g && (0 <? i)%nat); [|intros []].
  intros Hin. exists g. split; [reflexivity|].
  apply in_app_or in Hin. destruct Hin as [Hin|[<-|[]]];
    [|left; reflexivity].
  right. destruct (pending seq_model i); [|destruct Hin].
  unfold in_air_part in Hin.
  destruct (String.eqb _ "reflect"); [destruct Hin as [<-|[]]; auto|].
  destruct (is_thinlens s); [destruct Hin as [<-|[]]; auto|].
  destruct (String.eqb _ "transmit"); [destruct Hin as [<-|[]]; auto|].
  destruct Hin.
Qed.

(** C7, as the code has it.  The elements that a run of the grouping
    engine adds to the catalog are numbered as follows, in the order of
    their emission: each lens, cemented element, mirror and thin element
    takes the next value of one counter that starts at 1; each air gap
    wraps the gap behind a surface of the sequence and is labelled with
    the index of that surface in the sequence, each dummy interface wraps
    a surface of the sequence and is labelled [Object], [Stop] or with
    the index of that surface in the sequence. *)
Theorem grouping_labels (seq_model : SequentialModel) (m m' : Model) :
  elements_from_sequence seq_model m = Ok m' ->
  exists new,
    ele_elements m' = ele_elements m ++ new /\ numbered 0 new /\
    Forall (labelled_in_sequence seq_model) new /\
    map label (List.filter physical new)
    = map (fun x => label_format (e_kind (snd x)) (fst x))
          (pylist.enumerate 1 (List.filter physical new)).
Proof.
  intros H.
  destruct (elements_from_sequence_adds _ _ _ H) as (new & He & Hn).
  destruct (elements_from_sequence_emits _ _ _ H)
    as (ws & (new' & He' & <-) & Hf & _).
  assert (new' = new) as ->
    by (rewrite He in He'; exact (eq_sym (app_inv_head _ _ _ He'))).
  exists new. split; [exact He|]. split; [exact Hn|].
  split; [|apply numbered_physical_labels; exact Hn].
  rewrite (filter_map_wraps (fun k => negb (lens_like k))) in Hf.
  apply List.Forall_forall. intros e Hin.
  assert (Hpart : negb (lens_like (e_kind e)) = true ->
                  exists i s g,
                    nth_error (ifcs seq_model) i = Some s /\
                    nth_error (gaps seq_model) i = Some g /\
                    (wraps e = (AirGap, [], [(i, g)]) \/
                     wraps e = (Mirror, [(i, s)], []) \/
                     wraps e = (ThinElement, [(i, s)], []) \/
                     wraps e = (DummyInterface, [(i, s)], []))).
  { intros Hl.
    assert (Hw : In (wraps e)
                    (map wraps
                       (List.filter (fun e => negb (lens_like (e_kind e)))
                                    new))).
    { apply in_map. apply filter_In. split; [exact Hin|exact Hl]. }
    rewrite Hf in Hw. apply in_flat_map in Hw.
    destruct Hw as ([i [s og]] & Hx & Hw).
    destruct (enumerate_path_In _ _ _ _ _ _ Hx) as (j & -> & Hs & Hg).
    destruct (air_parts_inv _ _ _ _ _ Hw) as (g & -> & Hcases).
    exists j, s, g. cbn [Nat.add] in Hcases. auto. }
  pose proof (numbered_In e new 0 Hn Hin) as Hlab.
  unfold labelled_in_sequence, labelled_by_index, physical in *.
  destruct (e_kind e) eqn:Hk; try exact I.
  - destruct (Hpart eq_refl) as (i & s & g & Hs & Hg & Hw).
    destruct (Hlab eq_refl) as (i' & s' & Hi & Hl).
    unfold wraps in Hw. rewrite Hk, Hi in Hw.
    destruct Hw as [Hw|[Hw|[Hw|Hw]]]; try discriminate Hw.
    injection Hw as -> -> Hgs.
    exists i, s. auto.
  - destruct (Hpart eq_refl) as (i & s & g & Hs & Hg & Hw).
    destruct (Hlab eq_refl) as (i' & g' & Hi & Hl).
    unfold wraps in Hw. rewrite Hk, Hi in Hw.
    destruct Hw as [Hw|[Hw|[Hw|Hw]]]; try discriminate Hw.
    injection Hw as Hifc -> ->.
    exists i, s, g. auto.
Qed.

End more_grouping_facts.

(** The run on [ex.train]. *)
Lemma grouping_labels_witness :
  exists new,
    parttree.ele_elements ex.train_model
    = parttree.ele_elements ex.empty_model ++ new /\ numbered 0 new /\
    Forall (labelled_in_sequence ex.train) new /\
    map label (List.filter physical new)
    = map (fun x => elements.label_format (e_kind (snd x)) (fst x))
          (pylist.enumerate 1 (List.filter physical new)).
Proof.
  apply (grouping_labels ex.train ex.empty_model ex.train_model).
  vm_compute. reflexivity.
Defined.

(** The folded prism: a lens over its first two faces and the air gap
    behind the exit face. *)
Lemma grouping_parts_in_air_witness :
  exists new,
    parttree.ele_elements folded_model
    = parttree.ele_elements ex.empty_model ++ new /\
    map wraps (List.filter (fun e => negb (lens_like (e_kind e))) new)
    = flat_map (air_parts folded)
        (pylist.enumerate 0 (parttree.seq_path folded)).
Proof.
  apply (grouping_parts_in_air folded ex.empty_model folded_model).
  vm_compute. reflexivity.
Defined.

Lemma train_no_buried_reflector : no_buried_reflector ex.train.
Proof.
  intros i s g Hs Hg Ha.
  do 9 (destruct i as [|i];
        [vm_compute in Hs, Hg;
         first [discriminate Hg
               |injection Hs as <-; injection Hg as <-;
                first [vm_compute; reflexivity
                      |vm_compute in Ha; discriminate Ha]]|]).
  destruct i; discriminate Hs.
Qed.

(** The train of two lenses, a plane and a mirror. *)
Lemma grouping_parts_witness :
  exists new,
    parttree.ele_elements ex.train_model
    = parttree.ele_elements ex.empty_model ++ new /\
    map wraps new
    = flat_map (fun x => lens_part ex.train x ++ air_parts ex.train x)
        (pylist.enumerate 0 (parttree.seq_path ex.train)).
Proof.
  apply (grouping_parts ex.train ex.empty_model ex.train_model).
  - exact train_no_buried_reflector.
  - vm_compute. reflexivity.
Defined.

(** ** The element nodes under the root *)

Section element_node_facts.

Import parttree elements.

Tactic Notation "bind_step" hyp(H) "as" ident(x) ident(E) :=
  cbv zeta in H;
  match type of H with
  | (?c ≫= _) = Ok _ =>
      destruct c as [x|] eqn:E;
      [cbn [mbind result_bind py.bind] in H|discriminate H]
  end.

Lemma raw_not_element (c : Node) : raw (id c) -> refs_element c = false.
Proof.
  unfold raw, refs_element. destruct (id c) as [[]|]; intros H;
    first [reflexivity|contradiction].
Qed.

Lemma filter_update_nth_attrs (f : Node -> Node) (l : list Node) :
  (forall c, name (f c) = name c /\ id (f c) = id c) ->
  forall i,
    map (fun c => (name c, id c))
        (List.filter refs_element (update_nth f i l))
    = map (fun c => (name c, id c)) (List.filter refs_element l).
Proof.
  intros Hf. induction l as [|c l IH]; intros i; [destruct i; reflexivity|].
  destruct i as [|i]; cbn [update_nth List.filter].
  - destruct (Hf c) as [Hn Hi].
    assert (Hr : refs_element (f c) = refs_element c)
      by (unfold refs_element; rewrite Hi; reflexivity).
    rewrite Hr. destruct (refs_element c); cbn [map];
      rewrite ?Hn, ?Hi; reflexivity.
  - destruct (refs_element c); cbn [map]; rewrite IH; reflexivity.
Qed.

Lemma filter_remove_nth (l : list Node) :
  forall i m,
    nth_error l i = Some m -> refs_element m = false ->
    List.filter refs_element (remove_nth i l) = List.filter refs_element l.
Proof.
  induction l as [|c l IH]; intros i m Hm Hr; [destruct i; discriminate|].
  destruct i as [|i]; cbn [remove_nth nth_error List.filter] in *.
  - injection Hm as ->. rewrite Hr. reflexivity.
  - rewrite (IH i m Hm Hr). reflexivity.
Qed.

(** Detaching a node that references a surface or a gap leaves the
    element nodes under the root as they are. *)
Lemma detach_element_children (t : Node) (p : path) (m : Node) :
  get t p = Some m -> raw (id m) ->
  element_children (detach t p) = element_children t.
Proof.
  intros Hget Hraw. destruct p as [|i [|j p']].
  - reflexivity.
  - cbn [get] in Hget.
    destruct (nth_error (children t) i) as [c|] eqn:Hc; [|discriminate].
    injection Hget as ->. unfold element_children. cbn [detach children].
    rewrite (filter_remove_nth _ _ _ Hc (raw_not_element _ Hraw)).
    reflexivity.
  - change (detach t (i :: j :: p'))
      with (mkNode (name t) (id t) (tag t)
              (update_nth (fun c => detach c (j :: p')) i (children t))).
    unfold element_children. cbn [children].
    apply filter_update_nth_attrs. intros c.
    destruct (detach_attrs c (j :: p')) as (Hn & Hi & _). auto.
Qed.

Lemma attach_same_attrs (t : Node) (p : path) (sub : Node) :
  name (attach t p sub) = name t /\ id (attach t p sub) = id t.
Proof. destruct p; split; reflexivity. Qed.

(** So does attaching one anywhere. *)
Lemma attach_element_children (t : Node) (q : path) (sub : Node) :
  raw (id sub) ->
  element_children (attach t q sub) = element_children t.
Proof.
  intros Hraw. unfold element_children. destruct q as [|i q'];
    cbn [attach children].
  - rewrite List.filter_app. cbn [List.filter].
    rewrite (raw_not_element _ Hraw), app_nil_r. reflexivity.
  - apply filter_update_nth_attrs. intros c. apply attach_same_attrs.
Qed.

Lemma attach_fragment_element_children (t e_node : Node) (e : Element) :
  id e_node = Some (RElem e) ->
  element_children (attach t [] e_node)
  = element_children t ++ [(name e_node, Some (RElem e))].
Proof.
  intros Hid. unfold element_children. cbn [attach children].
  rewrite List.filter_app, map_app. cbn [List.filter].
  assert (Hr : refs_element e_node = true)
    by (unfold refs_element; rewrite Hid; reflexivity).
  rewrite Hr. cbn [map]. rewrite Hid. reflexivity.
Qed.

Lemma add_fragment_element_children (t t' e_node : Node) (e : Element) :
  add_fragment_to_tree t e_node = Ok t' ->
  Forall (fun l => raw (id l)) (leaves e_node) ->
  id e_node = Some (RElem e) ->
  element_children t'
  = element_children t ++ [(name e_node, Some (RElem e))].
Proof.
  unfold add_fragment_to_tree. intros H Hraw Hid.
  bind_step H as t2 Hfold.
  assert (Ht' : t' = attach t2 [] e_node) by congruence. subst t'. clear H.
  rewrite (attach_fragment_element_children _ _ _ Hid). f_equal.
  revert t Hfold. induction Hraw as [|l ls Hl _ IH]; intros t Hfold;
    cbn [foldM] in Hfold.
  - injection Hfold as <-. reflexivity.
  - destruct (id l) as [obj|] eqn:Hobj; [|discriminate].
    cbn [of_option mbind result_bind py.bind] in Hfold.
    destruct (node t obj) as [dup|] eqn:Hn; [|discriminate].
    cbn [py.bind] in Hfold. rewrite (IH _ Hfold).
    destruct dup as [p|]; [|reflexivity].
    destruct (find_some _ _ _ Hn) as (m & Hget & Hm).
    apply bool_decide_eq_true in Hm.
    apply (detach_element_children t p m Hget). rewrite Hm. exact Hl.
Qed.

Lemma set_parent_element_children (t t' : Node) (px py : path) (m : Node) :
  set_parent t px py = Ok t' -> get t px = Some m -> raw (id m) ->
  element_children t' = element_children t.
Proof.
  unfold set_parent. intros H Hget Hraw.
  destruct (is_prefix px py); [discriminate|].
  destruct (bool_decide _); [injection H as <-; reflexivity|].
  rewrite Hget in H. injection H as <-.
  rewrite (attach_element_children _ _ _ Hraw).
  exact (detach_element_children t px m Hget Hraw).
Qed.

(** [x.parent = y] for a node [x] found by a lookup of a surface or a
    gap. *)
Lemma assign_after_node (t t' : Node) (obj : referent)
  (x y : option path) :
  node t obj = Ok x -> raw (Some obj) ->
  assign_parent t x y = Ok t' ->
  element_children t' = element_children t.
Proof.
  intros Hn Hraw H. destruct x as [px|]; [|discriminate H].
  destruct (find_some _ _ _ Hn) as (m & Hget & Hm).
  apply bool_decide_eq_true in Hm. rewrite <- Hm in Hraw.
  cbn [assign_parent] in H. destruct y as [py|].
  - exact (set_parent_element_children _ _ _ _ _ H Hget Hraw).
  - injection H as <-. exact (detach_element_children _ _ _ Hget Hraw).
Qed.

Lemma mirrors_refl (m : Model) : mirrors m m.
Proof. exists []. cbn [map]. rewrite !app_nil_r. split; reflexivity. Qed.

Lemma mirrors_trans (m1 m2 m3 : Model) :
  mirrors m1 m2 -> mirrors m2 m3 -> mirrors m1 m3.
Proof.
  intros (a & Ha & Hca) (b & Hb & Hcb). exists (a ++ b).
  rewrite Hb, Ha, Hcb, Hca, map_app, !app_assoc. split; reflexivity.
Qed.

Lemma mirrors_root (m m' : Model) (root : Node) (n : nat) :
  mirrors m m' ->
  element_children root = element_children (root_node m') ->
  mirrors m (mkModel root (ele_elements m') n).
Proof.
  intros (a & Ha & Hca) Hr. exists a. cbn [ele_elements root_node].
  split; [exact Ha|]. rewrite Hr. exact Hca.
Qed.

Lemma raw_leaf (nm : string) (r : referent) (tg : string) :
  raw (Some r) ->
  Forall (fun l => raw (id l)) (leaves (mkNode nm (Some r) tg [])).
Proof. intros H. constructor; [exact H|constructor]. Qed.

Lemma raw_kids (cs : list Node) :
  Forall (fun c => Forall (fun l => raw (id l)) (leaves c)) cs ->
  Forall (fun l => raw (id l)) (flat_map leaves cs).
Proof.
  induction 1 as [|c cs Hc _ IH]; [constructor|].
  cbn [flat_map]. apply List.Forall_app. split; assumption.
Qed.

Lemma profile_children_raw (ss : list (nat * Interface)) :
  forall k gs,
    Forall (fun c => Forall (fun l => raw (id l)) (leaves c))
           (profile_children k ss gs).
Proof.
  induction ss as [|[idx s] ss IH]; intros k gs; cbn [profile_children].
  - constructor.
  - constructor.
    + cbn [leaves flat_map app]. apply raw_leaf. exact I.
    + destruct gs as [|[gidx g] gs].
      * apply IH.
      * constructor; [apply raw_leaf; exact I|apply IH].
Qed.

Lemma profile_children_nonempty (ss : list (nat * Interface)) (k : nat)
  (gs : list (nat * Gap)) :
  ss <> [] -> profile_children k ss gs <> [].
Proof. destruct ss as [|[idx s] ss]; [congruence|discriminate]. Qed.

(** The leaves of the fragment of an element that wraps something
    reference surfaces and gaps. *)
Lemma tree_leaves_raw (e : Element) (tg : option string) (lbl : string) :
  wraps_something e ->
  Forall (fun l => raw (id l)) (leaves (set_name lbl (elements.tree e tg))).
Proof.
  unfold wraps_something, elements.tree, set_name.
  destruct (e_kind e); intros Hne; cbn [id tag children];
    rewrite leaves_children;
    try (apply raw_kids);
    try (apply profile_children_raw);
    try (apply profile_children_nonempty; exact Hne);
    try (intros Hmap; apply map_eq_nil in Hmap; exact (Hne Hmap));
    apply List.Forall_map; apply List.Forall_forall; intros x _;
    first [apply raw_leaf; exact I
          |cbn [leaves flat_map app]; apply raw_leaf; exact I].
Qed.

Lemma tree_id (e : Element) (tg : option string) :
  id (elements.tree e tg) = Some (RElem e).
Proof. unfold elements.tree. destruct (e_kind e); reflexivity. Qed.

Lemma add_element_element_children (t t' : Node) (e : Element)
  (tg : option string) :
  add_element_to_tree t e tg = Ok t' -> wraps_something e ->
  element_children t' = element_children t ++ [element_entry e].
Proof.
  unfold add_element_to_tree. intros Ht Hw.
  apply (add_fragment_element_children _ _ _ e Ht).
  - apply tree_leaves_raw. exact Hw.
  - apply tree_id.
Qed.

Lemma emit_mirrors (m m' : Model) (e : Element) (tg : option string) :
  emit m e tg = Ok m' -> wraps_something e -> mirrors m m'.
Proof.
  intros H Hw. destruct (emit_inv _ _ _ _ H) as (He & _ & Ht).
  exists [e]. split; [exact He|].
  exact (add_element_element_children _ _ _ _ Ht Hw).
Qed.

Lemma lens_branch_mirrors (m : Model) (n : nat) (b : bool)
  (eles : list entry) (cur cur' : entry) (m' : Model) (n' : nat) :
  lens_branch m n b eles cur = Ok (m', n', cur') -> mirrors m m'.
Proof.
  unfold lens_branch. destruct cur as [[i ifc] g]. intros H.
  bind_step H as x E0. destruct x as [[i1 s1] g1].
  bind_step H as m1 E1.
  assert (Hg : mirrors m m1)
    by (eapply emit_mirrors; [exact E1|discriminate]).
  destruct b.
  - bind_step H as y Ey. bind_step H as ifc_node E2.
    bind_step H as p_node E3. bind_step H as r1 E4.
    bind_step H as g_node E5. bind_step H as r2 E6.
    bind_step H as g1_node E7. bind_step H as r3 E8.
    injection H as <- _ _.
    apply mirrors_root; [exact Hg|].
    rewrite (assign_after_node _ _ _ _ _ E7 I E8),
      (assign_after_node _ _ _ _ _ E5 I E6).
    exact (assign_after_node _ _ _ _ _ E2 I E4).
  - injection H as <- _ _. exact Hg.
Qed.

Lemma buried_fold_element_children (eles : list entry)
  (l : list (nat * Z)) :
  forall root root',
    foldM (fun root (x : nat * Z) =>
             let '(i, j) := x in
             y ← pylist.index eles j;
             let ifc := snd (fst y) in
             ifc_node ← node root (RIfc ifc);
             let pid := "p" +:+ pystr.str i in
             p_node ← find_in_e_node root pid;
             root ← assign_parent root ifc_node p_node;
             z ← pylist.index eles (j - 1);
             let g := snd z in
             g_node ← node root (RGap g);
             match g_node with
             | Some pg => set_parent root pg (e_path root)
             | None => Ok root
             end) l root = Ok root' ->
    element_children root' = element_children root.
Proof.
  induction l as [|[i j] l IH]; intros root root' H; cbn [foldM] in H.
  - injection H as <-. reflexivity.
  - match type of H with
    | py.bind ?c _ = Ok _ => destruct c as [r1|] eqn:Hstep; [|discriminate H]
    end.
    cbn [py.bind] in H. rewrite (IH _ _ H). clear H IH.
    bind_step Hstep as y Ey. bind_step Hstep as ifc_node E2.
    bind_step Hstep as p_node E3. bind_step Hstep as r2 E4.
    bind_step Hstep as z Ez. bind_step Hstep as g_node E5.
    rewrite <- (assign_after_node _ _ _ _ _ E2 I E4).
    destruct g_node as [pg|].
    + destruct (find_some _ _ _ E5) as (mg & Hget & Hm).
      apply bool_decide_eq_true in Hm.
      eapply set_parent_element_children; [exact Hstep|exact Hget|].
      rewrite Hm. exact I.
    + injection Hstep as <-. reflexivity.
Qed.

Lemma index_nonempty {A} (l : list A) (a : A) :
  pylist.index l (-1) = Ok a -> l <> [].
Proof. intros H ->. vm_compute in H. discriminate H. Qed.

Lemma cemented_branch_mirrors (m : Model) (n : nat) (b : bool)
  (num_eles : nat) (eles eles' : list entry) (cur cur' : entry)
  (m' : Model) (n' : nat) :
  cemented_branch m n b num_eles eles cur = Ok (m', n', eles', cur') ->
  mirrors m m'.
Proof.
  unfold cemented_branch. intros H.
  bind_step H as m1 E1. bind_step H as root Er. bind_step H as last El.
  injection H as <- _ _ _.
  apply index_nonempty in El.
  assert (Hg : mirrors m m1).
  { eapply emit_mirrors; [exact E1|].
    unfold wraps_something. cbn [new_CementedElement e_kind e_ifcs].
    intros Hmap. apply map_eq_nil in Hmap.
    rewrite Nat.add_1_r in Hmap.
    destruct (if b then eles else eles ++ [cur]); [congruence|].
    discriminate Hmap. }
  apply mirrors_root; [exact Hg|].
  destruct b.
  - exact (buried_fold_element_children _ _ _ _ Er).
  - injection Er as <-. reflexivity.
Qed.

Lemma process_airgap_mirrors (seq_model : SequentialModel) (m : Model)
  (i : nat) (g : Gap) (s : Interface) (n : nat) (add_ele : bool)
  (m' : Model) (n' : nat) :
  process_airgap seq_model m i g s n add_ele = Ok (m', n') -> mirrors m m'.
Proof.
  unfold process_airgap. intros H. bind_step H as x Ex.
  destruct x as [m1 n1]. bind_step H as m2 E2. injection H as <- _.
  eapply mirrors_trans; [|eapply emit_mirrors; [exact E2|discriminate]].
  clear E2. revert Ex.
  destruct (String.eqb (interact_mode s) "reflect" && add_ele).
  { intros H. bind_step H as z Ez. bind_step H as m3 E3.
    injection H as <- _. eapply emit_mirrors; [exact E3|discriminate]. }
  destruct (is_thinlens s && add_ele).
  { intros H. bind_step H as m3 E3.
    injection H as <- _. eapply emit_mirrors; [exact E3|discriminate]. }
  destruct (String.eqb (interact_mode s) "transmit").
  - intros H. bind_step H as d Ed. destruct d as [[add_dummy lbl] tg].
    destruct add_dummy.
    + bind_step H as m3 E3. injection H as <- _.
      eapply emit_mirrors; [exact E3|discriminate].
    + injection H as <- _. apply mirrors_refl.
  - intros [= <- _]. apply mirrors_refl.
Qed.

Lemma loop_body_mirrors (seq_model : SequentialModel) (st st' : Loop)
  (x : nat * (Interface * option Gap)) :
  loop_body seq_model st x = Ok st' -> mirrors (l_model st) (l_model st').
Proof.
  unfold loop_body. destruct x as [i [ifc [g|]]]; intros H.
  2: { injection H as <-. apply mirrors_refl. }
  destruct (is_air g).
  2: { injection H as <-. apply mirrors_refl. }
  destruct (length (eles st) =? 0)%nat.
  { destruct (0 <? i)%nat.
    - bind_step H as r Hp. destruct r as [m n]. injection H as <-.
      cbn [l_model fst]. eapply process_airgap_mirrors. exact Hp.
    - injection H as <-. apply mirrors_refl. }
  bind_step H as cur Hcur. bind_step H as r Hr.
  destruct r as [[[m n] [[i' ifc'] g']] eles'].
  bind_step H as m2 E2. injection H as <-. cbn [l_model].
  eapply mirrors_trans; [|eapply emit_mirrors; [exact E2|discriminate]].
  destruct (_ =? 1)%nat.
  - bind_step Hr as r1 Hl. destruct r1 as [[m1 n1] c1].
    injection Hr as <- _ _ _. eapply lens_branch_mirrors. exact Hl.
  - destruct (1 <? _)%nat.
    + bind_step Hr as r1 Hc. destruct r1 as [[[m1 n1] e1] c1].
      injection Hr as <- _ _ _. eapply cemented_branch_mirrors. exact Hc.
    + injection Hr as <- _ _ _. apply mirrors_refl.
Qed.

Lemma foldM_mirrors (seq_model : SequentialModel)
  (xs : list (nat * (Interface * option Gap))) :
  forall st st',
    foldM (loop_body seq_model) xs st = Ok st' ->
    mirrors (l_model st) (l_model st').
Proof.
  induction xs as [|x xs IH]; intros st st' H; cbn [foldM] in H.
  - injection H as <-. apply mirrors_refl.
  - destruct (loop_body seq_model st x) as [st1|] eqn:H1; [|discriminate H].
    cbn [py.bind] in H.
    eapply mirrors_trans; [eapply loop_body_mirrors; exact H1|].
    apply IH. exact H.
Qed.

Lemma init_element_children (seq_model : SequentialModel)
  (root root' : Node) :
  init_from_sequence root seq_model = Ok root' ->
  element_children root' = element_children root.
Proof.
  unfold init_from_sequence.
  generalize (pylist.enumerate 1 (pylist.inner (ifcs seq_model))).
  intros l. revert root. induction l as [|[i s] l IH]; intros root H;
    cbn [foldM] in H.
  - injection H as <-. reflexivity.
  - match type of H with
    | py.bind ?c _ = Ok _ => destruct c as [r1|] eqn:Hstep; [|discriminate H]
    end.
    cbn [py.bind] in H. rewrite (IH _ H).
    bind_step Hstep as gap Eg.
    match type of Hstep with
    | Ok ?r = Ok _ => assert (Hr1 : r1 = r) by congruence
    end.
    subst r1. rewrite !attach_element_children by exact I. reflexivity.
Qed.

(** X14.  The children of the root that reference elements mirror the
    catalog: after a returning run of the grouping engine they are, in
    order, those there were before the run, followed by one child per
    element that the run added to the catalog, in the order of the
    catalog, each named by the label of its element; the re-parenting of
    nodes around a buried reflector does not disturb them. *)
Theorem grouping_element_children (seq_model : SequentialModel)
  (m m' : Model) :
  elements_from_sequence seq_model m = Ok m' ->
  exists new,
    ele_elements m' = ele_elements m ++ new /\
    element_children (root_node m')
    = element_children (root_node m) ++ map element_entry new.
Proof.
  unfold elements_from_sequence. intros H.
  bind_step H as root Hroot. bind_step H as st Hf. injection H as <-.
  apply foldM_mirrors in Hf. cbn [l_model] in Hf.
  destruct Hf as (new & He & Hc). cbn [ele_elements root_node] in He, Hc.
  exists new. split; [exact He|]. rewrite Hc. f_equal.
  destruct (length (children (root_node m)) =? 0)%nat.
  - eapply init_element_children. exact Hroot.
  - injection Hroot as <-. reflexivity.
Qed.

End element_node_facts.

(** The nodes of the lens and of the air gap of the folded prism. *)
Lemma grouping_element_children_witness :
  exists new,
    parttree.ele_elements folded_model
    = parttree.ele_elements ex.empty_model ++ new /\
    element_children (parttree.root_node folded_model)
    = element_children (parttree.root_node ex.empty_model)
      ++ map element_entry new.
Proof.
  apply (grouping_element_children folded ex.empty_model folded_model).
  vm_compute. reflexivity.
Defined.

(** ** [process_airgap] at a mirror or a thin lens *)

Section more_airgap_facts.

Import parttree elements.

Tactic Notation "bind_step" hyp(H) "as" ident(x) ident(E) :=
  cbv zeta in H;
  match type of H with
  | (?c ≫= _) = Ok _ =>
      destruct c as [x|] eqn:E;
      [cbn [mbind result_bind py.bind] in H|discriminate H]
  end.

Variable seq_model : SequentialModel.

(** X15.  At a surface that reflects or is a thin lens, a returning
    [process_airgap] with [add_ele] set advances the counter by one and
    adds exactly two elements to the catalog: a mirror (if the surface
    reflects) or else a thin element, over that surface and labelled
    with the new value of the counter, and then the air gap, labelled
    with the index of the surface; for a mirror the direction list
    [z_dir] reaches the index. *)
Theorem process_airgap_mirror_or_thin (m : Model) (i : nat) (g : Gap)
  (s : Interface) (num_ele : nat) (m' : Model) (n' : nat) :
  String.eqb (interact_mode s) "reflect" || is_thinlens s = true ->
  process_airgap seq_model m i g s num_ele true = Ok (m', n') ->
  n' = S num_ele /\
  (String.eqb (interact_mode s) "reflect" = true ->
   (i < length (z_dir seq_model))%nat) /\
  exists e ag,
    ele_elements m' = ele_elements m ++ [e; ag] /\
    wraps e = (if String.eqb (interact_mode s) "reflect"
               then Mirror else ThinElement, [(i, s)], []) /\
    label e = label_format (e_kind e) (S num_ele) /\
    wraps ag = (AirGap, [], [(i, g)]) /\
    label ag = label_format AirGap i.
Proof.
  unfold process_airgap. intros Hs H. rewrite !Bool.andb_true_r in H.
  destruct (String.eqb (interact_mode s) "reflect").
  - bind_step H as x Ex. destruct x as [m1 n1]. bind_step H as m2 E2.
    injection H as <- <-.
    bind_step Ex as z Ez. bind_step Ex as m3 E3. injection Ex as <- <-.
    destruct (emit_inv _ _ _ _ E3) as (He3 & _ & _).
    destruct (emit_inv _ _ _ _ E2) as (He2 & _ & _).
    split; [reflexivity|]. split.
    + intros _. unfold pylist.index in Ez.
      destruct (Z.ltb_spec (Z.of_nat i) 0) as [?|_]; [lia|].
      destruct (Z.ltb_spec (Z.of_nat i) 0) as [?|_]; [lia|].
      rewrite Nat2Z.id in Ez. apply nth_error_Some.
      destruct (nth_error (z_dir seq_model) i); [discriminate|discriminate Ez].
    + eexists. eexists.
      split; [rewrite He2, He3, <- app_assoc; reflexivity|].
      repeat split.
  - cbn [orb] in Hs. rewrite Hs in H.
    bind_step H as x Ex. destruct x as [m1 n1]. bind_step H as m2 E2.
    injection H as <- <-.
    bind_step Ex as m3 E3. injection Ex as <- <-.
    destruct (emit_inv _ _ _ _ E3) as (He3 & _ & _).
    destruct (emit_inv _ _ _ _ E2) as (He2 & _ & _).
    split; [reflexivity|]. split; [discriminate|].
    eexists. eexists.
    split; [rewrite He2, He3, <- app_assoc; reflexivity|].
    repeat split.
Qed.

Lemma find_not_index (f : Node -> bool) (t : Node) :
  find f t <> Raise IndexError.
Proof.
  unfold find. destruct (List.filter _ (walk t)) as [|pn [|? ?]];
    discriminate.
Qed.

Lemma detach_fold_not_index (ls : list Node) :
  forall t,
    foldM (fun root leaf_node =>
             obj ← of_option AttributeError (id leaf_node);
             dup_node ← node root obj;
             Ok match dup_node with
                | Some p => detach root p
                | None => root
                end) ls t <> Raise IndexError.
Proof.
  induction ls as [|l ls IH]; intros t; cbn [foldM]; [discriminate|].
  destruct (id l) as [obj|]; [|discriminate].
  cbn [of_option mbind result_bind py.bind].
  destruct (node t obj) as [dup|e] eqn:Hn.
  - cbn [py.bind]. apply IH.
  - cbn [py.bind]. intros [= ->]. exact (find_not_index _ _ Hn).
Qed.

(** Attaching an element never raises [IndexError]. *)
Lemma emit_not_index (m : Model) (e : Element) (tg : option string) :
  emit m e tg <> Raise IndexError.
Proof.
  unfold emit, add_element_to_tree, add_fragment_to_tree.
  match goal with
  | |- context [foldM ?f ?ls ?t] =>
      pose proof (detach_fold_not_index ls t) as Hf;
      destruct (foldM f ls t) as [t2|err]
  end.
  - discriminate.
  - cbn [mbind result_bind py.bind]. intros [= ->]. apply Hf. reflexivity.
Qed.

(** X16.  At a reflecting surface, [process_airgap] with [add_ele] set
    raises [IndexError] exactly when the direction list [z_dir] of the
    sequence model does not reach the index of the surface. *)
Theorem process_airgap_short_z_dir (m : Model) (i : nat) (g : Gap)
  (s : Interface) (num_ele : nat) :
  String.eqb (interact_mode s) "reflect" = true ->
  process_airgap seq_model m i g s num_ele true = Raise IndexError
  <-> (length (z_dir seq_model) <= i)%nat.
Proof.
  intros Hr. unfold process_airgap. rewrite Hr. cbn [andb].
  destruct (le_lt_dec (length (z_dir seq_model)) i) as [Hlen|Hlen].
  - rewrite (index_past _ _ Hlen). split; [intros _; exact Hlen|reflexivity].
  - split; [|lia]. intros H. exfalso.
    destruct (nth_error (z_dir seq_model) i) as [z|] eqn:Hz;
      [|apply nth_error_None in Hz; lia].
    rewrite (index_nat _ _ _ Hz) in H.
    cbn [mbind result_bind py.bind] in H.
    match type of H with
    | context [emit m ?e None] =>
        pose proof (emit_not_index m e None) as He;
        destruct (emit m e None) as [m1|err]
    end.
    + cbn [mbind result_bind py.bind] in H.
      match type of H with
      | context [emit m1 ?e None] =>
          pose proof (emit_not_index m1 e None) as He1;
          destruct (emit m1 e None) as [m2|err]
      end.
      * discriminate H.
      * cbn [mbind result_bind py.bind] in H. injection H as ->.
        apply He1. reflexivity.
    + cbn [mbind result_bind py.bind] in H. injection H as ->.
      apply He. reflexivity.
Qed.

End more_airgap_facts.

(** The mirror of the train, classified behind a fresh tree. *)
Lemma process_airgap_mirror_or_thin_witness :
  exists m' e ag,
    parttree.process_airgap ex.train ex.empty_model 6 (ex.air 6)
                            (ex.mirror 6) 2 true = Ok (m', 3%nat) /\
    parttree.ele_elements m' = [e; ag] /\
    wraps e = (Mirror, [(6%nat, ex.mirror 6)], []) /\ label e = "M3" /\
    wraps ag = (AirGap, [], [(6%nat, ex.air 6)]) /\ label ag = "AG6".
Proof.
  destruct (parttree.process_airgap ex.train ex.empty_model 6 (ex.air 6)
              (ex.mirror 6) 2 true) as [[m' n']|] eqn:E;
    [|vm_compute in E; discriminate E].
  destruct (process_airgap_mirror_or_thin ex.train ex.empty_model 6
              (ex.air 6) (ex.mirror 6) 2 m' n' eq_refl E)
    as (-> & _ & e & ag & He & Hwe & Hle & Hwag & Hlag).
  exists m', e, ag. split; [reflexivity|]. split; [exact He|].
  split; [exact Hwe|]. split; [|split; [exact Hwag|exact Hlag]].
  rewrite Hle. injection Hwe as -> _ _. reflexivity.
Defined.

(** A mirror at index 6 of a sequence with no directions. *)
Lemma process_airgap_short_z_dir_witness :
  parttree.process_airgap (mkSeq [] [] [] None) ex.empty_model 6 (ex.air 6)
                          (ex.mirror 6) 0 true
  = Raise IndexError.
Proof.
  apply (process_airgap_short_z_dir (mkSeq [] [] [] None)).
  - reflexivity.
  - cbn [z_dir length]. lia.
Defined.

(** ** Adding a whole element model *)

Section element_model_facts.

Import parttree elements.

(** X17.  When [add_element_model_to_tree] returns for elements that
    each wrap at least one interface (one gap, for an air gap), the
    children of the root that reference elements are, in order, those
    there were, followed by one child per element of the model, in the
    order of the model, each named by the label of its element. *)
Theorem add_element_model_children (els : list Element) :
  forall root root',
    add_element_model_to_tree root els = Ok root' ->
    Forall wraps_something els ->
    element_children root'
    = element_children root ++ map element_entry els.
Proof.
  unfold add_element_model_to_tree.
  induction els as [|e els IH]; intros root root' H Hw; cbn [foldM] in H.
  - injection H as <-. cbn [map]. rewrite app_nil_r. reflexivity.
  - destruct (add_element_to_tree root e None) as [r1|] eqn:H1;
      [|discriminate H].
    cbn [py.bind] in H. inversion Hw as [|? ? Hwe Hws]; subst.
    rewrite (IH _ _ H Hws), (add_element_element_children _ _ _ _ H1 Hwe).
    cbn [map]. rewrite <- app_assoc. reflexivity.
Qed.

End element_model_facts.

(** The catalog of the grouped train, added to a fresh tree. *)
Lemma add_element_model_children_witness :
  exists root',
    parttree.add_element_model_to_tree
      parttree.new_root (parttree.ele_elements ex.train_model) = Ok root' /\
    element_children root'
    = element_children parttree.new_root
      ++ map element_entry (parttree.ele_elements ex.train_model).
Proof.
  eexists. split; [vm_compute; reflexivity|].
  apply (add_element_model_children (parttree.ele_elements ex.train_model)
                                    parttree.new_root).
  - vm_compute. reflexivity.
  - unfold ex.train_model. cbn [parttree.ele_elements].
    repeat (constructor; [discriminate|]). constructor.
Defined.

(** ** [FieldSpec.max_field]: which field is returned *)

Section more_max_field_facts.

Import optical.
Local Open Scope float_scope.

Lemma SFltb_below a b c :
  SFltb a b = false -> SFltb a c = true -> SFeqb b b = true ->
  SFltb b c = true.
Proof.
  unfold SFltb, SFeqb, SFcompare.
  destruct a as [sa|sa| |sa ma ea], b as [sb|sb| |sb mb eb],
           c as [sc|sc| |sc mc ec];
    repeat match goal with s : bool |- _ => destruct s end; simpl;
    try discriminate; try reflexivity;
    destruct (Z.compare_spec ea eb), (Z.compare_spec eb ec),
             (Z.compare_spec ea ec);
    try discriminate; try reflexivity; try lia; subst;
    rewrite ?Pos.compare_cont_spec; simpl;
    destruct (Pos.compare_spec ma mb), (Pos.compare_spec mb mc),
             (Pos.compare_spec ma mc);
    simpl; try discriminate; try reflexivity; try lia.
Qed.

Lemma ltb_below (a b c : float) :
  (a <? b) = false -> (a <? c) = true -> (b =? b) = true ->
  (b <? c) = true.
Proof.
  rewrite !FloatAxioms.ltb_spec, FloatAxioms.eqb_spec. apply SFltb_below.
Qed.

Lemma first_body_inv (pre : list Field) (st : float * option nat)
  (f : Field) :
  loop_inv pre st -> first_inv pre st ->
  first_inv (pre ++ [f]) (max_field_body st (length pre, f)).
Proof.
  destruct st as [m idx]. intros [Hub Hat] Hfirst. unfold max_field_body.
  fold (fld_sqrd f). cbn [fst snd] in Hub, Hat. unfold first_inv in *.
  cbn [fst snd] in Hfirst.
  destruct (m <? fld_sqrd f) eqn:Hlt; cbn [fst snd].
  - intros j g Hj Hg Hnum. rewrite nth_error_app1 in Hg by exact Hj.
    apply (ltb_below m); [|exact Hlt|exact Hnum].
    apply Hub. eapply nth_error_In. exact Hg.
  - destruct idx as [i|]; [|exact I].
    destruct Hat as (f0 & Hf0 & _).
    assert (Hi : (i < length pre)%nat)
      by (apply nth_error_Some; congruence).
    intros j g Hj Hg Hnum.
    rewrite nth_error_app1 in Hg by lia.
    apply (Hfirst j g Hj Hg Hnum).
Qed.

Lemma first_fold_inv (l pre : list Field) (st : float * option nat) :
  loop_inv pre st -> first_inv pre st ->
  first_inv (pre ++ l)
            (fold_left max_field_body (pylist.enumerate (length pre) l) st).
Proof.
  revert pre st. induction l as [|f l IH]; intros pre st Hinv Hfirst;
    cbn [pylist.enumerate fold_left].
  - rewrite app_nil_r. exact Hfirst.
  - replace (pre ++ f :: l) with ((pre ++ [f]) ++ l)
      by (rewrite <- app_assoc; reflexivity).
    replace (S (length pre)) with (length (pre ++ [f]))
      by (rewrite length_app; cbn [length]; lia).
    apply IH; [apply max_field_body_inv|apply first_body_inv]; assumption.
Qed.

(** X18.  When [max_field] returns an index, every earlier field whose
    squared length [x*x + y*y] is a number (not a NaN) has a squared
    length strictly below that of the returned field: among fields of
    equal, maximal length the first one is returned. *)
Theorem max_field_first (fields : list Field) (i : nat) :
  snd (max_field fields) = Some i ->
  exists f,
    nth_error fields i = Some f /\
    forall j g,
      (j < i)%nat -> nth_error fields j = Some g ->
      (fld_sqrd g =? fld_sqrd g) = true ->
      (fld_sqrd g <? fld_sqrd f) = true.
Proof.
  assert (H0 : loop_inv [] (0, None))
    by (split; cbn [fst snd]; [intros f []|reflexivity]).
  pose proof (max_field_fold_inv fields [] (0, None) H0) as Hinv.
  pose proof (first_fold_inv fields [] (0, None) H0 I) as Hfirst.
  cbn [app length] in Hinv, Hfirst.
  unfold max_field. fold (max_field_loop fields) in Hinv, Hfirst.
  destruct (max_field_loop fields) as [m idx]. cbn [snd]. intros ->.
  destruct Hinv as [_ (f & Hf & Hm)]. cbn [fst snd] in Hf, Hm.
  unfold first_inv in Hfirst. cbn [fst snd] in Hfirst.
  exists f. split; [exact Hf|]. rewrite Hm. exact Hfirst.
Qed.

Lemma max_field_fold_none (l : list Field) :
  forall k,
    (forall f, In f l -> (0 <? fld_sqrd f) = false) ->
    fold_left max_field_body (pylist.enumerate k l) (0, None) = (0, None).
Proof.
  induction l as [|f l IH]; intros k Hz; [reflexivity|].
  cbn [pylist.enumerate fold_left max_field_body].
  fold (fld_sqrd f). rewrite (Hz f (or_introl eq_refl)).
  apply IH. intros g Hg. apply Hz. right. exact Hg.
Qed.

(** X19.  [max_field] returns no index exactly when no field has a
    squared length above [0.0]; the value it returns then is the square
    root of [0.0]. *)
Theorem max_field_none_iff (fields : list Field) :
  snd (max_field fields) = None
  <-> forall f, In f fields -> (0 <? fld_sqrd f) = false.
Proof.
  split.
  - assert (H0 : loop_inv [] (0, None))
      by (split; cbn [fst snd]; [intros f []|reflexivity]).
    pose proof (max_field_fold_inv fields [] (0, None) H0) as Hinv.
    cbn [app length] in Hinv.
    unfold max_field. fold (max_field_loop fields) in Hinv.
    destruct (max_field_loop fields) as [m idx]. cbn [snd]. intros ->.
    destruct Hinv as [Hub Hm]. cbn [fst snd] in Hub, Hm. subst m.
    exact Hub.
  - intros Hz. unfold max_field, max_field_loop.
    rewrite (max_field_fold_none fields 0 Hz). reflexivity.
Qed.

End more_max_field_facts.

(** Two fields of equal length behind a shorter one: the first of the
    two is returned. *)
Lemma max_field_first_witness :
  exists f,
    nth_error [optical.mkField 0 1; optical.mkField 0 2;
               optical.mkField 2 0]%float 1
    = Some f /\
    forall j g,
      (j < 1)%nat ->
      nth_error [optical.mkField 0 1; optical.mkField 0 2;
                 optical.mkField 2 0]%float j
      = Some g ->
      (optical.fld_sqrd g =? optical.fld_sqrd g)%float = true ->
      (optical.fld_sqrd g <? optical.fld_sqrd f)%float = true.
Proof.
  apply (max_field_first
           [optical.mkField 0 1; optical.mkField 0 2;
            optical.mkField 2 0]%float 1).
  vm_compute. reflexivity.
Defined.

(** ** [FieldSpec]: setting the fields *)

Section field_spec_facts.

Import opticalspec.
Local Open Scope float_scope.

Lemma assign_from (attr : string) (values : list float)
  (fields : list FieldObj) :
  forall k vs,
    skipn k values = vs -> length fields = length vs ->
    mapM (fun x : nat * FieldObj =>
            v ← pylist.index values (Z.of_nat (fst x));
            Ok (setattr (snd x) attr v))
         (pylist.enumerate k fields)
    = Ok (map (fun fv => setattr (fst fv) attr (snd fv))
              (combine fields vs)).
Proof.
  induction fields as [|f fields IH]; intros k vs Hk Hlen.
  - reflexivity.
  - destruct vs as [|v vs]; [discriminate Hlen|].
    destruct (skipn_cons_nth _ _ _ _ Hk) as [Hv Hk'].
    cbn [pylist.enumerate combine map]. rewrite mapM_cons. cbn [fst snd].
    rewrite (index_nat _ _ _ Hv). cbn [mbind result_bind py.bind].
    rewrite (IH (S k) vs Hk'); [reflexivity|].
    cbn [length] in Hlen. lia.
Qed.

(** The assignment loop over as many fields as values never raises. *)
Lemma assign_total (attr : string) (fields : list FieldObj)
  (values : list float) :
  length fields = length values ->
  assign attr fields values
  = Ok (map (fun fv => setattr (fst fv) attr (snd fv))
            (combine fields values)).
Proof. intros H. exact (assign_from attr values fields 0 values eq_refl H). Qed.

Lemma base_length (fs : FieldSpec) (dlist : list float) :
  length (if negb (length (fields fs) =? length dlist)%nat
          then repeat new_Field (length dlist)
          else fields fs)
  = length dlist.
Proof.
  destruct (length (fields fs) =? length dlist)%nat eqn:E; cbn [negb].
  - apply Nat.eqb_eq. exact E.
  - apply repeat_length.
Qed.

Lemma update_returns (fs : FieldSpec) (tla a : string)
  (dlist : list float) :
  cv_attr tla = Ok (Some a) ->
  update_fields_cv_input fs tla dlist
  = Returns
      (mkFieldSpec (cv_type tla (type fs))
         (map (fun fv => setattr (fst fv) a (snd fv))
              (combine (if negb (length (fields fs) =? length dlist)%nat
                        then repeat new_Field (length dlist)
                        else fields fs)
                       dlist))
         (wide_angle fs)).
Proof.
  intros Ha. unfold update_fields_cv_input. rewrite Ha.
  pose proof (base_length fs dlist) as Hlen.
  destruct (if negb _ then _ else _) as [|f l] eqn:Eb.
  - reflexivity.
  - rewrite assign_total by exact Hlen. reflexivity.
Qed.

(** X20.  [update_fields_cv_input] raises [IndexError] exactly for the
    empty code, and [UnboundLocalError] exactly for a non-empty list of
    values under a code that begins with neither [V], [X] nor [Y] and is
    not [WTF]; in every other case it returns. *)
Theorem update_fields_cv_input_raises (fs : FieldSpec) (tla : string)
  (dlist : list float) :
  (update_fields_cv_input fs tla dlist = Fails CvIndexError
   <-> tla = EmptyString) /\
  (update_fields_cv_input fs tla dlist = Fails UnboundLocalError
   <-> dlist <> [] /\
       exists c s, tla = String c s /\ c <> "V"%char /\ c <> "X"%char /\
                   c <> "Y"%char /\ tla <> "WTF"%string).
Proof.
  destruct tla as [|c s].
  { split; split; try reflexivity; try discriminate.
    intros (_ & c & s & H & _). discriminate H. }
  assert (Hattr : (exists a, cv_attr (String c s) = Ok (Some a)) \/
                  (cv_attr (String c s) = Ok None /\
                   c <> "V"%char /\ c <> "X"%char /\ c <> "Y"%char /\
                   String c s <> "WTF"%string)).
  { unfold cv_attr. cbn [pystr.first mbind result_bind py.bind].
    destruct (Ascii.eqb_spec c "V"); [left; eexists; reflexivity|].
    destruct (Ascii.eqb_spec c "X"); [left; eexists; reflexivity|].
    destruct (Ascii.eqb_spec c "Y"); [left; eexists; reflexivity|].
    cbn [orb].
    destruct (String.eqb_spec (String c s) "WTF");
      [left; eexists; reflexivity|].
    right. auto. }
  destruct Hattr as [[a Ha]|(Hnone & HV & HX & HY & HW)].
  - rewrite (update_returns _ _ _ _ Ha).
    split; split; try discriminate.
    intros (_ & c' & s' & [= <- <-] & HV & HX & HY & HW).
    revert Ha. unfold cv_attr. cbn [pystr.first mbind result_bind py.bind].
    rewrite (proj2 (Ascii.eqb_neq _ _) HV), (proj2 (Ascii.eqb_neq _ _) HX),
      (proj2 (Ascii.eqb_neq _ _) HY), (proj2 (String.eqb_neq _ _) HW).
    discriminate.
  - unfold update_fields_cv_input. rewrite Hnone.
    pose proof (base_length fs dlist) as Hlen.
    destruct (if negb _ then _ else _) as [|f l] eqn:Eb.
    + destruct dlist; [|discriminate Hlen].
      split; split; try discriminate. intros [H _]. congruence.
    + split; split; try discriminate; try reflexivity. intros _.
      split; [destruct dlist; [discriminate Hlen|discriminate]|].
      exists c, s. auto.
Qed.

Lemma nth_combine {A B} (l : list A) (d : list B) (dflt : A) :
  forall i a b,
    nth_error (combine l d) i = Some (a, b) ->
    nth_error d i = Some b /\ a = nth i l dflt.
Proof.
  revert d. induction l as [|a0 l IH]; intros d i a b H;
    [destruct i; discriminate H|].
  destruct d as [|b0 d]; [destruct i; discriminate H|].
  destruct i as [|i]; cbn [combine nth_error nth] in H |- *.
  - injection H as <- <-. split; reflexivity.
  - apply IH. exact H.
Qed.

Lemma nth_combine_repeat {A B} (a0 : A) (n : nat) (d : list B) :
  forall i a b,
    nth_error (combine (repeat a0 n) d) i = Some (a, b) ->
    nth_error d i = Some b /\ a = a0.
Proof.
  intros i a b H. split; [exact (proj1 (nth_combine _ _ a0 _ _ _ H))|].
  apply nth_error_In, in_combine_l in H. exact (repeat_spec _ _ _ H).
Qed.

(** X21.  When [update_fields_cv_input] returns, there is one field per
    value; the field type is the one the code selects, or the previous
    one; each field carries its value in the attribute the code names;
    and its other attributes are those of the field that was at that
    position if the number of values is the number of fields there were,
    and those of a fresh [Field()] otherwise. *)
Theorem update_fields_cv_input_fields (fs fs' : FieldSpec) (tla : string)
  (dlist : list float) :
  update_fields_cv_input fs tla dlist = Returns fs' ->
  type fs' = cv_type tla (type fs) /\
  wide_angle fs' = wide_angle fs /\
  length (fields fs') = length dlist /\
  forall i f',
    nth_error (fields fs') i = Some f' ->
    exists a v,
      cv_attr tla = Ok (Some a) /\ nth_error dlist i = Some v /\
      f' = setattr (if (length (fields fs) =? length dlist)%nat
                    then nth i (fields fs) new_Field
                    else new_Field) a v.
Proof.
  intros H. pose proof (base_length fs dlist) as Hlen.
  destruct (cv_attr tla) as [[a|]|e] eqn:Ha.
  - rewrite (update_returns _ _ _ _ Ha) in H. injection H as <-.
    cbn [type wide_angle fields]. split; [reflexivity|].
    split; [reflexivity|]. split.
    + rewrite length_map, length_combine, Hlen. lia.
    + intros i f' Hi. rewrite nth_error_map in Hi.
      destruct (nth_error (combine _ dlist) i) as [[f0 v]|] eqn:Hc;
        [|discriminate Hi].
      injection Hi as <-. exists a, v. split; [reflexivity|].
      destruct (length (fields fs) =? length dlist)%nat;
        cbn [negb] in Hc.
      * destruct (nth_combine _ _ new_Field _ _ _ Hc) as [Hv ->].
        split; [exact Hv|reflexivity].
      * destruct (nth_combine_repeat _ _ _ _ _ _ Hc) as [Hv ->].
        split; [exact Hv|reflexivity].
  - unfold update_fields_cv_input in H. rewrite Ha in H.
    destruct (if negb _ then _ else _) as [|f l] eqn:Eb; [|discriminate H].
    injection H as <-. cbn [type wide_angle fields].
    destruct dlist; [|discriminate Hlen].
    repeat split. intros i f' Hi. destruct i; discriminate Hi.
  - unfold update_fields_cv_input in H. rewrite Ha in H. discriminate H.
Qed.

(** X22.  Setting the [x] values and then the [y] values of a field
    specification always returns, with the field type [OBJ_ANG]; the
    fields it leaves pair the two lists when they are equally long, and
    otherwise have the [y] values over [x == 0.0]: the [x] values are
    lost. *)
Theorem cv_x_then_y (fs : FieldSpec) (xs ys : list float) :
  exists fs1 fs2,
    update_fields_cv_input fs "XAN" xs = Returns fs1 /\
    update_fields_cv_input fs1 "YAN" ys = Returns fs2 /\
    type fs2 = "OBJ_ANG"%string /\
    map (fun f => (x f, y f)) (fields fs2)
    = if (length xs =? length ys)%nat then combine xs ys
      else map (fun v => (0, v)) ys.
Proof.
  eexists. eexists.
  split; [apply (update_returns fs "XAN" "x"); reflexivity|].
  split; [apply (update_returns _ "YAN" "y"); reflexivity|].
  cbn [type fields]. split; [reflexivity|].
  rewrite length_map, length_combine, base_length, Nat.min_id.
  destruct (length xs =? length ys)%nat eqn:E; cbn [negb].
  - apply Nat.eqb_eq in E. rewrite map_map.
    generalize (if negb (length (fields fs) =? length xs)%nat
                then repeat new_Field (length xs) else fields fs),
               (base_length fs xs).
    intros l Hl. revert l ys Hl E.
    induction xs as [|xv xs IH]; intros l ys Hl E.
    + destruct ys; [|discriminate E]. destruct l; reflexivity.
    + destruct ys as [|yv ys]; [discriminate E|].
      destruct l as [|f l]; [discriminate Hl|].
      cbn [combine map fst snd]. f_equal.
      apply IH; [cbn [length] in Hl; lia|cbn [length] in E; lia].
  - rewrite map_map. clear.
    induction ys as [|yv ys IH]; [reflexivity|].
    cbn [length repeat combine map fst snd]. f_equal. exact IH.
Qed.

End field_spec_facts.

(** Three field angles read into a fresh specification. *)
Lemma update_fields_cv_input_fields_witness :
  exists fs',
    opticalspec.update_fields_cv_input
      (opticalspec.mkFieldSpec "OBJ_HT" [] false) "YAN" [0; 7; 10]%float
    = opticalspec.Returns fs' /\
    opticalspec.type fs' = "OBJ_ANG" /\
    map opticalspec.y (opticalspec.fields fs') = [0; 7; 10]%float.
Proof.
  eexists. split; [vm_compute; reflexivity|].
  destruct (update_fields_cv_input_fields
              (opticalspec.mkFieldSpec "OBJ_HT" [] false) _ "YAN"
              [0; 7; 10]%float eq_refl) as (Ht & _ & _ & _).
  split; [exact Ht|]. vm_compute. reflexivity.
Defined.

(** ** [FieldSpec.set_from_list], [WvlSpec] and [Field.apply_vignetting] *)

Section optical_spec_facts.

Import opticalspec.
Local Open Scope float_scope.

Lemma combine_repeat_map {A B C} (a0 : A) (f : A -> B -> C) (l : list B) :
  map (fun fv => f (fst fv) (snd fv)) (combine (repeat a0 (length l)) l)
  = map (f a0) l.
Proof.
  induction l as [|b l IH]; [reflexivity|].
  cbn [length repeat combine map fst snd]. f_equal. exact IH.
Qed.

(** X23.  [FieldSpec.set_from_list] never raises: it leaves one fresh
    field per value, with the value in [y] and [x == 0.0], and keeps the
    field type, which is what constructing a specification from these
    values leaves; [max_field] of the result is [max_field] of the
    points [(0.0, y)]. *)
Theorem set_from_list_fields (fs : FieldSpec) (flds : list float) :
  exists fs',
    set_from_list fs flds = Ok fs' /\
    new_FieldSpec (type fs) flds (wide_angle fs) = Ok fs' /\
    type fs' = type fs /\ wide_angle fs' = wide_angle fs /\
    fields fs' = map (fun v => setattr new_Field "y" v) flds /\
    fs_max_field fs' = optical.max_field (map (optical.mkField 0) flds).
Proof.
  unfold set_from_list, new_FieldSpec.
  rewrite assign_total by apply repeat_length.
  cbn [mbind result_bind py.bind]. eexists. split; [reflexivity|].
  split; [reflexivity|]. cbn [type wide_angle fields].
  rewrite (combine_repeat_map new_Field (fun f v => setattr f "y" v)).
  repeat split. unfold fs_max_field. cbn [fields]. rewrite map_map.
  reflexivity.
Qed.

Section spectrum_facts.

Variable rgb : Set.
Variable wvl_to_rgb : float -> rgb.

Lemma combine_fst_snd {A B} (l : list (A * B)) :
  combine (map fst l) (map snd l) = l.
Proof.
  induction l as [|[a b] l IH]; [reflexivity|].
  cbn [map combine fst snd]. f_equal. exact IH.
Qed.

(** X24.  After [WvlSpec.set_from_list] there is one render colour per
    wavelength, pairing the wavelengths with the weights gives back the
    list that was set, the colours are colour names exactly when there
    are at most three wavelengths, and [central_wvl] returns the
    wavelength of the pair at the reference index when the list reaches
    it. *)
Theorem wvl_set_from_list_colours (ws : WvlSpec rgb)
  (wlwts : list (float * float)) :
  let ws' := wvl_set_from_list rgb wvl_to_rgb ws wlwts in
  length (render_colors rgb ws') = length (wavelengths rgb ws') /\
  combine (wavelengths rgb ws') (spectral_wts rgb ws') = wlwts /\
  (Forall (fun c => exists nm, c = Named rgb nm) (render_colors rgb ws')
   <-> (length wlwts <= 3)%nat) /\
  forall k w t,
    reference_wvl rgb ws = Z.of_nat k -> nth_error wlwts k = Some (w, t) ->
    central_wvl rgb ws' = Ok w.
Proof.
  cbn zeta. unfold wvl_set_from_list, central_wvl.
  cbn [render_colors wavelengths spectral_wts reference_wvl].
  split; [|split; [apply combine_fst_snd|split]].
  3: { intros k w t -> Hk. apply index_nat.
       rewrite nth_error_map, Hk. reflexivity. }
  - unfold calc_colors. rewrite !length_map.
    destruct wlwts as [|a [|b [|c [|d l]]]]; cbn [length Nat.eqb];
      try reflexivity.
    rewrite !length_map. reflexivity.
  - unfold calc_colors. rewrite !length_map.
    destruct wlwts as [|a [|b [|c [|d l]]]]; cbn [length Nat.eqb map].
    + split; [lia|constructor].
    + split; [lia|]. intros _. repeat constructor; eexists; reflexivity.
    + split; [lia|]. intros _. repeat constructor; eexists; reflexivity.
    + split; [lia|]. intros _. repeat constructor; eexists; reflexivity.
    + split; [|lia]. intros H. inversion H as [|? ? [nm Hnm] _].
      discriminate Hnm.
Qed.

End spectrum_facts.

Lemma index_two {A} (a b : A) (l : list A) :
  pylist.index (a :: b :: l) 0 = Ok a /\
  pylist.index (a :: b :: l) 1 = Ok b.
Proof. split; reflexivity. Qed.

(** X25.  [Field.apply_vignetting] raises [IndexError] exactly on a
    pupil with fewer than two coordinates.  When it returns, the pupil
    has the length it had and the coordinates it had from the third on;
    and for a field whose four vignetting factors compare equal to
    [0.0], it is the pupil that was passed. *)
Theorem apply_vignetting_keeps (f : FieldObj) (pupil : list float) :
  (apply_vignetting f pupil = Raise IndexError
   <-> (length pupil < 2)%nat) /\
  forall pupil',
    apply_vignetting f pupil = Ok pupil' ->
    length pupil' = length pupil /\
    skipn 2 pupil' = skipn 2 pupil /\
    ((vux f =? 0) = true -> (vuy f =? 0) = true ->
     (vlx f =? 0) = true -> (vly f =? 0) = true -> pupil' = pupil).
Proof.
  destruct pupil as [|a [|b l]].
  - split; [split; [cbn [length]; lia|reflexivity]|discriminate].
  - split.
    + split; [cbn [length]; lia|]. intros _. unfold apply_vignetting.
      change (pylist.index [a] 0) with (Ok a).
      cbn [mbind result_bind py.bind].
      destruct (a <? 0); [destruct (negb (vlx f =? 0))
                         |destruct (negb (vux f =? 0))]; reflexivity.
    + unfold apply_vignetting.
      change (pylist.index [a] 0) with (Ok a).
      cbn [mbind result_bind py.bind].
      destruct (a <? 0); [destruct (negb (vlx f =? 0))
                         |destruct (negb (vux f =? 0))]; discriminate.
  - assert (Hstep : forall p0 c,
               scale (p0 :: b :: l) 0 c = Ok (p0 * c :: b :: l) /\
               scale (p0 :: b :: l) 1 c = Ok (p0 :: b * c :: l))
      by (intros; split; reflexivity).
    unfold apply_vignetting.
    change (pylist.index (a :: b :: l) 0) with (Ok a).
    cbn [mbind result_bind py.bind].
    split.
    + split; [|cbn [length]; lia].
      destruct (a <? 0);
        [destruct (vlx f =? 0)|destruct (vux f =? 0)]; cbn [negb];
        rewrite ?(proj1 (Hstep _ _)); cbn [mbind result_bind py.bind];
        match goal with
        | |- context [pylist.index (?p :: b :: l) 1] =>
            change (pylist.index (p :: b :: l) 1) with (Ok b)
        end;
        cbn [mbind result_bind py.bind];
        (destruct (b <? 0);
         [destruct (vly f =? 0)|destruct (vuy f =? 0)]); cbn [negb];
        rewrite ?(proj2 (Hstep _ _)); discriminate.
    + intros pupil'.
      destruct (a <? 0);
        [destruct (vlx f =? 0)|destruct (vux f =? 0)]; cbn [negb];
        rewrite ?(proj1 (Hstep _ _)); cbn [mbind result_bind py.bind];
        match goal with
        | |- context [pylist.index (?p :: b :: l) 1] =>
            change (pylist.index (p :: b :: l) 1) with (Ok b)
        end;
        cbn [mbind result_bind py.bind];
        (destruct (b <? 0);
         [destruct (vly f =? 0)|destruct (vuy f =? 0)]); cbn [negb];
        rewrite ?(proj2 (Hstep _ _)); intros [= <-];
        (split; [reflexivity|]); (split; [reflexivity|]);
        intros; first [reflexivity|discriminate].
Qed.

End optical_spec_facts.

(** A field vignetted below, at a pupil point below the axis. *)
Lemma apply_vignetting_keeps_witness :
  exists pupil',
    opticalspec.apply_vignetting
      (opticalspec.setattr opticalspec.new_Field "vly" 0.5)
      [0; -1; 3]%float = Ok pupil' /\
    length pupil' = 3%nat /\ skipn 2 pupil' = [3]%float.
Proof.
  eexists. split; [vm_compute; reflexivity|].
  destruct (proj2 (apply_vignetting_keeps
                     (opticalspec.setattr opticalspec.new_Field "vly" 0.5)
                     [0; -1; 3]%float)
                  [0; -0.5; 3]%float) as (Hl & Hs & _).
  - vm_compute. reflexivity.
  - split; [exact Hl|exact Hs].
Defined.

(** ** The nodes that the update direction re-derives *)

Section update_catalog_facts.

Import parttree elements.

Variable els : list Element.
Variable seq_model : SequentialModel.

Tactic Notation "bind_step" hyp(H) "as" ident(x) ident(E) :=
  cbv zeta in H;
  match type of H with
  | (?c ≫= _) = Ok _ =>
      destruct c as [x|] eqn:E;
      [cbn [mbind result_bind py.bind] in H|discriminate H]
  end.

Lemma of_option_inv {A} (err : exn) (o : option A) (a : A) :
  of_option err o = Ok a -> o = Some a.
Proof. destruct o; [intros [= ->]; reflexivity|discriminate]. Qed.

Lemma ele_dict_In (key : string) (e : Element) :
  ele_dict els key = Some e -> In e els /\ label e = key.
Proof.
  unfold ele_dict. intros H. apply List.find_some in H.
  destruct H as [Hin Heq]. split; [apply in_rev; exact Hin|].
  apply String.eqb_eq. exact Heq.
Qed.

Lemma index_In {A} (l : list A) (i : Z) (a : A) :
  pylist.index l i = Ok a -> In a l.
Proof.
  unfold pylist.index. destruct (_ <? 0)%Z; [discriminate|].
  destruct (nth_error l _) as [b|] eqn:Hb; [|discriminate].
  intros [= <-]. eapply nth_error_In. exact Hb.
Qed.

(** X26.  Whenever [sync_part_tree_on_update] returns, on any tree: a
    node whose name began with [p] keeps its name and references the
    profile of an interface of an element of the catalog; a node whose
    name began with [di] (respectively [tl]) references the reference
    interface (respectively the interface) of an element of the catalog
    and is named [di<k>] (respectively [tl<k>]), where [k] is the first
    position of that interface in the sequence model. *)
Theorem update_reassigns_from_catalog (t t' : Node) :
  sync_part_tree_on_update els seq_model t = Ok t' ->
  List.Forall2 (rederived els seq_model) (preorder t) (preorder t').
Proof.
  apply update_from_pairs.
  intros p_name nm i tg cs nm' i' cs' Hx _. unfold rederived. cbn [name id].
  unfold update_name_id in Hx. cbn [name id] in Hx.
  split; [|split].
  - intros s ->. cbn [pystr.first mbind result_bind py.bind Ascii.eqb
                      Bool.eqb] in Hx.
    bind_step Hx as pn Epn. bind_step Hx as e Ee. bind_step Hx as idx Ei.
    bind_step Hx as sf Es. injection Hx as <- <-.
    split; [reflexivity|]. exists e, sf.
    destruct p_name as [pn'|]; [|discriminate Epn]. injection Epn as ->.
    apply of_option_inv in Ee.
    split; [exact (proj1 (ele_dict_In _ _ Ee))|].
    split; [exact (index_In _ _ _ Es)|reflexivity].
  - intros Hdi. destruct nm as [|c [|d s]]; try discriminate Hdi.
    cbn [pystr.upto2] in Hdi. injection Hdi as -> ->.
    cbn [pystr.first pystr.upto2 mbind result_bind py.bind Ascii.eqb
         Bool.eqb String.eqb] in Hx.
    bind_step Hx as pn Epn. bind_step Hx as e Ee. bind_step Hx as sf Es.
    bind_step Hx as k Ek. injection Hx as <- <-.
    destruct p_name as [pn'|]; [|discriminate Epn]. injection Epn as ->.
    apply of_option_inv in Ee.
    destruct (index_of_first RIfc _ _ _ Ek) as (a & [= <-] & Hn & Hlt).
    exists e, sf, k. split; [exact (proj1 (ele_dict_In _ _ Ee))|].
    repeat split;
      first [assumption|reflexivity
            |intros j Hj Hnth; exact (Hlt j Hj Hnth)].
  - intros Htl. destruct nm as [|c [|d s]]; try discriminate Htl.
    cbn [pystr.upto2] in Htl. injection Htl as -> ->.
    cbn [pystr.first pystr.upto2 mbind result_bind py.bind Ascii.eqb
         Bool.eqb String.eqb] in Hx.
    bind_step Hx as pn Epn. bind_step Hx as e Ee. bind_step Hx as sf Es.
    bind_step Hx as k Ek. injection Hx as <- <-.
    destruct p_name as [pn'|]; [|discriminate Epn]. injection Epn as ->.
    apply of_option_inv in Ee.
    destruct (index_of_first RIfc _ _ _ Ek) as (a & [= <-] & Hn & Hlt).
    exists e, sf, k. split; [exact (proj1 (ele_dict_In _ _ Ee))|].
    repeat split;
      first [assumption|reflexivity
            |intros j Hj Hnth; exact (Hlt j Hj Hnth)].
Qed.

End update_catalog_facts.

(** The tree of the grouped planes, with its thin element and its dummy
    interface, updated. *)
Lemma update_reassigns_from_catalog_witness :
  exists t',
    parttree.sync_part_tree_on_update
      (parttree.ele_elements ex.planes_model) ex.planes
      (parttree.root_node ex.planes_model) = Ok t' /\
    List.Forall2 (rederived (parttree.ele_elements ex.planes_model) ex.planes)
                 (preorder (parttree.root_node ex.planes_model))
                 (preorder t').
Proof.
  eexists. split; [vm_compute; reflexivity|].
  apply (update_reassigns_from_catalog
           (parttree.ele_elements ex.planes_model) ex.planes).
  vm_compute. reflexivity.
Defined.

(** ** Serialising what was restored *)

Section json_facts.

Import parttree.

Lemma export_import (d : Dict) : export (import_ d) = d.
Proof.
  revert d. fix IH 1. intros [nm tg cs]. cbn [import_ export]. f_equal.
  induction cs as [|c cs IHcs]; [reflexivity|].
  cbn [map]. f_equal; [apply IH|exact IHcs].
Qed.

(** X27.  Whenever [sync_to_restore] returns for the serialised form of
    a tree, serialising the restored tree gives that serialised form
    again, whatever the names of the tree are. *)
Theorem json_roundtrip_stable (els : list Element)
  (seq_model : SequentialModel) (t t' : Node) :
  sync_to_restore els seq_model (json_encode t) = Ok t' ->
  json_encode t' = json_encode t.
Proof.
  unfold sync_to_restore, sync_part_tree_on_restore, json_encode.
  intros H. rewrite (restore_from_export els seq_model _ _ _ H).
  apply export_import.
Qed.

End json_facts.

(** The tree of the grouped train, serialised, restored and serialised
    again. *)
Lemma json_roundtrip_stable_witness :
  exists t',
    parttree.sync_to_restore
      (parttree.ele_elements ex.singlet_model) ex.singlet
      (parttree.json_encode (parttree.root_node ex.singlet_model))
    = Ok t' /\
    parttree.json_encode t'
    = parttree.json_encode (parttree.root_node ex.singlet_model).
Proof.
  eexists. split; [vm_compute; reflexivity|].
  apply (json_roundtrip_stable (parttree.ele_elements ex.singlet_model)
                               ex.singlet).
  vm_compute. reflexivity.
Defined.

(** ** From a surface or a gap to the element that wraps it *)

Section parent_of_wrapped_facts.

Import parttree elements.

Lemma prefix_app (t : string) :
  forall s x,
    String.prefix t s = true -> String.prefix t (s +:+ x) = true.
Proof.
  induction t as [|a t IH]; intros s x H.
  - destruct (s +:+ x); reflexivity.
  - destruct s as [|b s]; [discriminate H|].
    rewrite append_cons. cbn [String.prefix] in H |- *.
    destruct (ascii_dec a b); [|discriminate H]. apply IH. exact H.
Qed.

Lemma contains_app (t s x : string) :
  pystr.contains t s = true -> pystr.contains t (s +:+ x) = true.
Proof.
  revert x. induction s as [|b s IH]; intros x H.
  - cbn [pystr.contains] in H. rewrite Bool.orb_false_r in H.
    destruct t; [|discriminate H]. rewrite append_nil.
    destruct x; reflexivity.
  - rewrite append_cons. cbn [pystr.contains] in H |- *.
    apply Bool.orb_true_iff in H. apply Bool.orb_true_iff.
    destruct H as [H|H].
    + left. rewrite <- append_cons. apply prefix_app. exact H.
    + right. apply IH. exact H.
Qed.

(** The root of the fragment of an element passes the default filter,
    whatever extra tag it carries. *)
Lemma fragment_tag_matches (e : Element) (tg : option string) :
  tag_matches (tl (pystr.split "#" default_filter)) (fragment e tg) = true.
Proof.
  change (tl (pystr.split "#" default_filter))
    with ["element"; "airgap"; "dummyifc"].
  unfold tag_matches, fragment, set_name, elements.tree.
  cbn [existsb]. destruct (e_kind e); cbn [tag default_tag].
  1-4: rewrite (contains_app "element" _ (default "" tg))
         by (vm_compute; reflexivity);
       reflexivity.
  - rewrite (contains_app "dummyifc" "#dummyifc" (default "" tg))
      by (vm_compute; reflexivity).
    rewrite ?Bool.orb_false_r, ?Bool.orb_true_r. reflexivity.
  - rewrite (contains_app "airgap" "#airgap" (default "" tg))
      by (vm_compute; reflexivity).
    rewrite ?Bool.orb_false_r, ?Bool.orb_true_r. reflexivity.
Qed.

Lemma profile_children_shape (ss : list (nat * Interface)) :
  forall k gs, Forall fragment_child (profile_children k ss gs).
Proof.
  induction ss as [|[idx s] ss IH]; intros k gs; cbn [profile_children].
  - constructor.
  - constructor.
    + right. cbn [id tag children]. split; [intros []|].
      split; [reflexivity|]. constructor; [|constructor].
      split; [reflexivity|exact I].
    + destruct gs as [|[gidx g] gs]; [apply IH|].
      constructor; [|apply IH]. left. split; [reflexivity|exact I].
Qed.

Lemma fragment_shape (e : Element) (tg : option string) :
  Forall fragment_child (children (fragment e tg)).
Proof.
  unfold fragment, set_name, elements.tree.
  destruct (e_kind e); cbn [children];
    try apply profile_children_shape;
    apply List.Forall_map; apply List.Forall_forall; intros x _.
  - right. cbn [id tag children]. split; [intros []|].
    split; [reflexivity|]. constructor; [|constructor].
    split; [reflexivity|exact I].
  - left. split; [reflexivity|exact I].
  - left. split; [reflexivity|exact I].
  - left. split; [reflexivity|exact I].
Qed.

(** A node of the fragment that references a surface or a gap sits one
    level below the root of the fragment, or two levels below it under a
    profile node. *)
Lemma fragment_leaf_path (f : Node) (q : path) (m : Node) :
  Forall fragment_child (children f) -> ~ raw (id f) ->
  get f q = Some m -> raw (id m) ->
  (exists j, q = [j]) \/
  (exists j x c, q = [j; x] /\ nth_error (children f) j = Some c /\
                 tag c = "#profile").
Proof.
  intros Hshape Hroot Hget Hraw. destruct q as [|j q1].
  { injection Hget as <-. contradiction. }
  cbn [get] in Hget.
  destruct (nth_error (children f) j) as [c|] eqn:Hc; [|discriminate].
  rewrite List.Forall_forall in Hshape.
  destruct (Hshape c (nth_error_In _ _ Hc)) as [[Hleaf _]|(Hnr & Htag & Hkids)].
  - destruct q1 as [|x q2]; [left; eexists; reflexivity|].
    cbn [get] in Hget. rewrite Hleaf in Hget. destruct x; discriminate.
  - destruct q1 as [|x q2].
    { injection Hget as <-. contradiction. }
    cbn [get] in Hget.
    destruct (nth_error (children c) x) as [d|] eqn:Hd; [|discriminate].
    rewrite List.Forall_forall in Hkids.
    destruct (Hkids d (nth_error_In _ _ Hd)) as [Hleaf _].
    destruct q2 as [|y q3].
    + right. exists j, x, c. auto.
    + cbn [get] in Hget. rewrite Hleaf in Hget. destruct y; discriminate.
Qed.

Lemma referencing_one (f : Node) (obj : referent) :
  length (referencing f obj) = 1%nat ->
  exists q m,
    find_by_id f obj = Ok (Some q) /\ get f q = Some m /\
    id m = Some obj.
Proof.
  unfold referencing, find_by_id, find.
  rewrite <- walk_preorder, <- filter_map_snd, length_map.
  destruct (List.filter _ (walk f)) as [|[q m] [|? ?]] eqn:Hf;
    try discriminate.
  intros _. exists q, m. split; [reflexivity|].
  assert (Hin : In (q, m)
                  (List.filter
                     (fun pn => bool_decide (id (snd pn) = Some obj))
                     (walk f)))
    by (rewrite Hf; left; reflexivity).
  apply filter_In in Hin. destruct Hin as [Hin Hm].
  split; [exact (walk_get _ _ _ Hin)|].
  apply bool_decide_eq_true in Hm. exact Hm.
Qed.

Lemma get_last_child (nm : string) (i : option referent) (tg : string)
  (cs : list Node) (f : Node) (q : path) :
  get (mkNode nm i tg (cs ++ [f])) (length cs :: q) = get f q.
Proof.
  cbn [get children].
  rewrite nth_error_app2, Nat.sub_diag by lia. reflexivity.
Qed.

(** X28.  After [add_element_to_tree] has attached the fragment of an
    element that wraps something, [parent_object] with the default
    filter maps every surface and gap that a leaf of the fragment
    references, that exactly one node of the fragment references and
    that the root does not reference, to that element. *)
Theorem parent_object_of_wrapped (t t' : Node) (e : Element)
  (tg : option string) (obj : referent) :
  add_element_to_tree t e tg = Ok t' ->
  wraps_something e ->
  In obj (leaf_referents (fragment e tg)) ->
  length (referencing (fragment e tg) obj) = 1%nat ->
  id t <> Some obj ->
  parent_object t' obj default_filter = Ok (Some (RElem e)).
Proof.
  intros Hadd Hw Hleaf Hone Hroot.
  unfold add_element_to_tree in Hadd. fold (fragment e tg) in Hadd.
  destruct (referencing_one _ _ Hone) as (q & m & Hfind & Hget & Hid).
  destruct (lookup_in_attached _ _ _ _ _ Hadd Hleaf Hfind Hroot)
    as (cs & Hcs & Hnode).
  assert (Hraw : raw (Some obj)).
  { pose proof (tree_leaves_raw e tg (label e) Hw) as Hl.
    fold (fragment e tg) in Hl. rewrite List.Forall_forall in Hl.
    unfold leaf_referents in Hleaf. apply in_somes in Hleaf.
    apply in_map_iff in Hleaf. destruct Hleaf as (l & Hlid & Hlin).
    rewrite <- Hlid. exact (Hl l Hlin). }
  assert (Hfid : id (fragment e tg) = Some (RElem e)) by apply tree_id.
  assert (Hpath :
    (exists j, q = [j]) \/
    (exists j x c, q = [j; x] /\
                   nth_error (children (fragment e tg)) j = Some c /\
                   tag c = "#profile")).
  { apply (fragment_leaf_path _ _ m); try assumption.
    - apply fragment_shape.
    - rewrite Hfid. intros [].
    - rewrite Hid. exact Hraw. }
  pose proof (fragment_tag_matches e tg) as Htag.
  destruct t' as [nm i tg' cs']. cbn [children] in Hcs. subst cs'.
  unfold parent_object, parent_node. rewrite Hnode.
  cbn [mbind result_bind py.bind].
  assert (HgetF : get (mkNode nm i tg' (cs ++ [fragment e tg])) [length cs]
                  = Some (fragment e tg))
    by (rewrite get_last_child; reflexivity).
  destruct Hpath as [[j ->]|(j & x & c & -> & Hc & Hctag)].
  - cbn [ancestors length seq rev app map firstn climb].
    rewrite HgetF. cbv beta iota. rewrite Htag. cbv beta iota.
    rewrite HgetF. cbv beta iota. rewrite Hfid. reflexivity.
  - assert (Hgetc : get (mkNode nm i tg' (cs ++ [fragment e tg]))
                        [length cs; j] = Some c)
      by (rewrite get_last_child; cbn [get]; rewrite Hc; reflexivity).
    assert (Hno : tag_matches (tl (pystr.split "#" default_filter)) c
                  = false).
    { unfold tag_matches. rewrite Hctag. vm_compute. reflexivity. }
    cbn [ancestors length seq rev app map firstn climb].
    rewrite Hgetc. cbv beta iota. rewrite Hno. cbv beta iota.
    rewrite HgetF. cbv beta iota. rewrite Htag. cbv beta iota.
    rewrite HgetF. cbv beta iota. rewrite Hfid. reflexivity.
Qed.

End parent_of_wrapped_facts.

(** Surface A of the singlet, once the lens over A and B is attached. *)
Lemma parent_object_of_wrapped_witness :
  exists t',
    parttree.add_element_to_tree ex.singlet_init ex.lens_E1 None = Ok t' /\
    parttree.parent_object t' (RIfc ex.s_A) parttree.default_filter
    = Ok (Some (RElem ex.lens_E1)).
Proof.
  eexists. split; [vm_compute; reflexivity|].
  apply (parent_object_of_wrapped ex.singlet_init _ ex.lens_E1 None).
  - vm_compute. reflexivity.
  - discriminate.
  - vm_compute. left. reflexivity.
  - vm_compute. reflexivity.
  - discriminate.
Defined.
